(** * MiniHive: relational algebra to map/reduce, and its rewrite rules

    A shallow embedding of [raopt.py] (the rule based optimizer) and
    [ra2mr.py] (the compiler from relational algebra to luigi map/reduce
    tasks and the map and reduce bodies of the tasks), with the properties
    of the specification stated over it.

    Conventions of the embedding.
    - A Python [dict] keeps insertion order and the code iterates over it
      ([for k, v in tup.items()]), so a tuple is an association list with
      the keys in insertion order.
    - A JSON text is modelled by the ordered key/value list it denotes:
      [json.dumps(d)] is [d], [json.dumps(d, sort_keys=True)] is [d] with
      its keys sorted, [json.loads] is the identity.
    - Tuple values are the JSON scalars [null], booleans, integers and
      strings; floating point numbers are outside the model.
    - Python exceptions are explicit: a computation returns [Ok v] or
      [Raise e].
    - [radb] (the AST classes and the parser) and [luigi] (the job runner
      and the shuffle) are libraries outside the repository; the AST is
      modelled from the way the code uses it, the job runner as map, group
      by key, reduce. *)

From Stdlib Require Import ZArith Lia Ascii String DecimalString DecimalPos.
From Stdlib Require OrdersEx Sorted.
From stdpp Require Import base option list strings gmap fin_sets.

Local Open Scope string_scope.
Local Open Scope Z_scope.
Local Open Scope list_scope.

(** ** Python values, exceptions *)

Module Py.

Inductive value : Type :=
  | VNone
  | VBool (b : bool)
  | VInt (z : Z)
  | VStr (s : string).

#[global] Instance value_eq_dec : EqDecision value.
Proof. solve_decision. Defined.

Inductive exn : Type :=
  | TypeError
  | IndexError
  | AttributeError
  | AssertionError
  | Exception (msg : string)
  | FloatLiteral    (* a literal with a decimal point: not modelled *)
  | ChainText.      (* a text of [ChainedOp.__str__] that [radb] does not
                       write itself: what its parser reads is not modelled *)

#[global] Instance exn_eq_dec : EqDecision exn.
Proof. solve_decision. Defined.

(** [OutOfFuel] is the answer of a recursive function of the model that
    was given too small a recursion budget; the functions without a
    budget never return it. *)
Inductive result (A : Type) : Type :=
  | Ok (a : A)
  | Raise (e : exn)
  | OutOfFuel.
Arguments Ok {A} a.
Arguments Raise {A} e.
Arguments OutOfFuel {A}.

#[global] Instance result_eq_dec {A} `{EqDecision A} : EqDecision (result A).
Proof. solve_decision. Defined.

Definition bind {A B} (m : result A) (f : A -> result B) : result B :=
  match m with
  | Ok a => f a
  | Raise e => Raise e
  | OutOfFuel => OutOfFuel
  end.

Definition is_ok {A} (m : result A) : bool :=
  match m with Ok _ => true | _ => false end.

(** [for x in xs: ys += f(x)], stopping at the first exception. *)
Fixpoint concat_mapM {A B} (f : A -> result (list B)) (xs : list A)
  : result (list B) :=
  match xs with
  | [] => Ok []
  | x :: xs' =>
      bind (f x) (fun ys =>
      bind (concat_mapM f xs') (fun zs => Ok (ys ++ zs)))
  end.

(** The integer a [bool] or an [int] stands for in a numeric comparison. *)
Definition as_int (v : value) : option Z :=
  match v with
  | VBool b => Some (if b then 1 else 0)
  | VInt z => Some z
  | _ => None
  end.

(** [bool(v)] *)
Definition truthy (v : value) : bool :=
  match v with
  | VNone => false
  | VBool b => b
  | VInt z => negb (z =? 0)
  | VStr s => negb (String.eqb s "")
  end.

(** [l == r] *)
Definition py_eq (l r : value) : bool :=
  match as_int l, as_int r with
  | Some a, Some b => a =? b
  | _, _ =>
      match l, r with
      | VNone, VNone => true
      | VStr a, VStr b => String.eqb a b
      | _, _ => false
      end
  end.

(** [l < r], [l <= r]: defined between numbers and between strings. *)
Definition py_lt (l r : value) : result bool :=
  match as_int l, as_int r with
  | Some a, Some b => Ok (a <? b)
  | _, _ =>
      match l, r with
      | VStr a, VStr b => Ok (String.ltb a b)
      | _, _ => Raise TypeError
      end
  end.

Definition py_le (l r : value) : result bool :=
  match as_int l, as_int r with
  | Some a, Some b => Ok (a <=? b)
  | _, _ =>
      match l, r with
      | VStr a, VStr b => Ok (String.leb a b)
      | _, _ => Raise TypeError
      end
  end.

(** [str(v)] *)
Definition py_str (v : value) : string :=
  match v with
  | VNone => "None"
  | VBool true => "True"
  | VBool false => "False"
  | VInt z => NilZero.string_of_int (Z.to_int z)
  | VStr s => s
  end.

End Py.
Export Py.

#[global] Instance result_ret : MRet Py.result := @Py.Ok.
#[global] Instance result_bind : MBind Py.result :=
  fun A B f m => Py.bind m f.

(** ** The string operations the code uses *)

Module Str.

Definition dot : ascii := "."%char.

(** ["." in s] *)
Fixpoint has_dot (s : string) : bool :=
  match s with
  | EmptyString => false
  | String c s' => if Ascii.eqb c dot then true else has_dot s'
  end.

(** [s.split(".")[0]], which is also [s.split(".", 1)[0]] *)
Fixpoint before_dot (s : string) : string :=
  match s with
  | EmptyString => EmptyString
  | String c s' => if Ascii.eqb c dot then EmptyString else String c (before_dot s')
  end.

(** the text after the first dot, for a string that has one *)
Fixpoint after_first_dot (s : string) : string :=
  match s with
  | EmptyString => EmptyString
  | String c s' => if Ascii.eqb c dot then s' else after_first_dot s'
  end.

(** [s.split(".", 1)[-1]]: the whole string when it has no dot *)
Definition split1_last (s : string) : string :=
  if has_dot s then after_first_dot s else s.

(** [s.split(".")[-1]]: the text after the last dot *)
Fixpoint last_component (s : string) : string :=
  match s with
  | EmptyString => EmptyString
  | String c s' =>
      if has_dot s' then last_component s'
      else if Ascii.eqb c dot then s' else String c s'
  end.

(** [k.endswith(suf)] *)
Fixpoint endswith (k suf : string) : bool :=
  if String.eqb k suf then true
  else match k with
       | EmptyString => false
       | String _ k' => endswith k' suf
       end.

(** [k.endswith("." + suf) or k == suf] *)
Definition suffix_match (suf k : string) : bool :=
  endswith k (String dot suf) || String.eqb k suf.

(** [len(v) >= 2 and v[0] == q and v[-1] == q] *)
Fixpoint last_char (s : string) : option ascii :=
  match s with
  | EmptyString => None
  | String c EmptyString => Some c
  | String _ s' => last_char s'
  end.

Fixpoint drop_last (s : string) : string :=
  match s with
  | EmptyString => EmptyString
  | String c EmptyString => EmptyString
  | String c s' => String c (drop_last s')
  end.

Definition quoted_by (q : ascii) (v : string) : bool :=
  match v with
  | String c (String _ _ as rest) =>
      Ascii.eqb c q && bool_decide (last_char rest = Some q)
  | _ => false
  end.

(** [v[1:-1]] *)
Definition strip_ends (v : string) : string :=
  match v with
  | EmptyString => EmptyString
  | String _ rest => drop_last rest
  end.

(** [int(v)] on an optional sign followed by decimal digits; [None]
    where it raises.  (Surrounding blanks and underscores between
    digits, which [int] accepts as well, are not modelled.) *)
Definition nat_of_digits (v : string) : option Z :=
  match v with
  | EmptyString => None
  | _ => Z.of_uint <$> NilEmpty.uint_of_string v
  end.

Definition int_of_digits (v : string) : option Z :=
  match v with
  | String c rest =>
      if Ascii.eqb c "-"%char then Z.opp <$> nat_of_digits rest
      else if Ascii.eqb c "+"%char then nat_of_digits rest
      else nat_of_digits v
  | EmptyString => None
  end.

End Str.

(** ** Insertion ordered dictionaries *)

Module Dict.
Section Dict.
Context {V : Type}.

Definition dict := list (string * V).

(** [d[k]] / [k in d] *)
Fixpoint get (k : string) (d : dict) : option V :=
  match d with
  | [] => None
  | (k', v) :: d' => if String.eqb k' k then Some v else get k d'
  end.

(** [d[k] = v]: an existing key keeps its place, a new key goes last. *)
Fixpoint set (k : string) (v : V) (d : dict) : dict :=
  match d with
  | [] => [(k, v)]
  | (k', v') :: d' =>
      if String.eqb k' k then (k, v) :: d' else (k', v') :: set k v d'
  end.

(** [{**l, **r}] *)
Definition merge (l r : dict) : dict :=
  fold_left (fun acc kv => set (fst kv) (snd kv) acc) r l.

(** the first item, in insertion order, whose key satisfies [p] *)
Fixpoint find_key (p : string -> bool) (d : dict) : option (string * V) :=
  match d with
  | [] => None
  | (k, v) :: d' => if p k then Some (k, v) else find_key p d'
  end.

(** insertion of an item into a list sorted by key *)
Fixpoint insert_sorted (kv : string * V) (d : dict) : dict :=
  match d with
  | [] => [kv]
  | kv' :: d' =>
      if String.leb (fst kv) (fst kv') then kv :: kv' :: d'
      else kv' :: insert_sorted kv d'
  end.

(** the items in the order [json.dumps(d, sort_keys=True)] writes them *)
Definition sort_keys (d : dict) : dict :=
  foldr insert_sorted [] d.

End Dict.
Arguments dict V : clear implicits.
End Dict.

Abbreviation tuple := (Dict.dict Py.value).
(** An input or output record: [relation <TAB> json]. *)
Abbreviation record := (string * tuple)%type.

(** ** The syntax trees of [radb.ast] *)

Module Ast.

(** [radb.ast.sym]: the operator of a binary value expression. *)
Inductive sym : Type :=
  | EQ | NE | LT | LE | GT | GE | AND | OR
  | OTHER (text : string).

(** [AttrRef(rel, name)] *)
Record attrref : Type := AttrRefOf { attr_rel : option string; attr_name : string }.

(** [str(a)] for an attribute reference *)
Definition str_attr (a : attrref) : string :=
  match attr_rel a with
  | Some r => r +:+ "." +:+ attr_name a
  | None => attr_name a
  end.

Inductive valexpr : Type :=
  | AttrRef (a : attrref)
  | RAString (val : string)
  | RANumber (val : string)
  | ValExprBinaryOp (l : valexpr) (op : sym) (r : valexpr).

(** The attribute part of a rename: absent, the wildcard, or a list. *)
Inductive attrspec : Type :=
  | AttrsNone
  | AttrsStar
  | AttrsList (names : list string).

(** One entry [(op_type, params)] of [ChainedOp.operations]. *)
Inductive operation : Type :=
  | OpSelect (cond : valexpr)
  | OpProject (attrs : list attrref)
  | OpRename (relname : option string) (attrnames : attrspec).

Inductive node : Type :=
  | RelRef (rel : string)
  | Select (cond : valexpr) (input : node)
  | Project (attrs : list attrref) (input : node)
  | Rename (relname : option string) (attrnames : attrspec) (input : node)
  | Cross (left right : node)
  | Join (left : node) (cond : valexpr) (right : node)
  | ChainedOp (operations : list operation) (input : node).

#[global] Instance sym_eq_dec : EqDecision sym.
Proof. solve_decision. Defined.
#[global] Instance attrref_eq_dec : EqDecision attrref.
Proof. solve_decision. Defined.
#[global] Instance valexpr_eq_dec : EqDecision valexpr.
Proof. solve_decision. Defined.
#[global] Instance attrspec_eq_dec : EqDecision attrspec.
Proof. solve_decision. Defined.
#[global] Instance operation_eq_dec : EqDecision operation.
Proof. solve_decision. Defined.
#[global] Instance node_eq_dec : EqDecision node.
Proof. solve_decision. Defined.

End Ast.
Export Ast.

(** ** The scalar evaluator

    [atom_value] / [lookup] and [eval_cond] are nested functions that
    [SelectTask.mapper], [ChainedTask.mapper], [JoinTask.mapper] and
    [JoinTask.reducer] each define with the same text. *)

Module Eval.

(** [lookup(attrref, tup)], the [AttrRef] branch of [atom_value]:
    [None] is [VNone]. *)
Definition lookup (a : attrref) (tup : tuple) : value :=
  let s := str_attr a in
  match Dict.get s tup with
  | Some v => v
  | None =>
      let suf := Str.last_component s in
      match Dict.find_key (Str.suffix_match suf) tup with
      | Some (_, v) => v
      | None => VNone
      end
  end.

Definition squote : ascii := "'"%char.
Definition dquote : ascii := "034"%char.

(** the literal branch of [atom_value]; [number] is
    [isinstance(x, radb.ast.RANumber)] *)
Definition literal_value (number : bool) (v : string) : result value :=
  if Str.quoted_by squote v || Str.quoted_by dquote v then
    Ok (VStr (Str.strip_ends v))
  else if number then
    if Str.has_dot v then Raise FloatLiteral
    else match Str.int_of_digits v with
         | Some z => Ok (VInt z)
         | None => Ok (VStr v)
         end
  else Ok (VStr v).

Fixpoint eval_cond (c : valexpr) (tup : tuple) : result value :=
  match c with
  | ValExprBinaryOp cl op cr =>
      l ← eval_cond cl tup;
      r ← eval_cond cr tup;
      match op with
      | EQ => Ok (VBool (py_eq l r))
      | NE => Ok (VBool (negb (py_eq l r)))
      | LT => b ← py_lt l r; Ok (VBool b)
      | LE => b ← py_le l r; Ok (VBool b)
      | GT => b ← py_lt r l; Ok (VBool b)
      | GE => b ← py_le r l; Ok (VBool b)
      | AND => Ok (if truthy l then r else l)
      | OR => Ok (if truthy l then l else r)
      | OTHER _ => Ok (VBool false)
      end
  | AttrRef a => Ok (lookup a tup)
  | RAString v => literal_value false v
  | RANumber v => literal_value true v
  end.

(** [if eval_cond(c, tup): ...] *)
Definition holds (c : valexpr) (tup : tuple) : result bool :=
  v ← eval_cond c tup; Ok (truthy v).

End Eval.

(** ** [raopt.py]: the rewrite rules *)

Module Raopt.

(** The schema directory [dd]: relation name to attribute names. *)
Abbreviation schema := (gmap string (gset string)).

(** *** Rule 1: break up conjunctive selections *)

(** The rule calls itself on a tree it has just built, so the recursion
    is not structural: [fuel] bounds its depth. *)
Fixpoint rule_break_up_selections_rec (fuel : nat) (expr : node)
  : result node :=
  match fuel with
  | O => OutOfFuel
  | S fuel =>
      match expr with
      | Select cond input =>
          rewritten_input ← rule_break_up_selections_rec fuel input;
          match cond with
          | ValExprBinaryOp left_cond AND right_cond =>
              let inner := Select right_cond rewritten_input in
              let outer := Select left_cond inner in
              rule_break_up_selections_rec fuel outer
          | _ => Ok (Select cond rewritten_input)
          end
      | Project attrs input =>
          i ← rule_break_up_selections_rec fuel input;
          Ok (Project attrs i)
      | Rename relname attrnames input =>
          i ← rule_break_up_selections_rec fuel input;
          Ok (Rename relname attrnames i)
      | Cross l r =>
          l' ← rule_break_up_selections_rec fuel l;
          r' ← rule_break_up_selections_rec fuel r;
          Ok (Cross l' r')
      | Join l cond r =>
          l' ← rule_break_up_selections_rec fuel l;
          r' ← rule_break_up_selections_rec fuel r;
          Ok (Join l' cond r')
      | _ => Ok expr
      end
  end.

(** the number of [AND] nodes at the top of a condition *)
Fixpoint and_count (c : valexpr) : nat :=
  match c with
  | ValExprBinaryOp l AND r => S (and_count l + and_count r)
  | _ => O
  end.

(** a recursion depth that is enough for [rule_break_up_selections] *)
Fixpoint break_up_depth (expr : node) : nat :=
  match expr with
  | Select cond input => S (2 * and_count cond + break_up_depth input)
  | Project _ input | Rename _ _ input => S (break_up_depth input)
  | Cross l r | Join l _ r => S (break_up_depth l + break_up_depth r)
  | _ => 1%nat
  end.

Definition rule_break_up_selections (expr : node) : result node :=
  rule_break_up_selections_rec (break_up_depth expr) expr.

(** *** Helper utilities for push-down *)

Fixpoint extract_condition_attrs (cond : valexpr) : gset string :=
  match cond with
  | AttrRef a =>
      let name := str_attr a in
      {[ name ]} ∪
      (if Str.has_dot name then {[ Str.after_first_dot name ]} else ∅)
  | ValExprBinaryOp l _ r =>
      extract_condition_attrs l ∪ extract_condition_attrs r
  | _ => ∅
  end.

(** In the [Rename] branch [expr.relname + "."] is a [TypeError] when
    the rename has no alias and the loop runs at least once. *)
Fixpoint extract_expr_attrs (expr : node) (dd : schema) : result (gset string) :=
  match expr with
  | RelRef rel =>
      let attrs := default ∅ (dd !! rel) in
      Ok (attrs ∪ set_map (fun a => rel +:+ "." +:+ a) attrs)
  | Rename relname _ input =>
      inner ← extract_expr_attrs input dd;
      match relname with
      | Some new_name =>
          Ok (set_map Str.split1_last inner ∪
              set_map (fun a => new_name +:+ "." +:+ Str.split1_last a) inner)
      | None =>
          if decide (inner = ∅) then Ok ∅ else Raise TypeError
      end
  | Select _ input | Project _ input => extract_expr_attrs input dd
  | Cross l r | Join l _ r =>
      la ← extract_expr_attrs l dd;
      ra ← extract_expr_attrs r dd;
      Ok (la ∪ ra)
  | _ => Ok ∅
  end.

Definition can_push_down (cond : valexpr) (expr : node) (dd : schema)
  : result bool :=
  attrs ← extract_expr_attrs expr dd;
  Ok (bool_decide (extract_condition_attrs cond ⊆ attrs)).

(** [bool(a & b)] *)
Definition meets (a b : gset string) : bool := bool_decide (a ∩ b ≠ ∅).

(** [{a.split(".")[0] for a in attrs if "." in a}] *)
Definition prefixes_of (attrs : gset string) : gset string :=
  set_map Str.before_dot (filter (fun a => Str.has_dot a = true) attrs).

Definition is_join_condition (cond : valexpr) (left_attrs right_attrs : gset string)
  : bool :=
  let cond_attrs := extract_condition_attrs cond in
  let qualified := filter (fun a => Str.has_dot a = true) cond_attrs in
  if decide (qualified = ∅) then
    meets cond_attrs left_attrs && meets cond_attrs right_attrs
  else
    let left_prefixes := prefixes_of left_attrs in
    let right_prefixes := prefixes_of right_attrs in
    let cond_prefixes : gset string := set_map Str.before_dot qualified in
    meets cond_prefixes left_prefixes && meets cond_prefixes right_prefixes.

(** *** Rule 2: push down selections *)

Fixpoint rule_push_down_selections_rec (fuel : nat) (expr : node) (dd : schema)
  : result node :=
  match fuel with
  | O => OutOfFuel
  | S fuel =>
      match expr with
      | Select cond input =>
          child ← rule_push_down_selections_rec fuel input dd;
          match child with
          | Cross lhs rhs =>
              (* Case 1: selection over cross *)
              left_attrs ← extract_expr_attrs lhs dd;
              right_attrs ← extract_expr_attrs rhs dd;
              if is_join_condition cond left_attrs right_attrs then
                Ok (Select cond child)
              else
                pl ← can_push_down cond lhs dd;
                if (pl : bool) then
                  l' ← rule_push_down_selections_rec fuel (Select cond lhs) dd;
                  Ok (Cross l' rhs)
                else
                  pr ← can_push_down cond rhs dd;
                  if (pr : bool) then
                    r' ← rule_push_down_selections_rec fuel (Select cond rhs) dd;
                    Ok (Cross lhs r')
                  else Ok (Select cond child)
          | Select child_cond (Cross lhs rhs) =>
              (* Case 2: selection over selection over cross *)
              left_attrs ← extract_expr_attrs lhs dd;
              right_attrs ← extract_expr_attrs rhs dd;
              let outer_join := is_join_condition cond left_attrs right_attrs in
              let inner_join := is_join_condition child_cond left_attrs right_attrs in
              if negb outer_join && inner_join then
                pl ← can_push_down cond lhs dd;
                if (pl : bool) then
                  l' ← rule_push_down_selections_rec fuel (Select cond lhs) dd;
                  Ok (Select child_cond (Cross l' rhs))
                else
                  pr ← can_push_down cond rhs dd;
                  if (pr : bool) then
                    r' ← rule_push_down_selections_rec fuel (Select cond rhs) dd;
                    Ok (Select child_cond (Cross lhs r'))
                  else Ok (Select cond child)
              else Ok (Select cond child)
          | _ => Ok (Select cond child)
          end
      | Project attrs input =>
          i ← rule_push_down_selections_rec fuel input dd;
          Ok (Project attrs i)
      | Rename relname attrnames input =>
          i ← rule_push_down_selections_rec fuel input dd;
          Ok (Rename relname attrnames i)
      | Cross l r =>
          l' ← rule_push_down_selections_rec fuel l dd;
          r' ← rule_push_down_selections_rec fuel r dd;
          Ok (Cross l' r')
      | Join l cond r =>
          l' ← rule_push_down_selections_rec fuel l dd;
          r' ← rule_push_down_selections_rec fuel r dd;
          Ok (Join l' cond r')
      | _ => Ok expr
      end
  end.

(** the number of operator nodes: a recursion depth that is enough for
    [rule_push_down_selections] *)
Fixpoint node_count (expr : node) : nat :=
  match expr with
  | Select _ input | Project _ input | Rename _ _ input => S (node_count input)
  | Cross l r | Join l _ r => S (node_count l + node_count r)
  | _ => 1%nat
  end.

Definition rule_push_down_selections (expr : node) (dd : schema) : result node :=
  rule_push_down_selections_rec (node_count expr) expr dd.

(** *** Rule 3: merge selections *)

(** [collect_conditions] is the [while] loop that gathers [conditions]
    and stops at [cur], the first node that is not a selection; [base]
    is the rule applied to [cur]. *)
Fixpoint collect_conditions (rule : node -> node) (conditions : list valexpr)
    (cur : node) : list valexpr * node :=
  match cur with
  | Select c i => collect_conditions rule (conditions ++ [c]) i
  | _ => (conditions, rule cur)
  end.

Fixpoint rule_merge_selections (expr : node) : node :=
  match expr with
  | Select cond input =>
      let '(conditions, base) :=
        collect_conditions rule_merge_selections [cond] input in
      match conditions with
      | [] => Select cond base
      | [c] => Select c base
      | c :: rest =>
          Select (fold_left (fun merged ci => ValExprBinaryOp merged AND ci) rest c)
                 base
      end
  | Project attrs input => Project attrs (rule_merge_selections input)
  | Rename relname attrnames input =>
      Rename relname attrnames (rule_merge_selections input)
  | Cross l r => Cross (rule_merge_selections l) (rule_merge_selections r)
  | Join l cond r => Join (rule_merge_selections l) cond (rule_merge_selections r)
  | _ => expr
  end.

(** *** Rule 4: introduce joins *)

Fixpoint extract_relations (expr : node) : gset (option string) :=
  match expr with
  | RelRef rel => {[ Some rel ]}
  | Rename relname _ _ => {[ relname ]}
  | Select _ input | Project _ input => extract_relations input
  | Cross l r | Join l _ r => extract_relations l ∪ extract_relations r
  | _ => ∅
  end.

Fixpoint extract_condition_prefixes (cond : valexpr) : gset (option string) :=
  match cond with
  | AttrRef a =>
      let name := str_attr a in
      if Str.has_dot name then {[ Some (Str.before_dot name) ]} else ∅
  | ValExprBinaryOp l _ r =>
      extract_condition_prefixes l ∪ extract_condition_prefixes r
  | _ => ∅
  end.

Fixpoint rule_introduce_joins (expr : node) : node :=
  match expr with
  | Select cond input =>
      let rewritten := rule_introduce_joins input in
      match rewritten with
      | Cross lhs rhs =>
          let cond_prefixes := extract_condition_prefixes cond in
          if bool_decide (cond_prefixes ∩ extract_relations lhs ≠ ∅) &&
             bool_decide (cond_prefixes ∩ extract_relations rhs ≠ ∅)
          then Join lhs cond rhs
          else Select cond rewritten
      | _ => Select cond rewritten
      end
  | Project attrs input => Project attrs (rule_introduce_joins input)
  | Rename relname attrnames input =>
      Rename relname attrnames (rule_introduce_joins input)
  | Cross l r => Cross (rule_introduce_joins l) (rule_introduce_joins r)
  | Join l cond r => Join (rule_introduce_joins l) cond (rule_introduce_joins r)
  | _ => expr
  end.

End Raopt.

(** ** [rule_push_down_projections], on the heap

    This rule assigns to [expr.inputs], so the nodes are modelled as the
    objects they are: a heap of objects addressed by their index, each
    with the fields of its class and its list [inputs] of addresses (the
    empty list for a relation). *)

Module RaoptHeap.
Import Raopt.

Definition loc := nat.

Inductive shape : Type :=
  | SRelRef (rel : string)
  | SSelect (cond : valexpr)
  | SProject (attrs : list attrref)
  | SRename (relname : option string) (attrnames : attrspec)
  | SCross
  | SJoin (cond : valexpr)
  | SChainedOp (operations : list operation).

Record obj : Type := Obj { shape_of : shape; inputs : list loc }.

Definition heap := list obj.

(** a constructor call such as [radb.ast.Project(attrs, input)] *)
Definition alloc (o : obj) (h : heap) : loc * heap := (length h, h ++ [o]).

Definition deref (h : heap) (l : loc) : result obj :=
  match h !! l with
  | Some o => Ok o
  | None => Raise AttributeError
  end.

(** [inputs[i]] *)
Definition nth_input (o : obj) (i : nat) : result loc :=
  match inputs o !! i with
  | Some l => Ok l
  | None => Raise IndexError
  end.

(** the tree an address stands for *)
Fixpoint read_tree (fuel : nat) (h : heap) (l : loc) : result node :=
  match fuel with
  | O => OutOfFuel
  | S fuel =>
      o ← deref h l;
      match shape_of o with
      | SRelRef rel => Ok (RelRef rel)
      | SSelect cond =>
          i ← nth_input o 0; t ← read_tree fuel h i; Ok (Select cond t)
      | SProject attrs =>
          i ← nth_input o 0; t ← read_tree fuel h i; Ok (Project attrs t)
      | SRename relname attrnames =>
          i ← nth_input o 0; t ← read_tree fuel h i;
          Ok (Rename relname attrnames t)
      | SCross =>
          i ← nth_input o 0; j ← nth_input o 1;
          t ← read_tree fuel h i; u ← read_tree fuel h j; Ok (Cross t u)
      | SJoin cond =>
          i ← nth_input o 0; j ← nth_input o 1;
          t ← read_tree fuel h i; u ← read_tree fuel h j; Ok (Join t cond u)
      | SChainedOp operations =>
          i ← nth_input o 0; t ← read_tree fuel h i;
          Ok (ChainedOp operations t)
      end
  end.

(** building the objects of a tree, inputs first *)
Fixpoint store_tree (t : node) (h : heap) : loc * heap :=
  match t with
  | RelRef rel => alloc (Obj (SRelRef rel) []) h
  | Select cond i =>
      let '(li, h) := store_tree i h in alloc (Obj (SSelect cond) [li]) h
  | Project attrs i =>
      let '(li, h) := store_tree i h in alloc (Obj (SProject attrs) [li]) h
  | Rename relname attrnames i =>
      let '(li, h) := store_tree i h in
      alloc (Obj (SRename relname attrnames) [li]) h
  | Cross l r =>
      let '(ll, h) := store_tree l h in
      let '(lr, h) := store_tree r h in
      alloc (Obj SCross [ll; lr]) h
  | Join l cond r =>
      let '(ll, h) := store_tree l h in
      let '(lr, h) := store_tree r h in
      alloc (Obj (SJoin cond) [ll; lr]) h
  | ChainedOp operations i =>
      let '(li, h) := store_tree i h in
      alloc (Obj (SChainedOp operations) [li]) h
  end.

(** [to_attr_ref(name)] *)
Definition to_attr_ref (name : string) : attrref :=
  if Str.has_dot name then
    AttrRefOf (Some (Str.before_dot name)) (Str.after_first_dot name)
  else AttrRefOf None name.

(** [extract_expr_attrs] only reads the tree below an address. *)
Definition extract_expr_attrs_at (fuel : nat) (h : heap) (l : loc) (dd : schema)
  : result (gset string) :=
  t ← read_tree fuel h l; extract_expr_attrs t dd.

(** [[f(i) for i in ls]], the heap threaded through the calls *)
Fixpoint map_heap (f : loc -> heap -> result (loc * heap)) (ls : list loc)
    (h : heap) : result (list loc * heap) :=
  match ls with
  | [] => Ok ([], h)
  | l :: ls' =>
      r ← f l h;
      rs ← map_heap f ls' (snd r);
      Ok (fst r :: fst rs, snd rs)
  end.

(** The order in which Python iterates over the set [required_attrs] is
    not specified; [elements] stands for it. *)
Fixpoint rule_push_down_projections (fuel : nat) (expr : loc) (dd : schema)
    (h : heap) : result (loc * heap) :=
  match fuel with
  | O => OutOfFuel
  | S fuel =>
      o ← deref h expr;
      (* expr.inputs = [rule_push_down_projections(i, dd) for i in expr.inputs] *)
      rs ← map_heap (fun i h => rule_push_down_projections fuel i dd h)
                    (inputs o) h;
      let o := Obj (shape_of o) (fst rs) in
      let h := <[ expr := o ]> (snd rs) in
      match shape_of o with
      | SProject attrs =>
          child_loc ← nth_input o 0;
          child ← deref h child_loc;
          match shape_of child with
          | SJoin cond =>
              let cond_attrs := extract_condition_attrs cond in
              let final_attrs : gset string := list_to_set (map str_attr attrs) in
              let required_attrs := cond_attrs ∪ final_attrs in
              child_left ← nth_input child 0;
              child_right ← nth_input child 1;
              left_all ← extract_expr_attrs_at fuel h child_left dd;
              right_all ← extract_expr_attrs_at fuel h child_right dd;
              let left_needed :=
                map to_attr_ref
                  (filter (fun a => a ∈ left_all) (elements required_attrs)) in
              let right_needed :=
                map to_attr_ref
                  (filter (fun a => a ∈ right_all) (elements required_attrs)) in
              let '(new_left, h) :=
                if decide (length left_needed < size left_all)%nat
                then alloc (Obj (SProject left_needed) [child_left]) h
                else (child_left, h) in
              let '(new_right, h) :=
                if decide (length right_needed < size right_all)%nat
                then alloc (Obj (SProject right_needed) [child_right]) h
                else (child_right, h) in
              let '(new_join, h) := alloc (Obj (SJoin cond) [new_left; new_right]) h in
              Ok (alloc (Obj (SProject attrs) [new_join]) h)
          | _ => Ok (expr, h)
          end
      | _ => Ok (expr, h)
      end
  end.

End RaoptHeap.

(** ** The job runner of luigi (outside the repository)

    A map phase runs the mapper on every input record, the shuffle groups
    the emitted pairs by key, the reduce phase runs the reducer once for
    every key that was emitted, with all the values of that key.  Groups
    are listed here by first occurrence; the runner's own order of groups
    and of the values in a group is not relied upon. *)

Module Runner.
Section Shuffle.
Context {K V : Type} `{EqDecision K}.

Fixpoint add_to_group (k : K) (v : V) (gs : list (K * list V))
  : list (K * list V) :=
  match gs with
  | [] => [(k, [v])]
  | (k', vs) :: gs' =>
      if decide (k' = k) then (k', vs ++ [v]) :: gs'
      else (k', vs) :: add_to_group k v gs'
  end.

Definition shuffle (kvs : list (K * V)) : list (K * list V) :=
  fold_left (fun gs kv => add_to_group (fst kv) (snd kv) gs) kvs [].

Context {O : Type}.

Definition reduce_phase (reducer : K -> list V -> result (list O))
    (kvs : list (K * V)) : result (list O) :=
  concat_mapM (fun g => reducer (fst g) (snd g)) (shuffle kvs).

End Shuffle.
End Runner.

(** ** [ra2mr.py]: the map and reduce bodies *)

Module Ra2mr.
Import Eval.

(** *** Counting steps, folding chains, building tasks *)

(** The messages of the two exceptions.  Of the nodes of the model only a
    cross product reaches them, so [str(type(raquery))] is the text of
    the class [radb.ast.Cross]. *)
Definition count_steps_error : string :=
  "count_steps: Cannot handle operator <class 'radb.ast.Cross'>.".
Definition task_factory_error : string :=
  "Operator <class 'radb.ast.Cross'> not implemented (yet).".

Fixpoint count_steps (raquery : node) : result Z :=
  match raquery with
  | ChainedOp _ input =>
      n ← count_steps input; Ok (1 + n)
  | Select _ input | Project _ input | Rename _ _ input =>
      n ← count_steps input; Ok (1 + n)
  | Join l _ r =>
      a ← count_steps l; b ← count_steps r; Ok (1 + a + b)
  | RelRef _ => Ok 1
  | Cross _ _ => Raise (Exception count_steps_error)
  end.

(** the [while] loop of [try_fold_chain]: [operations] outer to inner,
    and the node at which the run stops *)
Fixpoint collect_chain (operations : list operation) (current : node)
  : list operation * node :=
  match current with
  | Select cond input => collect_chain (operations ++ [OpSelect cond]) input
  | Project attrs input => collect_chain (operations ++ [OpProject attrs]) input
  | Rename relname attrnames input =>
      collect_chain (operations ++ [OpRename relname attrnames]) input
  | _ => (operations, current)
  end.

Fixpoint try_fold_chain (raquery : node) : node :=
  let '(operations, current) := collect_chain [] raquery in
  if decide (2 <= length operations)%nat then
    ChainedOp (rev operations) current
  else
    match raquery with
    | Select cond input => Select cond (try_fold_chain input)
    | Project attrs input => Project attrs (try_fold_chain input)
    | Rename relname attrnames input =>
        Rename relname attrnames (try_fold_chain input)
    | Join l cond r => Join (try_fold_chain l) cond (try_fold_chain r)
    | _ => raquery
    end.

(** the operator an entry of [operations] stands for *)
Definition unfold_operation (op : operation) (input : node) : node :=
  match op with
  | OpSelect cond => Select cond input
  | OpProject attrs => Project attrs input
  | OpRename relname attrnames => Rename relname attrnames input
  end.

(** an operation that [ChainedOp.__str__] writes as [radb] writes the
    operator: [\select_{cond}] and [\project_{a,b}].  A rename is written
    in a form of its own ([alias:*], [alias] alone, [alias:a,b], and the
    text [None] for a missing alias). *)
Definition written_as_radb (op : operation) : bool :=
  match op with
  | OpSelect _ | OpProject _ => true
  | OpRename _ _ => false
  end.

(** [radb.parse.one_statement_from_string(str(q) + ";")]: the tree a
    task reads back from its query string.  The parser of [radb] is not
    part of the repository.
    - The text of a node of [radb] is written by [radb]; its parser reads
      the node back.
    - [ChainedOp.__str__] writes the operations, outermost first, as
      prefix operators before the text of the input, and puts that text
      between parentheses only when the input is a relation.  For
      selections and projections over a relation this is the text of the
      operators over the relation, which the parser reads as such.
    - In every other case (an input that is not a relation, so that its
      text follows the operators without parentheses, or a rename among
      the operations) the tree depends on the grammar of [radb]:
      [reparse] answers [ChainText]. *)
Fixpoint reparse (q : node) : result node :=
  match q with
  | RelRef rel => Ok (RelRef rel)
  | Select cond input => i ← reparse input; Ok (Select cond i)
  | Project attrs input => i ← reparse input; Ok (Project attrs i)
  | Rename relname attrnames input =>
      i ← reparse input; Ok (Rename relname attrnames i)
  | Cross l r => l' ← reparse l; r' ← reparse r; Ok (Cross l' r')
  | Join l cond r => l' ← reparse l; r' ← reparse r; Ok (Join l' cond r')
  | ChainedOp operations input =>
      match input with
      | RelRef rel =>
          if forallb written_as_radb operations then
            Ok (fold_left (fun acc op => unfold_operation op acc) operations
                          (RelRef rel))
          else Raise ChainText
      | _ => Raise ChainText
      end
  end.

(** A luigi task.  [querystring] holds the node whose text
    [str(raquery) + ";"] the task stores; the task reads it through
    [reparse]. *)
Inductive task : Type :=
  | InputData (filename : string)
  | ChainedTask (querystring : node) (step : Z) (optimize : bool)
  | SelectTask (querystring : node) (step : Z) (optimize : bool)
  | JoinTask (querystring : node) (step : Z) (optimize : bool)
  | ProjectTask (querystring : node) (step : Z) (optimize : bool)
  | RenameTask (querystring : node) (step : Z) (optimize : bool).

(** the stage index of a task; [InputData] has none *)
Definition step_of (t : task) : option Z :=
  match t with
  | InputData _ => None
  | ChainedTask _ s _ | SelectTask _ s _ | JoinTask _ s _
  | ProjectTask _ s _ | RenameTask _ s _ => Some s
  end.

Definition task_factory (raquery : node) (step : Z) (optimize : bool)
  : result task :=
  let raquery := if optimize then try_fold_chain raquery else raquery in
  match raquery with
  | ChainedOp _ _ => Ok (ChainedTask raquery step optimize)
  | Select _ _ => Ok (SelectTask raquery step optimize)
  | RelRef rel => Ok (InputData (rel +:+ ".json"))
  | Join _ _ _ => Ok (JoinTask raquery step optimize)
  | Project _ _ => Ok (ProjectTask raquery step optimize)
  | Rename _ _ _ => Ok (RenameTask raquery step optimize)
  | Cross _ _ => Raise (Exception task_factory_error)
  end.

(** [raquery.inputs[0]] *)
Definition first_input (raquery : node) : result node :=
  match raquery with
  | RelRef _ => Raise IndexError
  | Select _ i | Project _ i | Rename _ _ i | ChainedOp _ i => Ok i
  | Cross l _ | Join l _ _ => Ok l
  end.

(** [requires()] of each task class *)
Definition requires (t : task) : result (list task) :=
  match t with
  | InputData _ => Ok []
  | ChainedTask q step optimize =>
      raquery ← reparse q;
      input ← first_input (try_fold_chain raquery);
      t1 ← task_factory input (step + 1) optimize;
      Ok [t1]
  | SelectTask q step optimize =>
      raquery ← reparse q;
      match raquery with
      | Select _ input => t1 ← task_factory input (step + 1) optimize; Ok [t1]
      | _ => Raise AssertionError
      end
  | ProjectTask q step optimize =>
      raquery ← reparse q;
      match raquery with
      | Project _ input => t1 ← task_factory input (step + 1) optimize; Ok [t1]
      | _ => Raise AssertionError
      end
  | RenameTask q step optimize =>
      raquery ← reparse q;
      match raquery with
      | Rename _ _ input => t1 ← task_factory input (step + 1) optimize; Ok [t1]
      | _ => Raise AssertionError
      end
  | JoinTask q step optimize =>
      raquery ← reparse q;
      match raquery with
      | Join l _ r =>
          task1 ← task_factory l (step + 1) optimize;
          n ← count_steps l;
          task2 ← task_factory r (step + n + 1) optimize;
          Ok [task1; task2]
      | _ => Raise AssertionError
      end
  end.

(** The tasks of the dependency graph below [t], [t] first: what the
    scheduler finds by following [requires].  [fuel] bounds the depth. *)
Fixpoint task_dag (fuel : nat) (t : task) : result (list task) :=
  match fuel with
  | O => OutOfFuel
  | S fuel =>
      deps ← requires t;
      below ← concat_mapM (task_dag fuel) deps;
      Ok (t :: below)
  end.

(** the number of nodes of a query: a depth that is enough for
    [task_dag] *)
Fixpoint query_size (q : node) : nat :=
  match q with
  | RelRef _ => 1%nat
  | Select _ i | Project _ i | Rename _ _ i => S (query_size i)
  | Cross l r | Join l _ r => S (query_size l + query_size r)
  | ChainedOp operations i => (length operations + query_size i)%nat
  end.

(** the graph of the tasks that evaluate [raquery] *)
Definition task_graph (raquery : node) (step : Z) (optimize : bool)
  : result (list task) :=
  t ← task_factory raquery step optimize;
  task_dag (S (query_size raquery)) t.

(** the operations a ChainedTask runs: [raquery.operations] of
    [try_fold_chain(parse(querystring))] *)
Definition ChainedTask_operations (querystring : node) : result (list operation) :=
  raquery ← reparse querystring;
  match try_fold_chain raquery with
  | ChainedOp operations _ => Ok operations
  | _ => Raise AttributeError
  end.

(** *** SelectTask *)

Definition SelectTask_mapper (condition : valexpr) (line : record)
  : result (list record) :=
  let '(relation, json_tuple) := line in
  b ← holds condition json_tuple;
  Ok (if (b : bool) then [(relation, json_tuple)] else []).

(** *** RenameTask *)

(** the loop [for k, v in tup.items(): renamed[new + "." + suffix] = v] *)
Definition rename_keys (new_name : string) (tup : tuple) : tuple :=
  fold_left
    (fun renamed kv =>
       Dict.set (new_name +:+ "." +:+ Str.split1_last (fst kv)) (snd kv) renamed)
    tup [].

(** [relname] is [raquery.relname].  With no alias, [new_name + "."] is
    [None + "."], a [TypeError], in the first round of the loop; on an
    empty tuple the loop body does not run and the label written is
    [str(None)]. *)
Definition RenameTask_mapper (relname : option string) (line : record)
  : result (list record) :=
  let '(relation, json_tuple) := line in
  match relname with
  | Some new_name => Ok [(new_name, rename_keys new_name json_tuple)]
  | None =>
      match json_tuple with
      | [] => Ok [(py_str VNone, [])]
      | _ :: _ => Raise TypeError
      end
  end.

(** *** ProjectTask *)

Definition ProjectTask_project (attrs : list attrref) (json_tuple : tuple)
  : tuple :=
  fold_left
    (fun out a =>
       match Dict.get (str_attr a) json_tuple with
       | Some v => Dict.set (str_attr a) v out
       | None =>
           match Dict.find_key (Str.suffix_match (attr_name a)) json_tuple with
           | Some (k, v) => Dict.set k v out
           | None => out
           end
       end)
    attrs [].

(** emits [(json.dumps(out, sort_keys=True), None)] *)
Definition ProjectTask_mapper (attrs : list attrref) (line : record)
  : result (list (tuple * unit)) :=
  let '(relation, json_tuple) := line in
  Ok [(Dict.sort_keys (ProjectTask_project attrs json_tuple), tt)].

Definition ProjectTask_reducer (key : tuple) (values : list unit)
  : result (list record) :=
  let rel :=
    match Dict.find_key Str.has_dot key with
    | Some (k, _) => Str.before_dot k
    | None => "result"
    end in
  Ok [(rel, key)].

(** *** ChainedTask *)

(** The body of the loop over [raquery.operations], on the running
    [(current_rel, current_tuple)]; [None] is the [return] of a select
    that fails. *)
Definition chain_project (params : list attrref) (current_tuple : tuple)
  : tuple :=
  fold_left
    (fun out a =>
       match Dict.find_key (Str.suffix_match (attr_name a)) current_tuple with
       | Some (k, v) => Dict.set k v out
       | None => out
       end)
    params [].

Definition apply_operation (op : operation) (cur : record)
  : result (option record) :=
  let '(current_rel, current_tuple) := cur in
  match op with
  | OpSelect params =>
      b ← holds params current_tuple;
      Ok (if (b : bool) then Some cur else None)
  | OpProject params =>
      Ok (Some (current_rel, chain_project params current_tuple))
  | OpRename relname _ =>
      match relname with
      | Some new_name => Ok (Some (new_name, rename_keys new_name current_tuple))
      | None => Ok (Some cur)
      end
  end.

Fixpoint apply_operations (ops : list operation) (cur : record)
  : result (option record) :=
  match ops with
  | [] => Ok (Some cur)
  | op :: ops' =>
      r ← apply_operation op cur;
      match r with
      | Some cur' => apply_operations ops' cur'
      | None => Ok None
      end
  end.

Definition touch_key : string := "__touch__".
Definition empty_key : string := "__empty__".

(** One call of the mapper of a task instance whose [_touched] flag is
    [touched]: the new flag and the pairs it yields.  The value of the
    touch pair is [None]; a surviving record is emitted under its relation
    label with [json.dumps(current_tuple, sort_keys=True)]. *)
Definition ChainedTask_mapper (ops : list operation) (touched : bool)
    (line : record) : bool * result (list (string * option tuple)) :=
  let touch := if touched then [] else [(touch_key, None)] in
  (true,
   r ← apply_operations ops line;
   Ok (touch ++
       match r with
       | Some (current_rel, current_tuple) =>
           [(current_rel, Some (Dict.sort_keys current_tuple))]
       | None => []
       end)).

(** the map phase of one task instance over its input *)
Fixpoint ChainedTask_map_phase (ops : list operation) (touched : bool)
    (lines : list record) : result (list (string * option tuple)) :=
  match lines with
  | [] => Ok []
  | line :: lines' =>
      let '(touched', out) := ChainedTask_mapper ops touched line in
      ys ← out;
      zs ← ChainedTask_map_phase ops touched' lines';
      Ok (ys ++ zs)
  end.

(** [seen] is a set used for membership only; the values yielded are the
    first occurrences, in order. *)
Fixpoint dedup {A} `{EqDecision A} (seen : list A) (values : list A) : list A :=
  match values with
  | [] => []
  | v :: values' =>
      if decide (v ∈ seen) then dedup seen values'
      else v :: dedup (v :: seen) values'
  end.

Definition ChainedTask_reducer (key : string) (values : list (option tuple))
  : result (list (string * option tuple)) :=
  if String.eqb key touch_key then Ok []
  else
    let out := dedup [] values in
    Ok (map (fun v => (key, v)) out ++
        match out with
        | [] => [(empty_key, Some [])]
        | _ :: _ => []
        end).

(** the whole job of a ChainedTask over the records of its input *)
Definition ChainedTask_job (ops : list operation) (lines : list record)
  : result (list (string * option tuple)) :=
  kvs ← ChainedTask_map_phase ops false lines;
  Runner.reduce_phase ChainedTask_reducer kvs.

(** *** JoinTask *)

Fixpoint collect_eq_pairs (c : valexpr) : list (attrref * attrref) :=
  match c with
  | ValExprBinaryOp (AttrRef l) EQ (AttrRef r) => [(l, r)]
  | ValExprBinaryOp cl AND cr => collect_eq_pairs cl ++ collect_eq_pairs cr
  | _ => []
  end.

(** the list [vals] of the mapper *)
Definition join_vals (condition : valexpr) (json_tuple : tuple) : list string :=
  omap
    (fun lr =>
       let v := lookup (fst lr) json_tuple in
       let v := if decide (v = VNone) then lookup (snd lr) json_tuple else v in
       if decide (v = VNone) then None else Some (py_str v))
    (collect_eq_pairs condition).

(** What the key [k] of the mapper is made of: the one value, or the
    several values whose text [json.dumps(vals, separators=(',', ':'))]
    is the key.  The key itself is the string [key_text]. *)
Inductive join_key : Type :=
  | KeyOne (k : string)
  | KeyMany (vals : list string).

#[global] Instance join_key_eq_dec : EqDecision join_key.
Proof. solve_decision. Defined.

(** [json.dumps] of a string (with [ensure_ascii]): between double quotes,
    the characters from the space to the tilde as they are, the double
    quote and the backslash after a backslash, the short escapes for
    backspace, form feed, newline, carriage return and tab, and
    [\u00xx] for every other character. *)
Definition backslash : ascii := "092"%char.

Definition hex_digit (n : N) : ascii :=
  ascii_of_N (if (n <? 10)%N then 48 + n else 87 + n)%N.

Definition json_escape (c : ascii) : string :=
  let n := N_of_ascii c in
  if ((n =? 34) || (n =? 92))%N then String backslash (String c "")
  else if (n =? 8)%N then String backslash "b"
  else if (n =? 12)%N then String backslash "f"
  else if (n =? 10)%N then String backslash "n"
  else if (n =? 13)%N then String backslash "r"
  else if (n =? 9)%N then String backslash "t"
  else if ((32 <=? n) && (n <=? 126))%N then String c ""
  else String backslash
         ("u00" +:+ String (hex_digit (n / 16)) (String (hex_digit (n mod 16)) "")).

Fixpoint json_escape_all (s : string) : string :=
  match s with
  | EmptyString => EmptyString
  | String c s' => json_escape c +:+ json_escape_all s'
  end.

Definition json_string (s : string) : string :=
  String dquote (json_escape_all s +:+ String dquote "").

(** [json.dumps(vals, separators=(',', ':'))] *)
Definition json_dumps_strings (vals : list string) : string :=
  "[" +:+ String.concat "," (map json_string vals) +:+ "]".

(** the key as the mapper yields it and as the shuffle compares it *)
Definition key_text (k : join_key) : string :=
  match k with
  | KeyOne k => k
  | KeyMany vals => json_dumps_strings vals
  end.


(** the key [k] of the mapper; [None] when no equality gave a value *)
Definition mapper_key (condition : valexpr) (json_tuple : tuple)
  : option join_key :=
  match join_vals condition json_tuple with
  | [] => None
  | [k] => Some (KeyOne k)
  | vals => Some (KeyMany vals)
  end.

Definition JoinTask_mapper (condition : valexpr) (line : record)
  : result (list (join_key * record)) :=
  let '(relation, json_tuple) := line in
  match mapper_key condition json_tuple with
  | Some k => Ok [(k, (relation, json_tuple))]
  | None => Ok []
  end.

(** the string [k] of the mapper *)
Definition mapper_text (condition : valexpr) (json_tuple : tuple)
  : option string :=
  key_text <$> mapper_key condition json_tuple.

(** [rels(node)] of the reducer; a rename without alias contributes
    [None]. *)
Fixpoint rels (n : node) : gset (option string) :=
  match n with
  | RelRef rel => {[ Some rel ]}
  | Rename relname _ _ => {[ relname ]}
  | Select _ i | Project _ i | ChainedOp _ i => rels i
  | Cross l r | Join l _ r => rels l ∪ rels r
  end.

(** [{k.split('.')[0] for k in tup if '.' in k}] *)
Definition key_prefixes (tup : tuple) : gset (option string) :=
  list_to_set (map (fun kv => Some (Str.before_dot (fst kv)))
                   (filter (fun kv => Str.has_dot (fst kv) = true) tup)).

(** [bool(a & b)] *)
Definition meets (a b : gset (option string)) : bool :=
  bool_decide (a ∩ b ≠ ∅).

(** The loop that fills [left_t] and [right_t]: what one grouped value
    adds to each. *)
Definition classify (left_r right_r : gset (option string)) (value : record)
  : list tuple * list tuple :=
  let '(rel, tup) := value in
  if bool_decide (Some rel ∈ left_r) then ([tup], [])
  else if bool_decide (Some rel ∈ right_r) then ([], [tup])
  else
    let prefixes := key_prefixes tup in
    (if meets prefixes left_r then [tup] else [],
     if meets prefixes right_r then [tup] else []).

Definition candidates (left_r right_r : gset (option string))
    (values : list record) : list tuple * list tuple :=
  (concat (map (fun v => fst (classify left_r right_r v)) values),
   concat (map (fun v => snd (classify left_r right_r v)) values)).

(** [next(iter(left_r), "joined")], as the writer prints it.  When the
    set has more than one element, the one Python takes first depends on
    the hashes of the strings; [elements] stands for that order, and what
    is proved of the label holds for every order. *)
Definition out_rel (left_r : gset (option string)) : string :=
  match elements left_r with
  | [] => "joined"
  | Some r :: _ => r
  | None :: _ => py_str VNone
  end.

(** the two nested loops over [left_t] and [right_t]; [seen] as in
    [dedup] *)
Fixpoint join_pairs (cond : valexpr) (rel : string) (seen : list tuple)
    (pairs : list (tuple * tuple)) : result (list record) :=
  match pairs with
  | [] => Ok []
  | (l, r) :: pairs' =>
      let merged := Dict.merge l r in
      b ← holds cond merged;
      let s := Dict.sort_keys merged in
      if (b : bool) && negb (bool_decide (s ∈ seen)) then
        rest ← join_pairs cond rel (s :: seen) pairs';
        Ok ((rel, s) :: rest)
      else join_pairs cond rel seen pairs'
  end.

(** [raquery] is the parsed query string of the task, a [Join]. *)
Definition JoinTask_reducer (left right : node) (cond : valexpr)
    (key : string) (values : list record) : result (list record) :=
  let left_r := rels left in
  let right_r := rels right in
  let '(left_t, right_t) := candidates left_r right_r values in
  match left_t, right_t with
  | [], _ | _, [] => Ok []
  | _, _ =>
      join_pairs cond (out_rel left_r) []
        (l ← left_t; r ← right_t; [(l, r)])
  end.

(** the whole job of a JoinTask: its input is the output of both the
    tasks it requires, and the shuffle groups the pairs of the mapper by
    the text of their key *)
Definition JoinTask_job (left right : node) (cond : valexpr)
    (lines : list record) : result (list record) :=
  kvs ← concat_mapM (JoinTask_mapper cond) lines;
  Runner.reduce_phase (JoinTask_reducer left right cond)
    (map (fun kv => (key_text (fst kv), snd kv)) kvs).

(** the jobs of the tasks that have no reducer, and of ProjectTask *)
Definition SelectTask_job (cond : valexpr) (lines : list record)
  : result (list record) :=
  concat_mapM (SelectTask_mapper cond) lines.

Definition RenameTask_job (relname : option string) (lines : list record)
  : result (list record) :=
  concat_mapM (RenameTask_mapper relname) lines.

Definition ProjectTask_job (attrs : list attrref) (lines : list record)
  : result (list record) :=
  kvs ← concat_mapM (ProjectTask_mapper attrs) lines;
  Runner.reduce_phase ProjectTask_reducer kvs.

(** *** A chain, fused and unfused

    Unfused, every operator of the run is a task of its own that reads
    what the task below it wrote; [ops] lists them innermost first.
    ProjectTask writes its keys, which are sorted JSON texts. *)
Definition run_stage (op : operation) (lines : list record)
  : result (list record) :=
  match op with
  | OpSelect cond => SelectTask_job cond lines
  | OpProject attrs => ProjectTask_job attrs lines
  | OpRename relname _ => RenameTask_job relname lines
  end.

Fixpoint run_unfused (ops : list operation) (lines : list record)
  : result (list record) :=
  match ops with
  | [] => Ok lines
  | op :: ops' => out ← run_stage op lines; run_unfused ops' out
  end.

(** Fused, the ChainedTask made for the folded query runs the
    operations it reads back from its query string. *)
Definition run_fused (querystring : node) (lines : list record)
  : result (list (string * option tuple)) :=
  ops ← ChainedTask_operations querystring;
  ChainedTask_job ops lines.

End Ra2mr.

(** * Properties *)

(** a decidable closed proposition, settled by evaluation *)
Ltac by_compute := apply (bool_decide_unpack _); vm_compute; exact I.

(** ** Dictionaries *)

Section DictFacts.
Context {V : Type}.
Implicit Types (d : Dict.dict V) (k : string) (v : V).

Lemma get_None_iff k d : Dict.get k d = None <-> k ∉ d.*1.
Proof.
  induction d as [|[k' v'] d IH]; simpl.
  - split; [intros _; apply not_elem_of_nil | done].
  - destruct (String.eqb_spec k' k) as [->|Hne].
    + split; [done | intros H; exfalso; apply H; left].
    + rewrite IH, not_elem_of_cons. split; [by intros ? | by intros [_ ?]].
Qed.

Lemma get_Some_elem k v d :
  NoDup d.*1 -> (k, v) ∈ d -> Dict.get k d = Some v.
Proof.
  induction d as [|[k' v'] d IH]; simpl; intros Hnd Hin.
  - by apply elem_of_nil in Hin.
  - apply NoDup_cons in Hnd as [Hk' Hnd].
    apply elem_of_cons in Hin as [Heq|Hin].
    + inversion Heq; subst. by rewrite String.eqb_refl.
    + destruct (String.eqb_spec k' k) as [->|Hne]; [|by apply IH].
      exfalso. apply Hk'. apply list_elem_of_fmap. by exists (k, v).
Qed.

Lemma find_key_first (p : string -> bool) d pre k v post :
  d = pre ++ (k, v) :: post ->
  p k = true ->
  Forall (fun kv => p kv.1 = false) pre ->
  Dict.find_key p d = Some (k, v).
Proof.
  intros -> Hk Hpre. induction Hpre as [|[k' v'] pre Hk' _ IH]; simpl in *.
  - by rewrite Hk.
  - by rewrite Hk'.
Qed.

Lemma find_key_None (p : string -> bool) d :
  Forall (fun kv => p kv.1 = false) d -> Dict.find_key p d = None.
Proof.
  induction 1 as [|[k v] d Hk _ IH]; simpl in *; [done|]. by rewrite Hk.
Qed.

Lemma find_key_Some (p : string -> bool) d k v :
  Dict.find_key p d = Some (k, v) -> (k, v) ∈ d /\ p k = true.
Proof.
  induction d as [|[k' v'] d IH]; simpl; [done|].
  destruct (p k') eqn:Hp.
  - intros [= -> ->]. split; [left | done].
  - intros H. destruct (IH H). split; [by right | done].
Qed.

End DictFacts.

(** ** Attribute resolution (C9) *)

Section Resolution.
Import Eval.

(** Resolution as the specification words it: the value at the exact
    qualified key; otherwise the value of the unique key whose
    unqualified suffix matches; otherwise unresolved. *)
Definition resolve_unique (a : attrref) (tup : tuple) : option value :=
  match Dict.get (str_attr a) tup with
  | Some v => Some v
  | None =>
      match filter (fun kv => Str.suffix_match (Str.last_component (str_attr a)) kv.1 = true) tup with
      | [(_, v)] => Some v
      | _ => None
      end
  end.

Definition two_ids : tuple := [("A.id", VInt 1); ("B.id", VInt 2)].

(** C9, as stated, fails: with two keys that match by suffix no key is
    the unique match, so the attribute is unresolved by the stated
    precedence, yet [lookup] answers with the value of the first. *)
Lemma lookup_two_suffix_matches :
  resolve_unique (AttrRefOf None "id") two_ids = None /\
  lookup (AttrRefOf None "id") two_ids = VInt 1 /\
  lookup (AttrRefOf None "id") two_ids
    <> default VNone (resolve_unique (AttrRefOf None "id") two_ids).
Proof. vm_compute. repeat split; congruence. Qed.

(** C9, amended.  On a tuple (a dictionary: no key twice), [lookup]
    - answers the value stored under the exact name [str(a)] when that
      key is present;
    - otherwise answers the value of the first key, in the order of the
      tuple, that matches the unqualified suffix of the name, which is the
      unique such key when there is only one;
    - otherwise answers [None]. *)
Theorem lookup_precedence (a : attrref) (tup : tuple) :
  NoDup tup.*1 ->
  let name := str_attr a in
  let matches k := Str.suffix_match (Str.last_component name) k = true in
  (forall v, (name, v) ∈ tup -> lookup a tup = v) /\
  (name ∉ tup.*1 ->
   forall pre k v post,
     tup = pre ++ (k, v) :: post -> matches k ->
     Forall (fun kv => ~ matches kv.1) pre ->
     lookup a tup = v) /\
  (name ∉ tup.*1 ->
   forall k v,
     (k, v) ∈ tup -> matches k ->
     (forall k', k' ∈ tup.*1 -> matches k' -> k' = k) ->
     lookup a tup = v) /\
  (name ∉ tup.*1 ->
   (forall k, k ∈ tup.*1 -> ~ matches k) ->
   lookup a tup = VNone).
Proof.
  intros Hnd name matches.
  assert (Hfirst : name ∉ tup.*1 -> forall pre k v post,
            tup = pre ++ (k, v) :: post -> matches k ->
            Forall (fun kv => ~ matches kv.1) pre -> lookup a tup = v).
  { intros Hno pre k v post Htup Hk Hpre. unfold lookup. fold name.
    apply get_None_iff in Hno. rewrite Hno.
    erewrite find_key_first; [done | exact Htup | exact Hk |].
    eapply Forall_impl; [exact Hpre|]. intros kv H. simpl in H.
    unfold matches in H. by destruct (Str.suffix_match _ _). }
  split; [|split; [exact Hfirst | split]].
  - intros v Hin. unfold lookup. fold name.
    by rewrite (get_Some_elem _ _ _ Hnd Hin).
  - intros Hno k v Hin Hk Huniq.
    apply list_elem_of_split in Hin as (pre & post & Htup).
    apply (Hfirst Hno pre k v post Htup Hk).
    apply Forall_forall. intros [k' v'] Hin' Hm. simpl in Hm.
    assert (k' = k) as ->.
    { apply Huniq; [|done]. rewrite Htup, fmap_app.
      apply elem_of_app. left. apply list_elem_of_fmap. by exists (k', v'). }
    rewrite Htup, fmap_app in Hnd. simpl in Hnd.
    apply NoDup_app in Hnd as (_ & Hdisj & _).
    apply (Hdisj k); [|left].
    apply list_elem_of_fmap. by exists (k, v').
  - intros Hno Hnone. unfold lookup. fold name.
    apply get_None_iff in Hno. rewrite Hno.
    rewrite find_key_None; [done|].
    apply Forall_forall. intros [k v] Hin. simpl.
    specialize (Hnone k). unfold matches in Hnone.
    destruct (Str.suffix_match _ _) eqn:E; [|done].
    exfalso. apply Hnone; [|done]. apply list_elem_of_fmap. by exists (k, v).
Qed.

Lemma lookup_precedence_witness :
  lookup (AttrRefOf (Some "B") "id") two_ids = VInt 2 /\
  lookup (AttrRefOf (Some "C") "id") two_ids = VInt 1 /\
  lookup (AttrRefOf (Some "C") "name") two_ids = VNone.
Proof.
  assert (Hnd : NoDup two_ids.*1) by by_compute.
  split; [|split].
  - destruct (lookup_precedence (AttrRefOf (Some "B") "id") two_ids Hnd)
      as (Hexact & _).
    apply Hexact. by_compute.
  - destruct (lookup_precedence (AttrRefOf (Some "C") "id") two_ids Hnd)
      as (_ & Hfirst & _).
    apply (fun H => Hfirst H [] "A.id" (VInt 1) [("B.id", VInt 2)]).
    + by_compute.
    + reflexivity.
    + reflexivity.
    + constructor.
  - destruct (lookup_precedence (AttrRefOf (Some "C") "name") two_ids Hnd)
      as (_ & _ & _ & Hnone).
    apply Hnone; [by_compute|].
    intros k Hk.
    assert (Hall : Forall (fun k => ~ Str.suffix_match "name" k = true) two_ids.*1)
      by by_compute.
    exact (proj1 (Forall_forall _ _) Hall k Hk).
Defined.

End Resolution.

(** ** The classification of the join reducer (C10) *)

Section JoinClassification.
Import Ra2mr.

Lemma elem_of_concat {A} (x : A) (ls : list (list A)) :
  x ∈ concat ls <-> exists l, l ∈ ls /\ x ∈ l.
Proof.
  induction ls as [|l0 ls IH]; simpl.
  - split; [intros H; by apply elem_of_nil in H|].
    intros (l & H & _). by apply elem_of_nil in H.
  - rewrite elem_of_app, IH. split.
    + intros [H|(l & Hl & Hx)]; [exists l0; split; [left|done]|].
      exists l. split; [by right | done].
    + intros (l & Hl & Hx). apply elem_of_cons in Hl as [->|Hl]; [by left|].
      right. by exists l.
Qed.

Lemma candidates_left left_r right_r (values : list record) v t :
  v ∈ values -> t ∈ (classify left_r right_r v).1 ->
  t ∈ (candidates left_r right_r values).1.
Proof.
  intros Hv Ht. unfold candidates. simpl.
  apply elem_of_concat. eexists. split; [|exact Ht].
  apply list_elem_of_fmap. by exists v.
Qed.

Lemma candidates_right left_r right_r (values : list record) v t :
  v ∈ values -> t ∈ (classify left_r right_r v).2 ->
  t ∈ (candidates left_r right_r values).2.
Proof.
  intros Hv Ht. unfold candidates. simpl.
  apply elem_of_concat. eexists. split; [|exact Ht].
  apply list_elem_of_fmap. by exists v.
Qed.

(** C10.  A grouped record whose label is in neither branch's set of
    relation names and whose key prefixes meet both sets is put on both
    candidate lists, so the reducer pairs the tuple with itself (among
    others) in the cross product of the group. *)
Theorem join_reducer_ambiguous_record_on_both_sides
    (left right : node) (values : list record) (rel : string) (tup : tuple) :
  (rel, tup) ∈ values ->
  Some rel ∉ rels left ->
  Some rel ∉ rels right ->
  key_prefixes tup ∩ rels left ≠ ∅ ->
  key_prefixes tup ∩ rels right ≠ ∅ ->
  let left_t := (candidates (rels left) (rels right) values).1 in
  let right_t := (candidates (rels left) (rels right) values).2 in
  classify (rels left) (rels right) (rel, tup) = ([tup], [tup]) /\
  tup ∈ left_t /\ tup ∈ right_t /\
  (tup, tup) ∈ (l ← left_t; r ← right_t; [(l, r)]).
Proof.
  intros Hin Hl Hr Hpl Hpr left_t right_t.
  assert (Hc : classify (rels left) (rels right) (rel, tup) = ([tup], [tup])).
  { unfold classify, meets.
    rewrite (bool_decide_eq_false_2 _ Hl), (bool_decide_eq_false_2 _ Hr).
    by rewrite (bool_decide_eq_true_2 _ Hpl), (bool_decide_eq_true_2 _ Hpr). }
  assert (HL : tup ∈ left_t).
  { eapply candidates_left; [exact Hin|]. rewrite Hc. simpl. left. }
  assert (HR : tup ∈ right_t).
  { eapply candidates_right; [exact Hin|]. rewrite Hc. simpl. left. }
  repeat split; try done.
  apply list_elem_of_bind. exists tup. split; [|exact HL].
  apply list_elem_of_bind. exists tup. split; [left | exact HR].
Qed.

Definition mixed_record : record := ("joined", [("A.x", VInt 1); ("B.y", VInt 1)]).

Lemma join_reducer_ambiguous_record_witness :
  let left_t := (candidates (rels (RelRef "A")) (rels (RelRef "B")) [mixed_record]).1 in
  let right_t := (candidates (rels (RelRef "A")) (rels (RelRef "B")) [mixed_record]).2 in
  classify (rels (RelRef "A")) (rels (RelRef "B")) mixed_record
    = ([mixed_record.2], [mixed_record.2]) /\
  mixed_record.2 ∈ left_t /\ mixed_record.2 ∈ right_t /\
  (mixed_record.2, mixed_record.2) ∈ (l ← left_t; r ← right_t; [(l, r)]).
Proof.
  apply (join_reducer_ambiguous_record_on_both_sides
           (RelRef "A") (RelRef "B") [mixed_record] "joined" mixed_record.2);
    by_compute.
Defined.

End JoinClassification.

(** ** Rename (C7) *)

Section RenameFacts.
Import Ra2mr.

Lemma set_keys {V} (k : string) (v : V) (d : Dict.dict V) (k' : string) :
  k' ∈ (Dict.set k v d).*1 <-> k' = k \/ k' ∈ d.*1.
Proof.
  induction d as [|[k0 v0] d IH]; simpl.
  - rewrite list_elem_of_singleton. split; [by left | intros [?|H]; [done|]].
    by apply elem_of_nil in H.
  - destruct (String.eqb_spec k0 k) as [->|Hne]; simpl.
    + rewrite !elem_of_cons. tauto.
    + rewrite !elem_of_cons, IH. tauto.
Qed.

Lemma rename_keys_acc (new_name : string) (tup acc : tuple) (k' : string) :
  k' ∈ (fold_left
          (fun renamed kv =>
             Dict.set (new_name +:+ "." +:+ Str.split1_last kv.1) kv.2 renamed)
          tup acc).*1
  <-> k' ∈ acc.*1 \/
      exists k, k ∈ tup.*1 /\ k' = new_name +:+ "." +:+ Str.split1_last k.
Proof.
  revert acc. induction tup as [|[k v] tup IH]; intros acc; simpl.
  - split; [by left | intros [?|(k & Hk & _)]; [done|]].
    by apply elem_of_nil in Hk.
  - rewrite IH, set_keys. split.
    + intros [[->|H]|(k0 & Hk0 & ->)].
      * right. exists k. split; [left | done].
      * by left.
      * right. exists k0. split; [by right | done].
    + intros [H|(k0 & Hk0 & ->)]; [left; by right|].
      apply elem_of_cons in Hk0 as [->|Hk0]; [left; by left|].
      right. by exists k0.
Qed.

(** With an alias, the keys [RenameTask.mapper] writes are the keys of
    the input, each with everything up to its first dot replaced by the
    alias, and the label is the alias; the rename branch of
    [ChainedTask.mapper] does the same. *)
Lemma rename_with_alias (new_name relation : string) (tup : tuple)
    (attrnames : attrspec) :
  RenameTask_mapper (Some new_name) (relation, tup)
    = Ok [(new_name, rename_keys new_name tup)] /\
  apply_operation (OpRename (Some new_name) attrnames) (relation, tup)
    = Ok (Some (new_name, rename_keys new_name tup)) /\
  forall k', k' ∈ (rename_keys new_name tup).*1 <->
             exists k, k ∈ tup.*1 /\ k' = new_name +:+ "." +:+ Str.split1_last k.
Proof.
  repeat split; unfold rename_keys.
  - intros H. apply rename_keys_acc in H as [H|H]; [|done].
    by apply elem_of_nil in H.
  - intros H. apply rename_keys_acc. by right.
Qed.

(** C7 at the failing input: a rename without alias.  On every record
    with a tuple that is not empty [RenameTask.mapper] raises a
    [TypeError] where the rename branch of [ChainedTask.mapper] passes
    the record through unchanged. *)
Theorem RenameTask_mapper_without_alias
    (relation k : string) (v : value) (rest : tuple) (attrnames : attrspec) :
  RenameTask_mapper None (relation, (k, v) :: rest) = Raise TypeError /\
  apply_operation (OpRename None attrnames) (relation, (k, v) :: rest)
    = Ok (Some (relation, (k, v) :: rest)).
Proof. split; reflexivity. Qed.

End RenameFacts.

(** ** The empty placeholder of ChainedTask (C3) *)

Section Placeholder.
Import Ra2mr.

Lemma map_phase_all_dropped ops (lines : list record) touched :
  (forall line, line ∈ lines -> apply_operations ops line = Ok None) ->
  ChainedTask_map_phase ops touched lines
  = Ok (if touched then []
        else match lines with [] => [] | _ :: _ => [(touch_key, None)] end).
Proof.
  revert touched. induction lines as [|line lines IH]; intros touched Hall.
  - by destruct touched.
  - simpl. rewrite (Hall line) by left. simpl.
    rewrite (IH true) by (intros l Hl; apply Hall; by right).
    by destruct touched.
Qed.

(** The shuffle never hands a reducer an empty group. *)
Lemma add_to_group_nonempty {K V} `{EqDecision K} (k : K) (v : V) gs :
  Forall (fun g => g.2 <> []) gs ->
  Forall (fun g => g.2 <> []) (Runner.add_to_group k v gs).
Proof.
  induction gs as [|[k' vs] gs IH]; intros Hgs; simpl.
  - by repeat constructor.
  - apply Forall_cons in Hgs as [Hg Hgs].
    destruct (decide (k' = k)).
    + constructor; [simpl; by destruct vs | exact Hgs].
    + constructor; [exact Hg | by apply IH].
Qed.

Lemma shuffle_groups_nonempty {K V} `{EqDecision K} (kvs : list (K * V)) :
  Forall (fun g => g.2 <> []) (Runner.shuffle kvs).
Proof.
  unfold Runner.shuffle.
  assert (H0 : Forall (fun g : K * list V => g.2 <> []) []) by constructor.
  revert H0. generalize (@nil (K * list V)).
  induction kvs as [|kv kvs IH]; intros gs Hgs; simpl; [done|].
  apply IH. by apply add_to_group_nonempty.
Qed.

(** On a group that is not empty the reducer never writes the
    placeholder record: it is written only for an empty group, which
    the shuffle never forms. *)
Lemma ChainedTask_reducer_placeholder key (values : list (option tuple)) :
  key <> touch_key ->
  (values = [] -> ChainedTask_reducer key values = Ok [(empty_key, Some [])]) /\
  (values <> [] -> exists v out,
      ChainedTask_reducer key values = Ok ((key, v) :: map (fun v => (key, v)) out)).
Proof.
  intros Hk. unfold ChainedTask_reducer.
  destruct (String.eqb_spec key touch_key) as [|_]; [done|].
  split.
  - by intros ->.
  - destruct values as [|v values]; [done|]. intros _. simpl.
    destruct (decide (v ∈ [])) as [H|_]; [by apply elem_of_nil in H|].
    exists v, (dedup [v] values). simpl. by rewrite app_nil_r.
Qed.

(** C3 at the failing inputs: when every input record is dropped by a
    select of the chain, the job of the ChainedTask writes no record at
    all.  The only pair of the map phase is the touch pair, and the
    reducer returns at once on the touch key. *)
Theorem ChainedTask_job_all_dropped ops (lines : list record) :
  (forall line, line ∈ lines -> apply_operations ops line = Ok None) ->
  ChainedTask_job ops lines = Ok [].
Proof.
  intros Hall. unfold ChainedTask_job.
  rewrite (map_phase_all_dropped _ _ false Hall).
  destruct lines; reflexivity.
Qed.

Definition select_id_3 : operation :=
  OpSelect (ValExprBinaryOp (AttrRef (AttrRefOf None "id")) EQ (RANumber "3")).

Definition person_rows : list record :=
  [("Person", [("Person.id", VInt 1); ("Person.name", VStr "Ana")]);
   ("Person", [("Person.id", VInt 2); ("Person.name", VStr "Bob")])].

Lemma ChainedTask_job_all_dropped_witness :
  ChainedTask_job [select_id_3; OpProject [AttrRefOf None "name"]] person_rows
  = Ok [].
Proof.
  apply (ChainedTask_job_all_dropped
           [select_id_3; OpProject [AttrRefOf None "name"]] person_rows).
  intros line Hline.
  assert (Hall : Forall (fun line =>
            apply_operations [select_id_3; OpProject [AttrRefOf None "name"]] line
            = Ok None) person_rows).
  { repeat constructor. }
  exact (proj1 (Forall_forall _ _) Hall line Hline).
Defined.

End Placeholder.

(** ** The equality join (C1) *)

Section JoinReference.
Import Eval Ra2mr.

(** The reference output of the specification:
    [{merge(l, r) : l ∈ L, r ∈ R, C(merge(l, r))}]. *)
Definition join_reference (cond : valexpr) (L R : list tuple)
  : result (list tuple) :=
  concat_mapM
    (fun lr =>
       let merged := Dict.merge lr.1 lr.2 in
       b ← holds cond merged;
       Ok (if (b : bool) then [merged] else []))
    (l ← L; r ← R; [(l, r)]).

Definition dept_rows : list record :=
  [("Dept", [("Dept.id", VInt 10); ("Dept.pid", VInt 1)]);
   ("Dept", [("Dept.id", VInt 20); ("Dept.pid", VInt 2)])].

Definition person_id_is_dept_pid : valexpr :=
  ValExprBinaryOp (AttrRef (AttrRefOf (Some "Person") "id")) EQ
                  (AttrRef (AttrRefOf (Some "Dept") "pid")).

(** C1 at the failing input, the scenario of the specification:
    Person rows (1, Ana), (2, Bob), Dept rows (10, 1), (20, 2) and the
    condition [Person.id = Dept.pid].  The reference output has the two
    merged rows; the job writes nothing.  In the mapper
    [lookup(Person.id, tup)] on a Dept tuple finds [Dept.id] by its
    suffix, so the Dept rows are sent to the keys 10 and 20 and the
    Person rows to the keys 1 and 2: no group has both sides. *)
Theorem JoinTask_job_misses_matching_rows :
  concat_mapM (JoinTask_mapper person_id_is_dept_pid) (person_rows ++ dept_rows)
  = Ok [(KeyOne "1", ("Person", [("Person.id", VInt 1); ("Person.name", VStr "Ana")]));
        (KeyOne "2", ("Person", [("Person.id", VInt 2); ("Person.name", VStr "Bob")]));
        (KeyOne "10", ("Dept", [("Dept.id", VInt 10); ("Dept.pid", VInt 1)]));
        (KeyOne "20", ("Dept", [("Dept.id", VInt 20); ("Dept.pid", VInt 2)]))] /\
  JoinTask_job (RelRef "Person") (RelRef "Dept") person_id_is_dept_pid
               (person_rows ++ dept_rows)
  = Ok [] /\
  join_reference person_id_is_dept_pid (map snd person_rows) (map snd dept_rows)
  = Ok [[("Person.id", VInt 1); ("Person.name", VStr "Ana");
         ("Dept.id", VInt 10); ("Dept.pid", VInt 1)];
        [("Person.id", VInt 2); ("Person.name", VStr "Bob");
         ("Dept.id", VInt 20); ("Dept.pid", VInt 2)]].
Proof. repeat split; vm_compute; reflexivity. Qed.

End JoinReference.

(** ** A chain, fused and unfused (C2) *)

Section ChainFolding.
Import Eval Ra2mr.

Definition id_is_1 : valexpr :=
  ValExprBinaryOp (AttrRef (AttrRefOf None "id")) EQ (RANumber "1").

(** [\project_{name} \select_{id = 1} Person] *)
Definition name_of_person_1 : node :=
  Project [AttrRefOf None "name"] (Select id_is_1 (RelRef "Person")).

Definition bare_person_rows : list record :=
  [("Person", [("id", VInt 1); ("name", VStr "Ana")]);
   ("Person", [("id", VInt 2); ("name", VStr "Bob")])].

(** [\project_{B.id} \select_{A.id = 1} ...] over a record that a join
    of A and B wrote *)
Definition a_id_is_1 : valexpr :=
  ValExprBinaryOp (AttrRef (AttrRefOf (Some "A") "id")) EQ (RANumber "1").

Definition b_id_of_a_1 (input : node) : node :=
  Project [AttrRefOf (Some "B") "id"] (Select a_id_is_1 input).

Definition joined_rows : list record :=
  [("A", [("A.id", VInt 1); ("B.id", VInt 2)])].

(** C2 at two failing inputs.
    - The scenario of the specification with unqualified keys: the chain
      keeps the label [Person]; the reducer of the unfused ProjectTask
      labels the record [result].
    - A projection of [B.id] over a record with the keys [A.id] and
      [B.id]: ProjectTask.mapper takes the exact key [B.id], the project
      branch of ChainedTask.mapper takes the first key with the suffix
      [id], which is [A.id]; the labels differ as well. *)
Theorem fused_chain_differs_from_unfused :
  try_fold_chain name_of_person_1
  = ChainedOp [OpSelect id_is_1; OpProject [AttrRefOf None "name"]]
              (RelRef "Person") /\
  run_fused (try_fold_chain name_of_person_1) bare_person_rows
  = Ok [("Person", Some [("name", VStr "Ana")])] /\
  run_unfused [OpSelect id_is_1; OpProject [AttrRefOf None "name"]]
              bare_person_rows
  = Ok [("result", [("name", VStr "Ana")])] /\
  try_fold_chain (b_id_of_a_1 (RelRef "J"))
  = ChainedOp [OpSelect a_id_is_1; OpProject [AttrRefOf (Some "B") "id"]]
              (RelRef "J") /\
  run_fused (try_fold_chain (b_id_of_a_1 (RelRef "J"))) joined_rows
  = Ok [("A", Some [("A.id", VInt 1)])] /\
  run_unfused [OpSelect a_id_is_1; OpProject [AttrRefOf (Some "B") "id"]]
              joined_rows
  = Ok [("B", [("B.id", VInt 2)])].
Proof. repeat split; vm_compute; reflexivity. Qed.

End ChainFolding.

(** ** Projection push-down writes into its input (C8) *)

Section InPlace.
Import Raopt RaoptHeap.

Definition ab_schema : schema :=
  {[ "A" := {[ "x"; "z" ]}; "B" := {[ "y"; "w" ]} ]}.

Definition a_x_is_b_y : valexpr :=
  ValExprBinaryOp (AttrRef (AttrRefOf (Some "A") "x")) EQ
                  (AttrRef (AttrRefOf (Some "B") "y")).

(** [\select_{A.x = B.y} \project_{A.x} (A \join_{A.x = B.y} B)] *)
Definition select_over_project : node :=
  Select a_x_is_b_y
    (Project [AttrRefOf (Some "A") "x"]
       (Join (RelRef "A") a_x_is_b_y (RelRef "B"))).

(** C8 at the failing input.  The caller's tree is the object at
    address [root].  The rule returns that same object, and the tree it
    stands for is no longer the tree that was passed in: the recursion
    has assigned the rewritten projection to [inputs] of the select
    node. *)
Theorem rule_push_down_projections_mutates_input :
  let root := (store_tree select_over_project []).1 in
  let before := (store_tree select_over_project []).2 in
  exists after,
    rule_push_down_projections 5 root ab_schema before = Ok (root, after) /\
    read_tree 5 before root = Ok select_over_project /\
    read_tree 5 after root
    = Ok (Select a_x_is_b_y
            (Project [AttrRefOf (Some "A") "x"]
               (Join
                  (Project [AttrRefOf (Some "A") "x"; AttrRefOf None "x"]
                           (RelRef "A"))
                  a_x_is_b_y
                  (Project [AttrRefOf None "y"; AttrRefOf (Some "B") "y"]
                           (RelRef "B"))))) /\
    read_tree 5 after root <> read_tree 5 before root.
Proof.
  eexists. split; [vm_compute; reflexivity|].
  split; [vm_compute; reflexivity|].
  split; [vm_compute; reflexivity|].
  vm_compute. congruence.
Qed.

End InPlace.

(** ** Breaking up and merging selections (C4) *)

Section Selections.
Import Eval Raopt.

(** the top-level conjuncts of a condition, left to right *)
Fixpoint conjuncts (c : valexpr) : list valexpr :=
  match c with
  | ValExprBinaryOp l AND r => conjuncts l ++ conjuncts r
  | _ => [c]
  end.

Definition is_and (c : valexpr) : bool :=
  match c with ValExprBinaryOp _ AND _ => true | _ => false end.

Definition is_select (e : node) : bool :=
  match e with Select _ _ => true | _ => false end.

(** a vertical run of selections, outermost first, over [base] *)
Definition selects (cs : list valexpr) (base : node) : node :=
  foldr Select base cs.

(** the chain [((c AND c1) AND c2) ...] *)
Definition and_chain (c : valexpr) (rest : list valexpr) : valexpr :=
  fold_left (fun merged ci => ValExprBinaryOp merged AND ci) rest c.

(** the tree in which every selection is split into its conjuncts *)
Fixpoint broken_up (e : node) : node :=
  match e with
  | Select c i => selects (conjuncts c) (broken_up i)
  | Project attrs i => Project attrs (broken_up i)
  | Rename relname attrnames i => Rename relname attrnames (broken_up i)
  | Cross l r => Cross (broken_up l) (broken_up r)
  | Join l c r => Join (broken_up l) c (broken_up r)
  | _ => e
  end.

(** no selection of the tree has an [AND] at the top of its condition *)
Fixpoint no_and_select (e : node) : Prop :=
  match e with
  | Select c i => is_and c = false /\ no_and_select i
  | Project _ i | Rename _ _ i => no_and_select i
  | Cross l r | Join l _ r => no_and_select l /\ no_and_select r
  | _ => True
  end.

(** the conjuncts of the run of selections at the top of a tree, and the
    node below the run *)
Fixpoint run_conjuncts (e : node) : list valexpr :=
  match e with
  | Select c i => conjuncts c ++ run_conjuncts i
  | _ => []
  end.

Fixpoint run_base (e : node) : node :=
  match e with
  | Select _ i => run_base i
  | _ => e
  end.

Lemma conjuncts_not_and c : Forall (fun a => is_and a = false) (conjuncts c).
Proof.
  induction c as [| | |l IHl op r IHr]; simpl; try by repeat constructor.
  destruct op; try by repeat constructor.
  by apply Forall_app.
Qed.

Lemma conjuncts_leaf c : is_and c = false -> conjuncts c = [c].
Proof. destruct c as [| | |l op r]; try done. by destruct op. Qed.

Lemma conjuncts_and_count c : length (conjuncts c) = S (and_count c).
Proof.
  induction c as [| | |l IHl op r IHr]; simpl; try done.
  destruct op; try done. rewrite length_app, IHl, IHr. lia.
Qed.

Lemma conjuncts_nonempty c : exists c1 cs, conjuncts c = c1 :: cs.
Proof.
  pose proof (conjuncts_and_count c) as H.
  destruct (conjuncts c) as [|c1 cs]; [done | by exists c1, cs].
Qed.

Lemma and_count_leaf c : is_and c = false -> and_count c = O.
Proof. destruct c as [| | |l op r]; try done. by destruct op. Qed.

Lemma selects_app cs ds base : selects (cs ++ ds) base = selects cs (selects ds base).
Proof. unfold selects. apply foldr_app. Qed.

Lemma broken_up_selects cs base :
  Forall (fun a => is_and a = false) cs ->
  broken_up (selects cs base) = selects cs (broken_up base).
Proof.
  induction 1 as [|c cs Hc _ IH]; simpl; [done|].
  by rewrite (conjuncts_leaf _ Hc), IH.
Qed.

Lemma broken_up_idempotent e : broken_up (broken_up e) = broken_up e.
Proof.
  induction e; simpl; try congruence.
  rewrite broken_up_selects by apply conjuncts_not_and. congruence.
Qed.

Lemma depth_selects cs base :
  Forall (fun a => is_and a = false) cs ->
  break_up_depth (selects cs base) = (length cs + break_up_depth base)%nat.
Proof.
  induction 1 as [|c cs Hc _ IH]; simpl; [done|].
  rewrite (and_count_leaf _ Hc), IH. lia.
Qed.

Lemma depth_broken_up e : (break_up_depth (broken_up e) <= break_up_depth e)%nat.
Proof.
  induction e; simpl; try lia.
  rewrite depth_selects by apply conjuncts_not_and.
  rewrite conjuncts_and_count. lia.
Qed.

(** Enough fuel gives the result, and the result is [broken_up]. *)
Lemma rule_break_up_selections_rec_enough fuel e :
  (break_up_depth e <= fuel)%nat ->
  rule_break_up_selections_rec fuel e = Ok (broken_up e).
Proof.
  revert e. induction fuel as [|fuel IH]; intros e Hfuel.
  - destruct e; simpl in Hfuel; lia.
  - destruct e as [rel|c i|attrs i|relname attrnames i|l r|l c r|ops i];
      simpl in Hfuel; simpl; try done.
    + rewrite IH by lia. simpl.
      assert (Hleaf : is_and c = false ->
                Ok (Select c (broken_up i)) = Ok (selects (conjuncts c) (broken_up i))).
      { intros Hc. by rewrite (conjuncts_leaf _ Hc). }
      destruct c as [a|v|v|cl op cr]; try (by apply Hleaf).
      destruct op; try (by apply Hleaf).
      simpl in Hfuel.
      pose proof (depth_broken_up i) as Hd.
      rewrite IH by (simpl; lia).
      simpl. rewrite broken_up_idempotent.
      by rewrite selects_app.
    + rewrite IH by lia. done.
    + rewrite IH by lia. done.
    + rewrite !IH by lia. done.
    + rewrite !IH by lia. done.
Qed.

Lemma rule_break_up_selections_total e :
  rule_break_up_selections e = Ok (broken_up e).
Proof. by apply rule_break_up_selections_rec_enough. Qed.

Lemma no_and_select_selects cs base :
  Forall (fun a => is_and a = false) cs -> no_and_select base ->
  no_and_select (selects cs base).
Proof. induction 1; simpl; auto. Qed.

Lemma no_and_select_broken_up e : no_and_select (broken_up e).
Proof.
  induction e; simpl; auto.
  apply no_and_select_selects; [apply conjuncts_not_and | done].
Qed.

Lemma broken_up_run e :
  broken_up e = selects (run_conjuncts e) (broken_up (run_base e)).
Proof.
  induction e; simpl; try done.
  by rewrite selects_app, <- IHe.
Qed.

Lemma run_base_not_select e : is_select (run_base e) = false.
Proof. induction e; simpl; done. Qed.

Lemma broken_up_not_select e : is_select e = false -> is_select (broken_up e) = false.
Proof. by destruct e. Qed.

Lemma rule_merge_selections_not_select e :
  is_select e = false -> is_select (rule_merge_selections e) = false.
Proof. by destruct e. Qed.

Lemma collect_conditions_selects rule acc cs base :
  is_select base = false ->
  collect_conditions rule acc (selects cs base) = (acc ++ cs, rule base).
Proof.
  intros Hb. revert acc. induction cs as [|c cs IH]; intros acc; simpl.
  - rewrite app_nil_r. by destruct base.
  - rewrite IH. by rewrite <- app_assoc.
Qed.

(** [rule_merge_selections] on a run of selections over a node that is
    not a selection *)
Lemma rule_merge_selections_run c cs base :
  is_select base = false ->
  rule_merge_selections (selects (c :: cs) base)
  = Select (and_chain c cs) (rule_merge_selections base).
Proof.
  intros Hb. simpl.
  rewrite (collect_conditions_selects _ _ _ _ Hb). simpl.
  by destruct cs.
Qed.

(** the conditions of a list, all evaluated, in order *)
Fixpoint eager_all (cs : list valexpr) (tup : tuple) : result bool :=
  match cs with
  | [] => Ok true
  | c :: cs' =>
      b ← holds c tup; bs ← eager_all cs' tup; Ok (b && bs)
  end.

Lemma eager_all_app cs ds tup :
  eager_all (cs ++ ds) tup
  = (b ← eager_all cs tup; bs ← eager_all ds tup; Ok (b && bs)).
Proof.
  induction cs as [|c cs IH]; simpl.
  - by destruct (eager_all ds tup).
  - rewrite IH. destruct (holds c tup) as [b| |]; simpl; try done.
    destruct (eager_all cs tup) as [b'| |]; simpl; try done.
    destruct (eager_all ds tup) as [b''| |]; simpl; try done.
    by rewrite andb_assoc.
Qed.

Lemma holds_and l r tup :
  holds (ValExprBinaryOp l AND r) tup
  = (b ← holds l tup; bs ← holds r tup; Ok (b && bs)).
Proof.
  unfold holds. simpl.
  destruct (eval_cond l tup) as [vl| |]; simpl; try done.
  destruct (eval_cond r tup) as [vr| |]; simpl; try done.
  destruct (truthy vl) eqn:E; simpl; by rewrite ?E.
Qed.

Lemma holds_conjuncts c tup : holds c tup = eager_all (conjuncts c) tup.
Proof.
  assert (Hleaf : forall c, holds c tup = eager_all [c] tup).
  { intros c'. simpl. destruct (holds c' tup) as [b| |]; simpl; try done.
    by rewrite andb_true_r. }
  induction c as [| | |l IHl op r IHr]; try apply Hleaf.
  destruct op; try apply Hleaf.
  simpl conjuncts. by rewrite eager_all_app, holds_and, IHl, IHr.
Qed.

Lemma holds_and_chain c rest tup :
  holds (and_chain c rest) tup
  = (b ← holds c tup; bs ← eager_all rest tup; Ok (b && bs)).
Proof.
  revert c. induction rest as [|d rest IH]; intros c; simpl.
  - destruct (holds c tup) as [b| |]; simpl; try done. by rewrite andb_true_r.
  - unfold and_chain in *. simpl. rewrite IH, holds_and.
    destruct (holds c tup) as [b| |]; simpl; try done.
    destruct (holds d tup) as [b'| |]; simpl; try done.
    destruct (eager_all rest tup) as [b''| |]; simpl; try done.
    by rewrite andb_assoc.
Qed.

(** the conditions of the run of selections at the top of a tree *)
Fixpoint run_conditions (e : node) : list valexpr :=
  match e with
  | Select c i => c :: run_conditions i
  | _ => []
  end.

Lemma run_selects e : e = selects (run_conditions e) (run_base e).
Proof. induction e; simpl; congruence. Qed.

Lemma eager_all_run e tup :
  eager_all (run_conjuncts e) tup = eager_all (run_conditions e) tup.
Proof.
  induction e; simpl; try done.
  by rewrite eager_all_app, IHe, holds_conjuncts.
Qed.

(** C4.
    - Decomposition: [rule_break_up_selections] returns a tree, and no
      selection of that tree has an [AND] at the top of its condition.
    - Merge: [rule_merge_selections] turns a vertical run of selections
      over a node that is not a selection into one selection whose
      condition conjoins the conditions of the run with [AND], outermost
      first.
    - Merge after decomposition: for a tree [T] with a selection at its
      top, the result is a single selection (its input is not a
      selection) whose condition is the [AND]-chain of the top-level
      conjuncts of [T], in their order: the conjuncts of the condition of
      the top selection, followed by those of the selections directly
      below it, if any.  On every tuple that chain evaluates as the
      conditions of [T] do (all evaluated, in order); when the input of
      the top selection is not a selection, it evaluates as the condition
      of [T] does. *)
Theorem merge_after_break_up :
  (forall e, exists D,
      rule_break_up_selections e = Ok D /\ no_and_select D) /\
  (forall c cs base,
      is_select base = false ->
      rule_merge_selections (selects (c :: cs) base)
      = Select (and_chain c cs) (rule_merge_selections base) /\
      is_select (rule_merge_selections base) = false) /\
  (forall c inp, exists D c1 cs B,
      rule_break_up_selections (Select c inp) = Ok D /\
      run_conjuncts (Select c inp) = c1 :: cs /\
      rule_merge_selections D = Select (and_chain c1 cs) B /\
      is_select B = false /\
      (forall tup, holds (and_chain c1 cs) tup
                   = eager_all (run_conditions (Select c inp)) tup) /\
      (is_select inp = false ->
       c1 :: cs = conjuncts c /\
       forall tup, holds (and_chain c1 cs) tup = holds c tup)).
Proof.
  split; [|split].
  - intros e. exists (broken_up e).
    split; [apply rule_break_up_selections_total | apply no_and_select_broken_up].
  - intros c cs base Hb.
    split; [by apply rule_merge_selections_run|].
    by apply rule_merge_selections_not_select.
  - intros c inp.
    set (T := Select c inp).
    assert (Hrun : exists c1 cs, run_conjuncts T = c1 :: cs).
    { destruct (conjuncts_nonempty c) as (c1 & cs & Hc).
      exists c1, (cs ++ run_conjuncts inp). simpl. by rewrite Hc. }
    destruct Hrun as (c1 & cs & Hrun).
    assert (Hbase : is_select (broken_up (run_base T)) = false).
    { apply broken_up_not_select, run_base_not_select. }
    assert (Hall : forall tup, holds (and_chain c1 cs) tup
                               = eager_all (run_conditions T) tup).
    { intros tup. rewrite holds_and_chain, <- eager_all_run, Hrun. done. }
    exists (broken_up T), c1, cs, (rule_merge_selections (broken_up (run_base T))).
    split; [apply rule_break_up_selections_total|].
    split; [exact Hrun|].
    split; [rewrite (broken_up_run T), Hrun; by apply rule_merge_selections_run|].
    split; [by apply rule_merge_selections_not_select|].
    split; [exact Hall|].
    intros Hinp.
    assert (Hnil : run_conjuncts inp = []) by (by destruct inp).
    assert (Hnil' : run_conditions inp = []) by (by destruct inp).
    split.
    + rewrite <- Hrun. simpl. by rewrite Hnil, app_nil_r.
    + intros tup. rewrite Hall. simpl. rewrite Hnil'. simpl.
      destruct (holds c tup) as [b| |]; simpl; try done. by rewrite andb_true_r.
Qed.

Definition cond_a : valexpr :=
  ValExprBinaryOp (AttrRef (AttrRefOf None "a")) EQ (RANumber "1").
Definition cond_b : valexpr :=
  ValExprBinaryOp (AttrRef (AttrRefOf None "b")) LT (RANumber "2").
Definition cond_c : valexpr :=
  ValExprBinaryOp (AttrRef (AttrRefOf None "c")) EQ (RAString "'x'").

Lemma merge_after_break_up_witness :
  rule_merge_selections
    (selects [cond_a; cond_b; cond_c] (RelRef "R"))
  = Select (ValExprBinaryOp (ValExprBinaryOp cond_a AND cond_b) AND cond_c)
           (RelRef "R") /\
  exists D c1 cs B,
    rule_break_up_selections
      (Select (ValExprBinaryOp cond_a AND (ValExprBinaryOp cond_b AND cond_c))
              (RelRef "R")) = Ok D /\
    rule_merge_selections D = Select (and_chain c1 cs) B /\
    c1 :: cs = [cond_a; cond_b; cond_c].
Proof.
  destruct merge_after_break_up as (_ & Hmerge & Hboth).
  split.
  - apply (Hmerge cond_a [cond_b; cond_c] (RelRef "R")). reflexivity.
  - destruct (Hboth (ValExprBinaryOp cond_a AND (ValExprBinaryOp cond_b AND cond_c))
                    (RelRef "R"))
      as (D & c1 & cs & B & HD & _ & HM & _ & _ & Hleaf).
    exists D, c1, cs, B.
    split; [exact HD|]. split; [exact HM|].
    apply (Hleaf eq_refl).
Defined.

End Selections.

(** ** Pushing selections down (C5) *)

Section PushDown.
Import Raopt.
Variable dd : schema.

Lemma node_count_pos e : (1 <= node_count e)%nat.
Proof. destruct e; simpl; lia. Qed.

Lemma is_ok_Ok {A} (m : result A) : is_ok m = true -> exists a, m = Ok a.
Proof. destruct m; try done. by eexists. Qed.

Lemma extract_cross_ok l r s :
  extract_expr_attrs (Cross l r) dd = Ok s ->
  exists la ra, extract_expr_attrs l dd = Ok la /\
                extract_expr_attrs r dd = Ok ra /\ s = la ∪ ra.
Proof.
  simpl. destruct (extract_expr_attrs l dd) as [la| |]; simpl; try done.
  destruct (extract_expr_attrs r dd) as [ra| |]; simpl; try done.
  intros [= <-]. by exists la, ra.
Qed.

(** What the rule does with a selection whose rewritten input is
    [child], given the rule itself for the selections it pushes. *)
Definition push_select (rule : node -> result node) (cond : valexpr) (child : node)
  : result node :=
  match child with
  | Cross lhs rhs =>
      left_attrs ← extract_expr_attrs lhs dd;
      right_attrs ← extract_expr_attrs rhs dd;
      if is_join_condition cond left_attrs right_attrs then Ok (Select cond child)
      else if bool_decide (extract_condition_attrs cond ⊆ left_attrs) then
        l' ← rule (Select cond lhs); Ok (Cross l' rhs)
      else if bool_decide (extract_condition_attrs cond ⊆ right_attrs) then
        r' ← rule (Select cond rhs); Ok (Cross lhs r')
      else Ok (Select cond child)
  | Select child_cond (Cross lhs rhs) =>
      left_attrs ← extract_expr_attrs lhs dd;
      right_attrs ← extract_expr_attrs rhs dd;
      if negb (is_join_condition cond left_attrs right_attrs) &&
         is_join_condition child_cond left_attrs right_attrs then
        if bool_decide (extract_condition_attrs cond ⊆ left_attrs) then
          l' ← rule (Select cond lhs); Ok (Select child_cond (Cross l' rhs))
        else if bool_decide (extract_condition_attrs cond ⊆ right_attrs) then
          r' ← rule (Select cond rhs); Ok (Select child_cond (Cross lhs r'))
        else Ok (Select cond child)
      else Ok (Select cond child)
  | _ => Ok (Select cond child)
  end.

Lemma rule_push_down_selections_rec_select fuel cond input :
  rule_push_down_selections_rec (S fuel) (Select cond input) dd
  = (child ← rule_push_down_selections_rec fuel input dd;
     push_select (fun e => rule_push_down_selections_rec fuel e dd) cond child).
Proof.
  simpl. destruct (rule_push_down_selections_rec fuel input dd) as [child| |];
    simpl; try done.
  unfold push_select, can_push_down.
  repeat first
    [ done
    | progress simpl
    | match goal with
      | |- context [match ?x with _ => _ end] => destruct x
      | |- context [extract_expr_attrs ?x dd ≫= _] =>
          destruct (extract_expr_attrs x dd)
      end ].
Qed.

(** the answer of the rule on [e]: a tree with as many nodes and the
    same derivable attributes, whatever fuel at least [n] it is given *)
Definition pushed (n : nat) (e e' : node) : Prop :=
  (forall m, (n <= m)%nat -> rule_push_down_selections_rec m e dd = Ok e') /\
  node_count e' = node_count e /\
  extract_expr_attrs e' dd = extract_expr_attrs e dd.

Lemma push_select_pushed n cond child :
  (forall e, (node_count e <= n)%nat -> is_ok (extract_expr_attrs e dd) = true ->
             exists e', pushed n e e') ->
  (node_count child <= n)%nat ->
  is_ok (extract_expr_attrs child dd) = true ->
  exists e',
    (forall m, (n <= m)%nat ->
       push_select (fun e => rule_push_down_selections_rec m e dd) cond child = Ok e') /\
    node_count e' = S (node_count child) /\
    extract_expr_attrs e' dd = extract_expr_attrs child dd.
Proof.
  intros IH Hn Hok.
  assert (Hcross : forall lhs rhs base (wrap : node -> node) (extra : nat),
    (S (node_count lhs + node_count rhs) <= n)%nat ->
    (forall x, node_count (wrap x) = (extra + node_count x)%nat) ->
    (forall x, extract_expr_attrs (wrap x) dd = extract_expr_attrs x dd) ->
    forall la ra,
      extract_expr_attrs lhs dd = Ok la -> extract_expr_attrs rhs dd = Ok ra ->
      node_count base = S (node_count (wrap (Cross lhs rhs))) ->
      extract_expr_attrs base dd = Ok (la ∪ ra) ->
      exists e',
        (forall m, (n <= m)%nat ->
           (if bool_decide (extract_condition_attrs cond ⊆ la) then
              l' ← rule_push_down_selections_rec m (Select cond lhs) dd;
              Ok (wrap (Cross l' rhs))
            else if bool_decide (extract_condition_attrs cond ⊆ ra) then
              r' ← rule_push_down_selections_rec m (Select cond rhs) dd;
              Ok (wrap (Cross lhs r'))
            else Ok base) = Ok e') /\
        node_count e' = S (node_count (wrap (Cross lhs rhs))) /\
        extract_expr_attrs e' dd = Ok (la ∪ ra)).
  { intros lhs rhs base wrap extra Hsz Hwc Hwa la ra Hla Hra Hbc Hba.
    pose proof (node_count_pos lhs). pose proof (node_count_pos rhs).
    destruct (bool_decide (extract_condition_attrs cond ⊆ la)).
    - destruct (IH (Select cond lhs)) as (l' & Hl' & Hcl & Hal).
      { simpl. lia. } { simpl. by rewrite Hla. }
      exists (wrap (Cross l' rhs)). split; [|split].
      + intros m Hm. by rewrite (Hl' m Hm).
      + rewrite !Hwc. simpl in *. lia.
      + rewrite Hwa. simpl in *. by rewrite Hal, Hla, Hra.
    - destruct (bool_decide (extract_condition_attrs cond ⊆ ra)).
      + destruct (IH (Select cond rhs)) as (r' & Hr' & Hcr & Har).
        { simpl. lia. } { simpl. by rewrite Hra. }
        exists (wrap (Cross lhs r')). split; [|split].
        * intros m Hm. by rewrite (Hr' m Hm).
        * rewrite !Hwc. simpl in *. lia.
        * rewrite Hwa. simpl in *. by rewrite Hla, Har, Hra.
      + exists base. by repeat split. }
  assert (Hplain : exists e',
    (forall m : nat, (n <= m)%nat -> Ok (Select cond child) = Ok e') /\
    node_count e' = S (node_count child) /\
    extract_expr_attrs e' dd = extract_expr_attrs child dd).
  { exists (Select cond child). by repeat split. }
  destruct child as [rel|cc ci|attrs ci|rn an ci|l r|l c r|ops ci]; try exact Hplain.
  - (* a selection: case 2 when it is over a cross *)
    destruct ci as [rel|cc' ci'|attrs ci|rn an ci|l r|l c r|ops ci]; try exact Hplain.
    destruct (is_ok_Ok _ Hok) as (s & Hs).
    destruct (extract_cross_ok _ _ _ Hs) as (la & ra & Hla & Hra & ->).
    simpl push_select. rewrite Hla, Hra. simpl.
    destruct (negb _ && _); [|exact Hplain].
    destruct (Hcross l r (Select cond (Select cc (Cross l r))) (Select cc) 1%nat)
      with (la := la) (ra := ra) as (e' & He' & Hc' & Ha');
      [simpl in Hn; lia | done | done | done | done | done
      | simpl; by rewrite Hla, Hra |].
    exists e'. split; [exact He'|]. split; [exact Hc'|].
    rewrite Ha'. symmetry. exact Hs.
  - (* a cross: case 1 *)
    destruct (is_ok_Ok _ Hok) as (s & Hs).
    destruct (extract_cross_ok _ _ _ Hs) as (la & ra & Hla & Hra & ->).
    simpl push_select. rewrite Hla, Hra. simpl.
    destruct (is_join_condition cond la ra); [exact Hplain|].
    destruct (Hcross l r (Select cond (Cross l r)) (fun x => x) 0%nat)
      with (la := la) (ra := ra) as (e' & He' & Hc' & Ha');
      [simpl in Hn; lia | done | done | done | done | done
      | simpl; by rewrite Hla, Hra |].
    exists e'. split; [exact He'|]. split; [exact Hc'|].
    rewrite Ha'. symmetry. exact Hs.
Qed.

Lemma rule_push_down_selections_rec_enough n :
  forall e, (node_count e <= n)%nat -> is_ok (extract_expr_attrs e dd) = true ->
            exists e', pushed n e e'.
Proof.
  induction n as [|n IH]; intros e Hn Hok.
  { pose proof (node_count_pos e). lia. }
  assert (IH' : forall e, (node_count e <= n)%nat ->
                  is_ok (extract_expr_attrs e dd) = true ->
                  exists e', pushed n e e') by exact IH.
  assert (Hmono : forall e e', pushed n e e' -> pushed (S n) e e').
  { intros e0 e0' (H1 & H2 & H3). split; [|done]. intros m Hm. apply H1. lia. }
  destruct e as [rel|c i|attrs i|rn an i|l r|l c r|ops i]; simpl in Hn, Hok.
  - exists (RelRef rel). split; [|done]. intros [|m] Hm; [lia | done].
  - destruct (IH i) as (child & Hchild & Hcc & Hca); [lia | done |].
    destruct (push_select_pushed n c child IH') as (e' & He' & Hc' & Ha').
    { lia. } { by rewrite Hca. }
    exists e'. split; [|split].
    + intros [|m] Hm; [lia|].
      rewrite rule_push_down_selections_rec_select, Hchild by lia. simpl.
      apply He'. lia.
    + simpl. lia.
    + simpl. by rewrite Ha', Hca.
  - destruct (IH i) as (i' & Hi' & Hc & Ha); [lia | done |].
    exists (Project attrs i'). split; [|split].
    + intros [|m] Hm; [lia|]. simpl. by rewrite Hi' by lia.
    + simpl. lia.
    + done.
  - assert (Hi : is_ok (extract_expr_attrs i dd) = true).
    { by destruct (extract_expr_attrs i dd). }
    destruct (IH i) as (i' & Hi' & Hc & Ha); [lia | done |].
    exists (Rename rn an i'). split; [|split].
    + intros [|m] Hm; [lia|]. simpl. by rewrite Hi' by lia.
    + simpl. lia.
    + simpl. by rewrite Ha.
  - destruct (is_ok_Ok _ Hok) as (s & Hs).
    destruct (extract_cross_ok _ _ _ Hs) as (la & ra & Hla & Hra & ->).
    destruct (IH l) as (l' & Hl' & Hcl & Hal); [lia | by rewrite Hla |].
    destruct (IH r) as (r' & Hr' & Hcr & Har); [lia | by rewrite Hra |].
    exists (Cross l' r'). split; [|split].
    + intros [|m] Hm; [lia|]. simpl. by rewrite Hl', Hr' by lia.
    + simpl. lia.
    + simpl. by rewrite Hal, Har.
  - destruct (is_ok_Ok _ Hok) as (s & Hs).
    destruct (extract_cross_ok _ _ _ Hs) as (la & ra & Hla & Hra & ->).
    destruct (IH l) as (l' & Hl' & Hcl & Hal); [lia | by rewrite Hla |].
    destruct (IH r) as (r' & Hr' & Hcr & Har); [lia | by rewrite Hra |].
    exists (Join l' c r'). split; [|split].
    + intros [|m] Hm; [lia|]. simpl. by rewrite Hl', Hr' by lia.
    + simpl. lia.
    + simpl. by rewrite Hal, Har.
  - exists (ChainedOp ops i). split; [|done]. intros [|m] Hm; [lia | done].
Qed.

Lemma rule_push_down_selections_total e :
  is_ok (extract_expr_attrs e dd) = true ->
  exists e', pushed (node_count e) e e' /\ rule_push_down_selections e dd = Ok e'.
Proof.
  intros Hok.
  destruct (rule_push_down_selections_rec_enough (node_count e) e) as (e' & He');
    [lia | done |].
  exists e'. split; [done|]. by apply He'.
Qed.


End PushDown.

Section PushDownScenario.
Import Raopt.





End PushDownScenario.

(** ** Stage counts and stage indices (C6) *)

Section Stages.
Import Ra2mr.

(** a tree as the parser and the optimizer hand it to the task
    compiler: nodes of [radb], and no cross product *)
Fixpoint plain (q : node) : bool :=
  match q with
  | RelRef _ => true
  | Select _ i | Project _ i | Rename _ _ i => plain i
  | Join l _ r => plain l && plain r
  | Cross _ _ | ChainedOp _ _ => false
  end.

Definition is_unary (q : node) : bool :=
  match q with
  | Select _ _ | Project _ _ | Rename _ _ _ => true
  | _ => false
  end.

(** a tree of [radb] nodes: no [ChainedOp] yet *)
Fixpoint radb_tree (q : node) : bool :=
  match q with
  | RelRef _ => true
  | Select _ i | Project _ i | Rename _ _ i => radb_tree i
  | Cross l r | Join l _ r => radb_tree l && radb_tree r
  | ChainedOp _ _ => false
  end.

(** a cross product somewhere in the tree, also below a [ChainedOp] *)
Fixpoint has_cross (q : node) : bool :=
  match q with
  | RelRef _ => false
  | Select _ i | Project _ i | Rename _ _ i | ChainedOp _ i => has_cross i
  | Cross _ _ => true
  | Join l _ r => has_cross l || has_cross r
  end.

(** selections and projections over a relation *)
Fixpoint select_project_chain (q : node) : bool :=
  match q with
  | RelRef _ => true
  | Select _ i | Project _ i => select_project_chain i
  | _ => false
  end.

(** The trees whose folded form is stored as a text that the parser
    reads back: every run of two or more unary operators consists of
    selections and projections and stands on a relation. *)
Fixpoint chains_on_relations (q : node) : bool :=
  match q with
  | RelRef _ => true
  | Select _ i | Project _ i =>
      if is_unary i then select_project_chain i else chains_on_relations i
  | Rename _ _ i => negb (is_unary i) && chains_on_relations i
  | Cross l r | Join l _ r => chains_on_relations l && chains_on_relations r
  | ChainedOp _ _ => false
  end.

Lemma plain_radb_tree q : plain q = radb_tree q && negb (has_cross q).
Proof.
  induction q; simpl; try done.
  - by rewrite andb_false_r.
  - rewrite IHq1, IHq2. destruct (radb_tree q1), (radb_tree q2), (has_cross q1),
      (has_cross q2); done.
Qed.

Lemma reparse_radb_tree q : radb_tree q = true -> reparse q = Ok q.
Proof.
  induction q; simpl; intros H; try done; try (by rewrite IHq);
    apply andb_prop in H as [H1 H2]; by rewrite IHq1, IHq2.
Qed.

Lemma reparse_plain q : plain q = true -> reparse q = Ok q.
Proof.
  rewrite plain_radb_tree. intros H. apply andb_prop in H as [H _].
  by apply reparse_radb_tree.
Qed.

Lemma count_steps_plain q :
  plain q = true -> count_steps q = Ok (Z.of_nat (query_size q)).
Proof.
  induction q; simpl; intros H; try done;
    try (rewrite IHq by done; simpl; f_equal; lia).
  apply andb_prop in H as [H1 H2]. rewrite IHq1, IHq2 by done. simpl.
  f_equal. lia.
Qed.

Lemma collect_chain_spec acc q :
  exists ops cur,
    collect_chain acc q = (acc ++ ops, cur) /\
    q = foldr unfold_operation cur ops /\
    is_unary cur = false /\
    query_size q = (length ops + query_size cur)%nat /\
    (plain q = true -> plain cur = true).
Proof.
  revert acc.
  induction q as [rel|c i IH|a i IH|rn an i IH|l _ r _|l _ c r _|ops i _];
    intros acc; simpl.
  - exists [], (RelRef rel). by rewrite app_nil_r.
  - destruct (IH (acc ++ [OpSelect c])) as (ops & cur & H1 & H2 & H3 & H4 & H5).
    exists (OpSelect c :: ops), cur. rewrite H1, <- app_assoc. simpl.
    repeat split; try done; [congruence | lia].
  - destruct (IH (acc ++ [OpProject a])) as (ops & cur & H1 & H2 & H3 & H4 & H5).
    exists (OpProject a :: ops), cur. rewrite H1, <- app_assoc. simpl.
    repeat split; try done; [congruence | lia].
  - destruct (IH (acc ++ [OpRename rn an])) as (ops & cur & H1 & H2 & H3 & H4 & H5).
    exists (OpRename rn an :: ops), cur. rewrite H1, <- app_assoc. simpl.
    repeat split; try done; [congruence | lia].
  - exists [], (Cross l r). by rewrite app_nil_r.
  - exists [], (Join l c r). by rewrite app_nil_r.
  - exists [], (ChainedOp ops i). by rewrite app_nil_r.
Qed.


Lemma collect_chain_has_cross acc q ops cur :
  collect_chain acc q = (ops, cur) -> has_cross cur = has_cross q.
Proof.
  revert acc.
  induction q as [rel|c i IH|a i IH|rn an i IH|l _ r _|l _ c r _|ops' i _];
    intros acc; simpl; intros Hc;
    try (by apply (IH _ Hc)); by inversion Hc; subst.
Qed.

Lemma collect_chain_not_unary acc q :
  is_unary q = false -> collect_chain acc q = (acc, q).
Proof. by destruct q. Qed.

Lemma select_project_chain_collect acc q :
  select_project_chain q = true ->
  exists ops rel,
    collect_chain acc q = (acc ++ ops, RelRef rel) /\
    forallb written_as_radb ops = true /\
    q = foldr unfold_operation (RelRef rel) ops.
Proof.
  revert acc.
  induction q as [rel|c i IH|a i IH|rn an i IH|l _ r _|l _ c r _|ops' i _];
    intros acc; simpl; intros H; try done.
  - exists [], rel. by rewrite app_nil_r.
  - destruct (IH (acc ++ [OpSelect c]) H) as (ops & rel & H1 & H2 & H3).
    exists (OpSelect c :: ops), rel. rewrite H1, <- app_assoc. simpl.
    repeat split; [done|congruence].
  - destruct (IH (acc ++ [OpProject a]) H) as (ops & rel & H1 & H2 & H3).
    exists (OpProject a :: ops), rel. rewrite H1, <- app_assoc. simpl.
    repeat split; [done|congruence].
Qed.


(** a run of fewer than two operators: the input of a unary node is not
    unary *)
Lemma short_run q ops cur :
  collect_chain [] q = (ops, cur) -> ~ (2 <= length ops)%nat ->
  match q with
  | Select _ i | Project _ i | Rename _ _ i => is_unary i = false
  | _ => True
  end.
Proof.
  intros Hc Hlen.
  destruct q as [rel|c i|a i|rn an i|l r|l c r|ops' i]; try done; simpl in Hc;
    match type of Hc with
    | collect_chain ?acc i = _ =>
        destruct (collect_chain_spec acc i) as (ops0 & cur0 & Hc0 & Hi & Hun & _);
        rewrite Hc0 in Hc; inversion Hc; subst ops cur; simpl in Hlen;
        destruct ops0; [by subst i | simpl in Hlen; lia]
    end.
Qed.


Lemma try_fold_chain_eq q :
  try_fold_chain q
  = let '(operations, current) := collect_chain [] q in
    if decide (2 <= length operations)%nat then ChainedOp (rev operations) current
    else match q with
         | Select cond input => Select cond (try_fold_chain input)
         | Project attrs input => Project attrs (try_fold_chain input)
         | Rename relname attrnames input =>
             Rename relname attrnames (try_fold_chain input)
         | Join l cond r => Join (try_fold_chain l) cond (try_fold_chain r)
         | _ => q
         end.
Proof. destruct q; reflexivity. Qed.

Lemma fold_left_rev {A B} (f : B -> A -> B) (l : list A) (b : B) :
  fold_left f (rev l) b = foldr (fun x y => f y x) b l.
Proof.
  revert b. induction l as [|x l IH]; intros b; simpl; [done|].
  by rewrite fold_left_app, IH.
Qed.

Lemma forallb_rev {A} (f : A -> bool) (l : list A) :
  forallb f (rev l) = forallb f l.
Proof.
  induction l as [|x l IH]; simpl; [done|].
  rewrite forallb_app, IH. simpl. rewrite andb_true_r. apply andb_comm.
Qed.

(** a run of two or more operators in a tree of [chains_on_relations] *)
Lemma long_run q ops cur :
  chains_on_relations q = true ->
  collect_chain [] q = (ops, cur) -> (2 <= length ops)%nat ->
  exists rel, cur = RelRef rel /\ forallb written_as_radb ops = true.
Proof.
  intros Hq Hc Hlen.
  assert (Hchain : select_project_chain q = true).
  { destruct q as [rel|c i|a i|rn an i|l r|l c r|ops' i]; simpl in Hq, Hc;
      try (inversion Hc; subst; simpl in Hlen; lia).
    - destruct (is_unary i) eqn:Hi; [done|].
      rewrite (collect_chain_not_unary _ i Hi) in Hc. inversion Hc; subst.
      simpl in Hlen. lia.
    - destruct (is_unary i) eqn:Hi; [done|].
      rewrite (collect_chain_not_unary _ i Hi) in Hc. inversion Hc; subst.
      simpl in Hlen. lia.
    - apply andb_prop in Hq as [Hi _]. apply negb_true_iff in Hi.
      rewrite (collect_chain_not_unary _ i Hi) in Hc. inversion Hc; subst.
      simpl in Hlen. lia. }
  destruct (select_project_chain_collect [] q Hchain) as (ops0 & rel & H1 & H2 & _).
  rewrite H1 in Hc. inversion Hc; subst. by exists rel.
Qed.

(** what [chains_on_relations] says of the input of a unary operator that
    is not folded *)
Lemma chains_on_relations_input q i :
  match q with
  | Select _ i' | Project _ i' | Rename _ _ i' => i' = i
  | _ => False
  end ->
  is_unary i = false ->
  chains_on_relations q = true -> chains_on_relations i = true.
Proof.
  destruct q; simpl; try done; intros -> Hi; by rewrite Hi.
Qed.

(** The text of the folded form of a tree of [chains_on_relations] parses
    back to the tree. *)
Lemma reparse_fold q :
  radb_tree q = true -> chains_on_relations q = true ->
  reparse (try_fold_chain q) = Ok q.
Proof.
  induction q as [rel|c i IH|a i IH|rn an i IH|l _ r _|l IHl c r IHr|ops i _];
    intros Hp Hch; try done;
    rewrite try_fold_chain_eq;
    match goal with
    | |- context [collect_chain [] ?q] =>
        pose proof (long_run q) as Hlong;
        pose proof (short_run q) as Hshort;
        destruct (collect_chain_spec [] q) as (ops' & cur & Hc & Hq & _);
        rewrite Hc in *; specialize (Hlong _ _ Hch eq_refl);
        specialize (Hshort _ _ eq_refl)
    end; simpl app in *; cbv beta iota;
    destruct (decide (2 <= length ops')%nat) as [Hlen|Hlen];
    try (destruct (Hlong Hlen) as (rel' & -> & Hops);
         cbn [reparse]; rewrite forallb_rev, Hops, fold_left_rev;
         by rewrite Hq);
    specialize (Hshort Hlen); simpl in Hp.
  - cbn [reparse]. rewrite IH; [done | done |].
    by apply (chains_on_relations_input (Select c i)).
  - cbn [reparse]. rewrite IH; [done | done |].
    by apply (chains_on_relations_input (Project a i)).
  - cbn [reparse]. rewrite IH; [done | done |].
    by apply (chains_on_relations_input (Rename rn an i)).
  - apply andb_prop in Hp as [Hl Hr]. cbn [reparse].
    by rewrite (reparse_radb_tree l Hl), (reparse_radb_tree r Hr).
  - apply andb_prop in Hp as [Hl Hr]. simpl in Hch.
    apply andb_prop in Hch as [Hcl Hcr]. cbn [reparse].
    by rewrite IHl, IHr.
Qed.

(** the tasks below [t] are found, carry distinct stage indices, and
    these lie in [step, step + n) *)
Definition dag_ok (fuel : nat) (t : task) (step n : Z) : Prop :=
  exists tasks,
    task_dag fuel t = Ok tasks /\
    NoDup (omap step_of tasks) /\
    forall s, s ∈ omap step_of tasks -> step <= s < step + n.

(** the trees the graph is described for: without chain folding every
    tree, with chain folding the trees of [chains_on_relations] *)
Definition read_back (optimize : bool) (q : node) : Prop :=
  optimize = true -> chains_on_relations q = true.

Section Induction.
Variable optimize : bool.
Variable fuel : nat.
Hypothesis IH : forall q step,
  plain q = true -> read_back optimize q -> (query_size q < fuel)%nat ->
  exists t, task_factory q step optimize = Ok t /\
            dag_ok fuel t step (Z.of_nat (query_size q)).

Lemma dag_one (t : task) (step n : Z) (i : node) :
  step_of t = Some step ->
  requires t = (t1 ← task_factory i (step + 1) optimize; Ok [t1]) ->
  plain i = true -> read_back optimize i -> (query_size i < fuel)%nat ->
  1 + Z.of_nat (query_size i) <= n ->
  dag_ok (S fuel) t step n.
Proof.
  intros Ht Hreq Hp Hrb Hsz Hn.
  destruct (IH i (step + 1) Hp Hrb Hsz) as (t1 & Ht1 & tasks1 & Hd1 & Hnd1 & Hb1).
  exists (t :: tasks1). simpl. rewrite Hreq, Ht1. simpl. rewrite Hd1. simpl.
  rewrite app_nil_r. split; [done|]. simpl. rewrite Ht. simpl.
  split.
  - apply NoDup_cons. split; [|done]. intros Hin. apply Hb1 in Hin. lia.
  - intros s Hs. apply elem_of_cons in Hs as [->|Hs]; [lia|].
    apply Hb1 in Hs. lia.
Qed.

Lemma dag_two (t : task) (step n : Z) (l r : node) :
  step_of t = Some step ->
  requires t = (task1 ← task_factory l (step + 1) optimize;
                k ← count_steps l;
                task2 ← task_factory r (step + k + 1) optimize;
                Ok [task1; task2]) ->
  plain l = true -> plain r = true ->
  read_back optimize l -> read_back optimize r ->
  (query_size l < fuel)%nat -> (query_size r < fuel)%nat ->
  1 + Z.of_nat (query_size l) + Z.of_nat (query_size r) <= n ->
  dag_ok (S fuel) t step n.
Proof.
  intros Ht Hreq Hpl Hpr Hrl Hrr Hsl Hsr Hn.
  destruct (IH l (step + 1) Hpl Hrl Hsl) as (t1 & Ht1 & tasks1 & Hd1 & Hnd1 & Hb1).
  destruct (IH r (step + Z.of_nat (query_size l) + 1) Hpr Hrr Hsr)
    as (t2 & Ht2 & tasks2 & Hd2 & Hnd2 & Hb2).
  exists (t :: tasks1 ++ tasks2). simpl.
  rewrite Hreq, Ht1. simpl. rewrite (count_steps_plain l Hpl). simpl.
  rewrite Ht2. simpl. rewrite Hd1. simpl. rewrite Hd2. simpl.
  rewrite app_nil_r. split; [done|]. simpl. rewrite Ht. simpl.
  rewrite omap_app. split.
  - apply NoDup_cons. split.
    + intros Hin. apply elem_of_app in Hin as [Hin|Hin].
      * apply Hb1 in Hin. lia.
      * apply Hb2 in Hin. lia.
    + apply NoDup_app. split; [done|]. split; [|done].
      intros s Hs1 Hs2. apply Hb1 in Hs1. apply Hb2 in Hs2. lia.
  - intros s Hs. apply elem_of_cons in Hs as [->|Hs]; [lia|].
    apply elem_of_app in Hs as [Hs|Hs]; [apply Hb1 in Hs | apply Hb2 in Hs]; lia.
Qed.

End Induction.

Lemma task_dag_stage_indices (optimize : bool) (fuel : nat) :
  forall q step,
    plain q = true -> read_back optimize q -> (query_size q < fuel)%nat ->
    exists t, task_factory q step optimize = Ok t /\
              dag_ok fuel t step (Z.of_nat (query_size q)).
Proof.
  induction fuel as [|fuel IH]; intros q step Hp Hrb Hsz; [lia|].
  assert (Hleaf : forall rel,
            dag_ok (S fuel) (InputData (rel +:+ ".json")) step 1).
  { intros rel. exists [InputData (rel +:+ ".json")]. simpl.
    split; [done|]. split; [constructor|]. intros s Hs. by apply elem_of_nil in Hs. }
  assert (Hrt : radb_tree q = true).
  { rewrite plain_radb_tree in Hp. by apply andb_prop in Hp as [? _]. }
  destruct optimize.
  - (* with chain folding *)
    specialize (Hrb eq_refl).
    assert (Hany : forall x, chains_on_relations x = true -> read_back true x)
      by (by intros x Hx _).
    unfold task_factory.
    pose proof (reparse_fold q Hrt Hrb) as Hre.
    pose proof (try_fold_chain_eq q) as Heq.
    pose proof (long_run q) as Hlong.
    pose proof (short_run q) as Hshort.
    destruct (collect_chain_spec [] q) as (ops & cur & Hcc & Hq & Hun & Hsize & Hcur).
    rewrite Hcc in Heq. simpl in Heq.
    specialize (Hlong _ _ Hrb Hcc). specialize (Hshort _ _ Hcc).
    destruct (decide (2 <= length ops)%nat) as [Hlen|Hlen].
    + rewrite Heq. eexists. split; [reflexivity|].
      destruct (Hlong Hlen) as (rel & Hrel & _).
      apply (dag_one true fuel IH _ _ _ cur);
        [done | | by apply Hcur | apply Hany; by rewrite Hrel | lia | lia].
      cbn [requires]. rewrite <- Heq, Hre. cbn [mbind result_bind Py.bind].
      rewrite Heq. done.
    + specialize (Hshort Hlen).
      rewrite Heq in Hre. rewrite Heq. clear Heq.
      destruct q as [rel|c i|a i|rn an i|l r|l c r|ops' i]; simpl in Hp; try done.
      * eexists. split; [reflexivity|]. apply Hleaf.
      * eexists. split; [reflexivity|].
        apply (dag_one true fuel IH _ _ _ i);
          [done | | done | | simpl in Hsz; lia | simpl; lia].
        -- cbn [requires]. rewrite Hre. done.
        -- by apply Hany, (chains_on_relations_input (Select c i)).
      * eexists. split; [reflexivity|].
        apply (dag_one true fuel IH _ _ _ i);
          [done | | done | | simpl in Hsz; lia | simpl; lia].
        -- cbn [requires]. rewrite Hre. done.
        -- by apply Hany, (chains_on_relations_input (Project a i)).
      * eexists. split; [reflexivity|].
        apply (dag_one true fuel IH _ _ _ i);
          [done | | done | | simpl in Hsz; lia | simpl; lia].
        -- cbn [requires]. rewrite Hre. done.
        -- by apply Hany, (chains_on_relations_input (Rename rn an i)).
      * apply andb_prop in Hp as [Hpl Hpr]. simpl in Hrb.
        apply andb_prop in Hrb as [Hcl Hcr].
        eexists. split; [reflexivity|].
        apply (dag_two true fuel IH _ _ _ l r);
          [done | | done | done | by apply Hany | by apply Hany
          | simpl in Hsz; lia | simpl in Hsz; lia | simpl; lia].
        cbn [requires]. rewrite Hre. done.
  - (* without *)
    assert (Hany : forall x, read_back false x) by (by intros x ?).
    unfold task_factory.
    destruct q as [rel|c i|a i|rn an i|l r|l c r|ops' i]; simpl in Hp; try done.
    + eexists. split; [reflexivity|]. apply Hleaf.
    + eexists. split; [reflexivity|].
      apply (dag_one false fuel IH _ _ _ i); try done; simpl in *; try lia.
      by rewrite (reparse_plain i Hp).
    + eexists. split; [reflexivity|].
      apply (dag_one false fuel IH _ _ _ i); try done; simpl in *; try lia.
      by rewrite (reparse_plain i Hp).
    + eexists. split; [reflexivity|].
      apply (dag_one false fuel IH _ _ _ i); try done; simpl in *; try lia.
      by rewrite (reparse_plain i Hp).
    + apply andb_prop in Hp as [Hpl Hpr].
      eexists. split; [reflexivity|].
      apply (dag_two false fuel IH _ _ _ l r); try done; simpl in *; try lia.
      by rewrite (reparse_plain l Hpl), (reparse_plain r Hpr).
Qed.


(** [\project_{name} \select_{id = 1} (Person \join_{Person.id = Dept.pid}
    \select_{id = 1} Dept)] *)
Definition example_query : node :=
  Project [AttrRefOf None "name"]
    (Select id_is_1
       (Join (RelRef "Person") person_id_is_dept_pid
             (Select id_is_1 (RelRef "Dept")))).



End Stages.

(** ** The shuffle, and jobs in general *)

Section ShuffleFacts.
Context {K V : Type} `{EqDecision K}.
Implicit Types (kvs : list (K * V)) (gs : list (K * list V)).

(** the values emitted under a key, in the order of emission *)
Definition values_for (k : K) kvs : list V :=
  omap (fun kv => if decide (kv.1 = k) then Some kv.2 else None) kvs.

Lemma values_for_elem k kvs v : v ∈ values_for k kvs <-> (k, v) ∈ kvs.
Proof.
  unfold values_for. rewrite list_elem_of_omap. split.
  - intros ([k' v'] & Hin & Hv). simpl in Hv.
    destruct (decide (k' = k)) as [->|]; [|done]. by inversion Hv; subst.
  - intros Hin. exists (k, v). split; [done|]. simpl. by rewrite decide_True.
Qed.

Lemma values_for_snoc k kvs k' v :
  values_for k (kvs ++ [(k', v)])
  = values_for k kvs ++ (if decide (k' = k) then [v] else []).
Proof.
  unfold values_for. rewrite omap_app. simpl. by destruct (decide (k' = k)).
Qed.

Lemma add_to_group_keys k v gs :
  (Runner.add_to_group k v gs).*1
  = if decide (k ∈ gs.*1) then gs.*1 else gs.*1 ++ [k].
Proof.
  induction gs as [|[k0 vs0] gs IH].
  - match goal with |- context [decide ?P] => destruct (decide P) as [Hin|_] end;
      [by apply elem_of_nil in Hin | done].
  - cbn [Runner.add_to_group]. rewrite fmap_cons.
    destruct (decide (k0 = k)) as [->|Hne]; rewrite fmap_cons; cbn [fst].
    + match goal with |- context [decide ?P] => destruct (decide P) as [_|Hnin] end;
        [done|]. exfalso. apply Hnin. left.
    + rewrite IH.
      destruct (decide (k ∈ gs.*1)) as [Hin|Hnin];
        match goal with |- context [decide ?P] => destruct (decide P) as [Hin'|Hnin'] end;
        try done.
      * exfalso. apply Hnin'. by right.
      * apply elem_of_cons in Hin' as [?|?]; congruence.
Qed.

Lemma add_to_group_elem k v gs k' vs' :
  NoDup gs.*1 ->
  (k', vs') ∈ Runner.add_to_group k v gs <->
  (k' <> k /\ (k', vs') ∈ gs) \/
  (k' = k /\ ((exists vs0, (k, vs0) ∈ gs /\ vs' = vs0 ++ [v]) \/
              ((k ∉ gs.*1) /\ vs' = [v]))).
Proof.
  induction gs as [|[k0 vs0] gs IH]; intros Hnd.
  - cbn [Runner.add_to_group]. rewrite list_elem_of_singleton. split.
    + intros [= -> ->]. right. split; [done|]. right.
      split; [apply not_elem_of_nil | done].
    + intros [[_ Hin]|[-> [(vs0 & Hin & _)|[_ ->]]]]; try done;
        by apply elem_of_nil in Hin.
  - rewrite fmap_cons in Hnd. apply NoDup_cons in Hnd as [Hk0 Hnd].
    specialize (IH Hnd). cbn [Runner.add_to_group fst] in *.
    assert (Hfresh : forall vs, (k0, vs) ∈ gs -> False).
    { intros vs Hin. apply Hk0. apply list_elem_of_fmap. by exists (k0, vs). }
    destruct (decide (k0 = k)) as [->|Hne].
    + split.
      * intros Hin. apply elem_of_cons in Hin as [[= -> ->]|Hin].
        -- right. split; [done|]. left. exists vs0. split; [left | done].
        -- left. split; [|by right]. intros ->. by apply (Hfresh vs').
      * intros [[Hne Hin]|[-> [(vs1 & Hin & ->)|[Hnin ->]]]].
        -- apply elem_of_cons in Hin as [[= ? ?]|Hin]; [done | by right].
        -- apply elem_of_cons in Hin as [[= ->]|Hin]; [left|].
           exfalso. by apply (Hfresh vs1).
        -- exfalso. apply Hnin. rewrite fmap_cons. left.
    + split.
      * intros Hin. apply elem_of_cons in Hin as [[= -> ->]|Hin].
        -- left. split; [done | left].
        -- apply IH in Hin as [[Hne' Hin]|[-> [(vs1 & Hin & ->)|[Hnin ->]]]].
           ++ left. split; [done | by right].
           ++ right. split; [done|]. left. exists vs1. split; [by right | done].
           ++ right. split; [done|]. right. split; [|done].
              rewrite fmap_cons. apply not_elem_of_cons. by split.
      * intros [[Hne' Hin]|[-> [(vs1 & Hin & ->)|[Hnin ->]]]].
        -- apply elem_of_cons in Hin as [[= -> ->]|Hin]; [left|].
           right. apply IH. left. by split.
        -- apply elem_of_cons in Hin as [[= ? ?]|Hin]; [done|].
           right. apply IH. right. split; [done|]. left. by exists vs1.
        -- rewrite fmap_cons in Hnin. apply not_elem_of_cons in Hnin as [_ Hnin].
           right. apply IH. right. split; [done|]. by right.
Qed.

(** [gs] is the grouping of the pairs [kvs]: one group for every key
    that occurs, holding the values of that key *)
Definition grouped gs kvs : Prop :=
  NoDup gs.*1 /\
  forall k vs, (k, vs) ∈ gs <-> vs = values_for k kvs /\ vs <> [].

Lemma add_to_group_grouped gs kvs k v :
  grouped gs kvs -> grouped (Runner.add_to_group k v gs) (kvs ++ [(k, v)]).
Proof.
  intros [Hnd Hgs]. split.
  - rewrite add_to_group_keys. destruct (decide (k ∈ gs.*1)); [done|].
    apply NoDup_app. split; [done|]. split; [|apply NoDup_singleton].
    intros x Hx Hx'. apply list_elem_of_singleton in Hx'. by subst.
  - intros k' vs'. rewrite (add_to_group_elem _ _ _ _ _ Hnd), values_for_snoc.
    assert (Hkeys : k ∈ gs.*1 <-> values_for k kvs <> []).
    { split.
      - intros Hin. apply list_elem_of_fmap in Hin as ([k0 vs0] & -> & Hin).
        apply Hgs in Hin as [-> ?]. done.
      - intros Hne. apply list_elem_of_fmap. exists (k, values_for k kvs).
        split; [done|]. by apply Hgs. }
    destruct (decide (k = k')) as [<-|Hne].
    + split.
      * intros [[? _]|[_ [(vs0 & Hin & ->)|[Hnin ->]]]]; [done| |].
        -- apply Hgs in Hin as [-> _]. split; [done|]. by destruct (values_for k kvs).
        -- destruct (values_for k kvs) eqn:E; [done|].
           exfalso. apply Hnin, Hkeys. done.
      * intros [-> _]. right. split; [done|].
        destruct (values_for k kvs) eqn:E.
        -- right. split; [|done]. rewrite Hkeys. by intros ?.
        -- left. eexists. split; [|done]. apply Hgs. by rewrite E.
    + rewrite app_nil_r. rewrite <- Hgs. split.
      * intros [[_ ?]|[? _]]; [done | congruence].
      * intros Hin. left. split; [congruence | done].
Qed.

Lemma shuffle_grouped kvs : grouped (Runner.shuffle kvs) kvs.
Proof.
  unfold Runner.shuffle.
  assert (Hgen : forall kvs gs done_, grouped gs done_ ->
            grouped (fold_left (fun gs kv => Runner.add_to_group kv.1 kv.2 gs) kvs gs)
                    (done_ ++ kvs)).
  { clear kvs. induction kvs as [|[k v] kvs IH]; intros gs done_ Hg; simpl.
    - by rewrite app_nil_r.
    - replace (done_ ++ (k, v) :: kvs) with ((done_ ++ [(k, v)]) ++ kvs)
        by (by rewrite <- app_assoc).
      apply IH. by apply add_to_group_grouped. }
  apply (Hgen kvs [] []). split; [constructor|].
  intros k vs. split; [intros Hin; by apply elem_of_nil in Hin | by intros [-> ?]].
Qed.

Lemma shuffle_elem kvs k vs :
  (k, vs) ∈ Runner.shuffle kvs <-> vs = values_for k kvs /\ vs <> [].
Proof. apply shuffle_grouped. Qed.

End ShuffleFacts.

Section ResultFacts.
Context {A B : Type}.

Lemma concat_mapM_elem (f : A -> result (list B)) xs out y :
  concat_mapM f xs = Ok out ->
  y ∈ out <-> exists x ys, x ∈ xs /\ f x = Ok ys /\ y ∈ ys.
Proof.
  revert out. induction xs as [|x xs IH]; simpl; intros out Hout.
  - inversion Hout; subst. split; [intros Hy; by apply elem_of_nil in Hy|].
    intros (x & ys & Hx & _). by apply elem_of_nil in Hx.
  - destruct (f x) as [ys| |] eqn:Hfx; simpl in Hout; try done.
    destruct (concat_mapM f xs) as [zs| |]; simpl in Hout; try done.
    inversion Hout; subst. rewrite elem_of_app, (IH zs eq_refl). split.
    + intros [Hy|(x' & ys' & Hx' & Hf & Hy)].
      * exists x, ys. split; [left | done].
      * exists x', ys'. split; [by right | done].
    + intros (x' & ys' & Hx' & Hf & Hy).
      apply elem_of_cons in Hx' as [->|Hx'].
      * left. congruence.
      * right. by exists x', ys'.
Qed.

Lemma concat_mapM_ok (f : A -> result (list B)) xs :
  (forall x, x ∈ xs -> exists ys, f x = Ok ys) ->
  exists out, concat_mapM f xs = Ok out.
Proof.
  induction xs as [|x xs IH]; simpl; intros Hall; [by eexists|].
  destruct (Hall x) as (ys & ->); [left|].
  destruct IH as (zs & ->); [intros x' Hx'; apply Hall; by right|].
  simpl. by eexists.
Qed.

End ResultFacts.

(** ** The join job in general (towards C1) *)

Section JoinJob.
Import Eval Ra2mr.

Lemma concat_mapM_each {A B} (f : A -> result (list B)) xs out x :
  concat_mapM f xs = Ok out -> x ∈ xs -> exists ys, f x = Ok ys.
Proof.
  revert out. induction xs as [|x0 xs IH]; simpl; intros out Hout Hx.
  - by apply elem_of_nil in Hx.
  - destruct (f x0) as [ys| |] eqn:Hf; simpl in Hout; try done.
    destruct (concat_mapM f xs) as [zs| |]; simpl in Hout; try done.
    apply elem_of_cons in Hx as [->|Hx]; [by exists ys|]. by apply (IH zs).
Qed.

Lemma concat_mapM_nil {A B} (f : A -> result (list B)) xs :
  (forall x, x ∈ xs -> f x = Ok []) -> concat_mapM f xs = Ok [].
Proof.
  induction xs as [|x xs IH]; simpl; intros Hall; [done|].
  rewrite (Hall x) by left. simpl.
  rewrite IH; [done|]. intros x' Hx'. apply Hall. by right.
Qed.

Variables (left right : node) (cond : valexpr).
Let left_r := rels left.
Let right_r := rels right.

(** the pairs of the mapper as the shuffle sees them: the text of the
    key, and the record *)
Lemma mapper_pairs lines :
  exists kvs,
    concat_mapM (JoinTask_mapper cond) lines = Ok kvs /\
    forall (k : string) rel t,
      (k, (rel, t)) ∈ map (fun kv : join_key * record => (key_text kv.1, kv.2)) kvs
      <-> (rel, t) ∈ lines /\ mapper_text cond t = Some k.
Proof.
  destruct (concat_mapM_ok (JoinTask_mapper cond) lines) as (kvs & Hkvs).
  { intros [rel t] _. unfold JoinTask_mapper.
    destruct (mapper_key cond t); by eexists. }
  exists kvs. split; [done|]. intros k rel t.
  rewrite list_elem_of_fmap. unfold mapper_text. split.
  - intros ([k0 [rel0 t0]] & [= -> -> ->] & Hin0).
    apply (concat_mapM_elem _ _ _ _ Hkvs) in Hin0
      as ([rel' t'] & ys & Hin & Hf & Hy). unfold JoinTask_mapper in Hf.
    destruct (mapper_key cond t') as [k'|] eqn:Hk; inversion Hf; subst.
    + apply list_elem_of_singleton in Hy. inversion Hy; subst.
      by rewrite Hk.
    + by apply elem_of_nil in Hy.
  - intros [Hin Hk].
    destruct (mapper_key cond t) as [k0|] eqn:Hk0; simpl in Hk; [|done].
    inversion Hk; subst k. exists (k0, (rel, t)). split; [done|].
    apply (concat_mapM_elem _ _ _ _ Hkvs). exists (rel, t), [(k0, (rel, t))].
    split; [done|]. split; [|left]. unfold JoinTask_mapper. by rewrite Hk0.
Qed.

Lemma classify_fst v t : t ∈ (classify left_r right_r v).1 -> t = v.2.
Proof.
  destruct v as [rel tup]. unfold classify. simpl.
  repeat case_match; simpl; intros Hin;
    try (by apply elem_of_nil in Hin); by apply list_elem_of_singleton in Hin.
Qed.

Lemma classify_snd v t : t ∈ (classify left_r right_r v).2 -> t = v.2.
Proof.
  destruct v as [rel tup]. unfold classify. simpl.
  repeat case_match; simpl; intros Hin;
    try (by apply elem_of_nil in Hin); by apply list_elem_of_singleton in Hin.
Qed.

Lemma candidates_fst values t :
  t ∈ (candidates left_r right_r values).1 <->
  exists rel, (rel, t) ∈ values /\ t ∈ (classify left_r right_r (rel, t)).1.
Proof.
  unfold candidates. simpl. rewrite elem_of_concat. split.
  - intros (l & Hl & Ht). apply list_elem_of_fmap in Hl as ([rel tup] & -> & Hv).
    pose proof (classify_fst _ _ Ht) as Heq. simpl in Heq. subst. by exists rel.
  - intros (rel & Hv & Ht). eexists. split; [|exact Ht].
    apply list_elem_of_fmap. by exists (rel, t).
Qed.

Lemma candidates_snd values t :
  t ∈ (candidates left_r right_r values).2 <->
  exists rel, (rel, t) ∈ values /\ t ∈ (classify left_r right_r (rel, t)).2.
Proof.
  unfold candidates. simpl. rewrite elem_of_concat. split.
  - intros (l & Hl & Ht). apply list_elem_of_fmap in Hl as ([rel tup] & -> & Hv).
    pose proof (classify_snd _ _ Ht) as Heq. simpl in Heq. subst. by exists rel.
  - intros (rel & Hv & Ht). eexists. split; [|exact Ht].
    apply list_elem_of_fmap. by exists (rel, t).
Qed.

Lemma join_pairs_sound rel seen pairs out rel' s :
  join_pairs cond rel seen pairs = Ok out -> (rel', s) ∈ out ->
  rel' = rel /\ (s ∉ seen) /\
  exists l r, (l, r) ∈ pairs /\ holds cond (Dict.merge l r) = Ok true /\
              s = Dict.sort_keys (Dict.merge l r).
Proof.
  revert seen out. induction pairs as [|[l r] pairs IH]; simpl; intros seen out Hout Hin.
  - inversion Hout; subst. by apply elem_of_nil in Hin.
  - destruct (holds cond (Dict.merge l r)) as [b| |] eqn:Hb; simpl in Hout; try done.
    assert (Hskip : join_pairs cond rel seen pairs = Ok out ->
              rel' = rel /\ (s ∉ seen) /\
              exists l0 r0, (l0, r0) ∈ (l, r) :: pairs /\
                holds cond (Dict.merge l0 r0) = Ok true /\
                s = Dict.sort_keys (Dict.merge l0 r0)).
    { intros H. destruct (IH _ _ H Hin) as (? & ? & l0 & r0 & ? & ? & ?).
      split; [done|]. split; [done|]. exists l0, r0. split; [by right | done]. }
    destruct b; simpl in Hout; [|by apply Hskip].
    destruct (bool_decide (Dict.sort_keys (Dict.merge l r) ∈ seen)) eqn:Hseen;
      simpl in Hout; [by apply Hskip|].
    apply bool_decide_eq_false in Hseen.
    destruct (join_pairs cond rel (Dict.sort_keys (Dict.merge l r) :: seen) pairs)
      as [rest| |] eqn:Hrest; simpl in Hout; try done.
    inversion Hout; subst. apply elem_of_cons in Hin as [[= -> ->]|Hin].
    + split; [done|]. split; [done|]. exists l, r. split; [left | done].
    + destruct (IH _ _ Hrest Hin) as (? & Hns & l0 & r0 & ? & ? & ?).
      split; [done|]. split; [by apply not_elem_of_cons in Hns as [_ ?]|].
      exists l0, r0. split; [by right | done].
Qed.

Lemma join_pairs_complete rel seen pairs out l r :
  join_pairs cond rel seen pairs = Ok out ->
  (l, r) ∈ pairs -> holds cond (Dict.merge l r) = Ok true ->
  Dict.sort_keys (Dict.merge l r) ∈ seen \/
  (rel, Dict.sort_keys (Dict.merge l r)) ∈ out.
Proof.
  revert seen out. induction pairs as [|[l0 r0] pairs IH]; simpl;
    intros seen out Hout Hin Hholds.
  - by apply elem_of_nil in Hin.
  - destruct (holds cond (Dict.merge l0 r0)) as [b| |] eqn:Hb; simpl in Hout; try done.
    apply elem_of_cons in Hin as [[= -> ->]|Hin].
    + rewrite Hholds in Hb. inversion Hb; subst. simpl in Hout.
      destruct (bool_decide (Dict.sort_keys (Dict.merge l0 r0) ∈ seen)) eqn:Hseen;
        simpl in Hout.
      * left. by apply bool_decide_eq_true in Hseen.
      * destruct (join_pairs cond rel _ pairs) as [rest| |]; simpl in Hout; try done.
        inversion Hout; subst. right. left.
    + destruct (b && negb (bool_decide (Dict.sort_keys (Dict.merge l0 r0) ∈ seen)))
        eqn:Hemit.
      * destruct (join_pairs cond rel _ pairs) as [rest| |] eqn:Hrest;
          simpl in Hout; try done.
        inversion Hout; subst.
        destruct (IH _ _ Hrest Hin Hholds) as [Hs|Hs]; [|right; by right].
        apply elem_of_cons in Hs as [Hs|Hs]; [|by left].
        right. rewrite Hs. left.
      * by apply (IH _ _ Hout Hin Hholds).
Qed.

Lemma join_pairs_NoDup rel seen pairs out :
  join_pairs cond rel seen pairs = Ok out -> NoDup out.
Proof.
  revert seen out. induction pairs as [|[l r] pairs IH]; simpl; intros seen out Hout.
  - inversion Hout; subst. constructor.
  - destruct (holds cond (Dict.merge l r)) as [b| |]; simpl in Hout; try done.
    destruct (b && negb (bool_decide (Dict.sort_keys (Dict.merge l r) ∈ seen))).
    + destruct (join_pairs cond rel _ pairs) as [rest| |] eqn:Hrest;
        simpl in Hout; try done.
      inversion Hout; subst. apply NoDup_cons. split; [|by apply (IH _ _ Hrest)].
      intros Hin. destruct (join_pairs_sound _ _ _ _ _ _ Hrest Hin) as (_ & Hns & _).
      apply Hns. left.
    + by apply (IH _ _ Hout).
Qed.

Lemma reducer_cases key values :
  (((candidates left_r right_r values).1 = [] \/
    (candidates left_r right_r values).2 = []) /\
   JoinTask_reducer left right cond key values = Ok []) \/
  ((candidates left_r right_r values).1 <> [] /\
   (candidates left_r right_r values).2 <> [] /\
   JoinTask_reducer left right cond key values
   = join_pairs cond (out_rel left_r) []
       (l ← (candidates left_r right_r values).1;
        r ← (candidates left_r right_r values).2; [(l, r)])).
Proof.
  unfold JoinTask_reducer. fold left_r right_r.
  destruct (candidates left_r right_r values) as [left_t right_t]. simpl.
  destruct left_t as [|l left_t]; [left; split; [by left | done]|].
  destruct right_t as [|r right_t]; [left; split; [by right | done]|].
  right. by repeat split.
Qed.

(** the label [next(iter(left_r), "joined")] can take: [joined] for the
    empty set, else one of the names of the set *)
Definition label_of (names : gset (option string)) (rel : string) : Prop :=
  (names = ∅ /\ rel = "joined") \/
  exists x, x ∈ names /\ rel = from_option id (py_str VNone) x.

Lemma out_rel_label names : label_of names (out_rel names).
Proof.
  unfold label_of, out_rel. destruct (elements names) as [|x xs] eqn:E.
  - left. split; [|done]. by apply elements_empty_inv, leibniz_equiv in E.
  - right. exists x. split; [|by destruct x].
    apply elem_of_elements. rewrite E. left.
Qed.

(** X23.  What the job of a JoinTask writes, when it ends without error.
    Every record it writes is the merge, as sorted JSON text, of a record
    classified left and a record classified right to which the mapper
    gave the same key text and whose merge satisfies the condition; its
    label is one of the relation names of the left input ([joined] when
    there is none).  And the merge of every such pair is written. *)
Lemma JoinTask_job_output lines out :
  JoinTask_job left right cond lines = Ok out ->
  (forall rel s,
     (rel, s) ∈ out ->
     label_of (rels left) rel /\
     exists k ll l rl r,
       (ll, l) ∈ lines /\ (rl, r) ∈ lines /\
       mapper_text cond l = Some k /\ mapper_text cond r = Some k /\
       l ∈ (classify left_r right_r (ll, l)).1 /\
       r ∈ (classify left_r right_r (rl, r)).2 /\
       holds cond (Dict.merge l r) = Ok true /\
       s = Dict.sort_keys (Dict.merge l r)) /\
  (forall k ll l rl r,
     (ll, l) ∈ lines -> (rl, r) ∈ lines ->
     mapper_text cond l = Some k -> mapper_text cond r = Some k ->
     l ∈ (classify left_r right_r (ll, l)).1 ->
     r ∈ (classify left_r right_r (rl, r)).2 ->
     holds cond (Dict.merge l r) = Ok true ->
     exists rel, (rel, Dict.sort_keys (Dict.merge l r)) ∈ out).
Proof.
  unfold JoinTask_job. destruct (mapper_pairs lines) as (kvs0 & -> & Hkvs).
  cbn [mbind result_bind Py.bind]. unfold Runner.reduce_phase.
  set (kvs := map (fun kv : join_key * record => (key_text kv.1, kv.2)) kvs0) in *.
  intros Hout. split.
  - intros rel s Hrs. apply (concat_mapM_elem _ _ _ _ Hout) in Hrs
      as ([k vs] & ys & Hg & Hred & Hin). simpl in Hred.
    apply shuffle_elem in Hg as [-> _].
    destruct (reducer_cases k (values_for k kvs)) as [[_ Hnil]|(_ & _ & Hjoin)].
    { rewrite Hnil in Hred. inversion Hred; subst. by apply elem_of_nil in Hin. }
    rewrite Hjoin in Hred.
    destruct (join_pairs_sound _ _ _ _ _ _ Hred Hin)
      as (-> & _ & l & r & Hpair & Hholds & ->).
    split; [apply out_rel_label|].
    apply list_elem_of_bind in Hpair as (l' & Hpair & Hl).
    apply list_elem_of_bind in Hpair as (r' & Hpair & Hr).
    apply list_elem_of_singleton in Hpair. inversion Hpair; subst l' r'.
    apply candidates_fst in Hl as (ll & Hl & Hcl).
    apply candidates_snd in Hr as (rl & Hr & Hcr).
    apply values_for_elem, Hkvs in Hl as [Hl Hkl].
    apply values_for_elem, Hkvs in Hr as [Hr Hkr].
    by exists k, ll, l, rl, r.
  - intros k ll l rl r Hl Hr Hkl Hkr Hcl Hcr Hholds.
    exists (out_rel left_r). apply (concat_mapM_elem _ _ _ _ Hout).
    assert (Hvl : (ll, l) ∈ values_for k kvs) by (by apply values_for_elem, Hkvs).
    assert (Hvr : (rl, r) ∈ values_for k kvs) by (by apply values_for_elem, Hkvs).
    assert (Hg : (k, values_for k kvs) ∈ Runner.shuffle kvs).
    { apply shuffle_elem. split; [done|]. intros Hnil. rewrite Hnil in Hvl.
      by apply elem_of_nil in Hvl. }
    destruct (concat_mapM_each _ _ _ _ Hout Hg) as (ys & Hred).
    exists (k, values_for k kvs), ys. split; [done|]. split; [done|].
    simpl in Hred.
    assert (HL : l ∈ (candidates left_r right_r (values_for k kvs)).1).
    { apply candidates_fst. by exists ll. }
    assert (HR : r ∈ (candidates left_r right_r (values_for k kvs)).2).
    { apply candidates_snd. by exists rl. }
    destruct (reducer_cases k (values_for k kvs)) as [[[Hnil|Hnil] _]|(_ & _ & Hjoin)].
    { rewrite Hnil in HL. by apply elem_of_nil in HL. }
    { rewrite Hnil in HR. by apply elem_of_nil in HR. }
    rewrite Hjoin in Hred.
    destruct (join_pairs_complete _ _ _ _ l r Hred) as [Hseen|Hin]; try done.
    + apply list_elem_of_bind. exists l. split; [|done].
      apply list_elem_of_bind. exists r. split; [left | done].
    + by apply elem_of_nil in Hseen.
Qed.

(** X24.  Within a key group the reducer of a JoinTask writes no record
    twice. *)
Lemma JoinTask_reducer_NoDup key values out :
  JoinTask_reducer left right cond key values = Ok out -> NoDup out.
Proof.
  destruct (reducer_cases key values) as [[_ ->]|(_ & _ & ->)].
  - intros [= <-]. constructor.
  - apply join_pairs_NoDup.
Qed.

(** X25.  When no record is classified left, or none right, the job of a
    JoinTask writes nothing (and evaluates no condition). *)
Lemma JoinTask_job_empty_side lines :
  (forall line, line ∈ lines -> (classify left_r right_r line).1 = []) \/
  (forall line, line ∈ lines -> (classify left_r right_r line).2 = []) ->
  JoinTask_job left right cond lines = Ok [].
Proof.
  intros Hside. unfold JoinTask_job.
  destruct (mapper_pairs lines) as (kvs0 & -> & Hkvs).
  cbn [mbind result_bind Py.bind]. unfold Runner.reduce_phase.
  set (kvs := map (fun kv : join_key * record => (key_text kv.1, kv.2)) kvs0) in *.
  apply concat_mapM_nil. intros [k vs] Hg. simpl.
  apply shuffle_elem in Hg as [-> _].
  destruct (reducer_cases k (values_for k kvs)) as [[_ Hnil]|(HL & HR & _)]; [done|].
  exfalso. destruct Hside as [Hside|Hside].
  - destruct (candidates left_r right_r (values_for k kvs)).1 as [|t ts] eqn:E; [done|].
    assert (Ht : t ∈ (candidates left_r right_r (values_for k kvs)).1)
      by (rewrite E; left).
    apply candidates_fst in Ht as (rel & Hv & Hc).
    apply values_for_elem, Hkvs in Hv as [Hv _].
    rewrite (Hside _ Hv) in Hc. by apply elem_of_nil in Hc.
  - destruct (candidates left_r right_r (values_for k kvs)).2 as [|t ts] eqn:E; [done|].
    assert (Ht : t ∈ (candidates left_r right_r (values_for k kvs)).2)
      by (rewrite E; left).
    apply candidates_snd in Ht as (rel & Hv & Hc).
    apply values_for_elem, Hkvs in Hv as [Hv _].
    rewrite (Hside _ Hv) in Hc. by apply elem_of_nil in Hc.
Qed.

Lemma join_pairs_ok rel seen pairs :
  (forall l r, (l, r) ∈ pairs -> exists b, holds cond (Dict.merge l r) = Ok b) ->
  exists out, join_pairs cond rel seen pairs = Ok out.
Proof.
  revert seen. induction pairs as [|[l r] pairs IH]; simpl; intros seen Hall.
  - by eexists.
  - destruct (Hall l r) as (b & ->); [left|]. simpl.
    assert (Hrest : forall seen', exists out, join_pairs cond rel seen' pairs = Ok out).
    { intros seen'. apply IH. intros l' r' Hin. apply Hall. by right. }
    destruct (b && negb _); [|apply Hrest].
    destruct (Hrest (Dict.sort_keys (Dict.merge l r) :: seen)) as (rest & ->).
    simpl. by eexists.
Qed.

(** X26.  The job of a JoinTask ends without error when the condition
    can be evaluated on the merge of every two records to which the
    mapper gives the same key text (the text of one value, or the JSON
    text of several). *)
Lemma JoinTask_job_ok lines :
  (forall k ll l rl r,
     (ll, l) ∈ lines -> (rl, r) ∈ lines ->
     mapper_text cond l = Some k -> mapper_text cond r = Some k ->
     exists b, holds cond (Dict.merge l r) = Ok b) ->
  exists out, JoinTask_job left right cond lines = Ok out.
Proof.
  intros Hall. unfold JoinTask_job.
  destruct (mapper_pairs lines) as (kvs0 & -> & Hkvs).
  cbn [mbind result_bind Py.bind]. unfold Runner.reduce_phase.
  set (kvs := map (fun kv : join_key * record => (key_text kv.1, kv.2)) kvs0) in *.
  apply concat_mapM_ok. intros [k vs] Hg. simpl.
  apply shuffle_elem in Hg as [-> _].
  destruct (reducer_cases k (values_for k kvs)) as [[_ ->]|(_ & _ & ->)];
    [by eexists|].
  apply join_pairs_ok. intros l r Hpair.
  apply list_elem_of_bind in Hpair as (l' & Hpair & Hl).
  apply list_elem_of_bind in Hpair as (r' & Hpair & Hr).
  apply list_elem_of_singleton in Hpair. inversion Hpair; subst l' r'.
  apply candidates_fst in Hl as (ll & Hl & _).
  apply candidates_snd in Hr as (rl & Hr & _).
  apply values_for_elem, Hkvs in Hl as [Hl Hkl].
  apply values_for_elem, Hkvs in Hr as [Hr Hkr].
  by apply (Hall k ll l rl r).
Qed.

End JoinJob.

(** ** Chains of selections and renames (towards C2) *)

Section SelectRenameChains.
Import Eval Ra2mr.


(** what is left of one record after the operations *)
Definition survivors (ops : list operation) (line : record)
  : result (list record) :=
  r ← apply_operations ops line;
  Ok (match r with Some cur => [cur] | None => [] end).




Lemma survivors_nil line : survivors [] line = Ok [line].
Proof. done. Qed.




(** a surviving record as the chain emits it *)
Definition emitted (cur : record) : string * option tuple :=
  (cur.1, Some (Dict.sort_keys cur.2)).

Lemma map_phase_survivors ops lines out touched :
  concat_mapM (survivors ops) lines = Ok out ->
  ChainedTask_map_phase ops touched lines
  = Ok ((if touched then []
         else match lines with [] => [] | _ :: _ => [(touch_key, None)] end)
        ++ map emitted out).
Proof.
  revert out touched. induction lines as [|line lines IH]; simpl; intros out touched Hout.
  - inversion Hout; subst. by destruct touched.
  - unfold survivors in Hout at 1.
    destruct (apply_operations ops line) as [r| |]; simpl in Hout; try done.
    destruct (concat_mapM (survivors ops) lines) as [zs| |] eqn:Hzs;
      simpl in Hout; try done.
    inversion Hout; subst. simpl. rewrite (IH zs true eq_refl). simpl.
    destruct touched, r as [[rel tup]|]; simpl; done.
Qed.

Lemma dedup_elem {A} `{EqDecision A} (seen values : list A) v :
  v ∈ dedup seen values <-> v ∈ values /\ v ∉ seen.
Proof.
  revert seen. induction values as [|x values IH]; intros seen; simpl.
  - split; [intros H; by apply elem_of_nil in H | intros [H _]; by apply elem_of_nil in H].
  - destruct (decide (x ∈ seen)) as [Hx|Hx].
    + rewrite IH, elem_of_cons. split; [intros [? ?]; by auto|].
      intros [[->|?] ?]; [done | by split].
    + rewrite !elem_of_cons, IH, not_elem_of_cons. split.
      * intros [->|(? & ? & ?)]; [split; [by left | done] | split; [by right | done]].
      * intros [[->|?] ?]; [by left|].
        destruct (decide (v = x)) as [->|?]; [by left | right; by repeat split].
Qed.

Lemma ChainedTask_reducer_elem key values rel v :
  values <> [] ->
  exists out, ChainedTask_reducer key values = Ok out /\
    ((rel, v) ∈ out <-> key <> touch_key /\ rel = key /\ v ∈ values).
Proof.
  intros Hne. unfold ChainedTask_reducer.
  destruct (String.eqb_spec key touch_key) as [->|Hk].
  - exists []. split; [done|]. split; [intros H; by apply elem_of_nil in H|].
    by intros [? _].
  - eexists. split; [reflexivity|].
    assert (Hd : dedup [] values <> []).
    { destruct values as [|x values]; [done|]. simpl.
      destruct (decide (x ∈ [])) as [H|_]; [by apply elem_of_nil in H | done]. }
    destruct (dedup [] values) as [|d ds] eqn:E; [done|].
    rewrite app_nil_r, <- E, list_elem_of_fmap. split.
    + intros (v' & [= -> ->] & Hin). apply dedup_elem in Hin as [Hin _]. done.
    + intros (_ & -> & Hin). exists v. split; [done|]. apply dedup_elem.
      split; [done | apply not_elem_of_nil].
Qed.


End SelectRenameChains.

(** ** Resolution of a projected attribute *)

Section ProjectResolution.
Import Ra2mr.

(** X28.  [ProjectTask.mapper] resolves a projected attribute in the same
    order: the exact name, else the first key that matches the column
    name by suffix, else nothing.  The project branch of
    [ChainedTask.mapper] has no exact step. *)
Lemma ProjectTask_project_precedence (a : attrref) (tup : tuple) :
  NoDup tup.*1 ->
  let matches k := Str.suffix_match (attr_name a) k = true in
  (forall v, (str_attr a, v) ∈ tup ->
             ProjectTask_project [a] tup = [(str_attr a, v)]) /\
  (str_attr a ∉ tup.*1 ->
   forall pre k v post,
     tup = pre ++ (k, v) :: post -> matches k ->
     Forall (fun kv => ~ matches kv.1) pre ->
     ProjectTask_project [a] tup = [(k, v)]) /\
  (str_attr a ∉ tup.*1 ->
   (forall k, k ∈ tup.*1 -> ~ matches k) ->
   ProjectTask_project [a] tup = []) /\
  (forall pre k v post,
     tup = pre ++ (k, v) :: post -> matches k ->
     Forall (fun kv => ~ matches kv.1) pre ->
     chain_project [a] tup = [(k, v)]).
Proof.
  intros Hnd matches.
  assert (Hfind : forall pre k v post,
            tup = pre ++ (k, v) :: post -> matches k ->
            Forall (fun kv => ~ matches kv.1) pre ->
            Dict.find_key (Str.suffix_match (attr_name a)) tup = Some (k, v)).
  { intros pre k v post Htup Hk Hpre.
    eapply find_key_first; [exact Htup | exact Hk |].
    eapply Forall_impl; [exact Hpre|]. intros kv H. simpl in H.
    unfold matches in H. by destruct (Str.suffix_match _ _). }
  unfold ProjectTask_project, chain_project. simpl.
  split; [|split; [|split]].
  - intros v Hin. by rewrite (get_Some_elem _ _ _ Hnd Hin).
  - intros Hno pre k v post Htup Hk Hpre.
    apply get_None_iff in Hno. rewrite Hno.
    by rewrite (Hfind pre k v post Htup Hk Hpre).
  - intros Hno Hnone. apply get_None_iff in Hno. rewrite Hno.
    rewrite find_key_None; [done|].
    apply Forall_forall. intros [k v] Hin. simpl.
    specialize (Hnone k). unfold matches in Hnone.
    destruct (Str.suffix_match _ _) eqn:E; [|done].
    exfalso. apply Hnone; [|done]. apply list_elem_of_fmap. by exists (k, v).
  - intros pre k v post Htup Hk Hpre.
    by rewrite (Hfind pre k v post Htup Hk Hpre).
Qed.

End ProjectResolution.

(** * Further properties of the code *)

(** ** Dictionaries: assignment and merge *)

Section DictLaws.
Context {V : Type}.
Implicit Types (d l r : Dict.dict V) (k : string) (v : V).

Lemma get_set_eq k v d : Dict.get k (Dict.set k v d) = Some v.
Proof.
  induction d as [|[k0 v0] d IH]; simpl.
  - by rewrite String.eqb_refl.
  - destruct (String.eqb_spec k0 k) as [->|Hne]; simpl.
    + by rewrite String.eqb_refl.
    + destruct (String.eqb_spec k0 k); [done | exact IH].
Qed.

Lemma get_set_ne k k' v d : k' <> k -> Dict.get k' (Dict.set k v d) = Dict.get k' d.
Proof.
  intros Hne. induction d as [|[k0 v0] d IH]; simpl.
  - destruct (String.eqb_spec k k'); [congruence | done].
  - destruct (String.eqb_spec k0 k) as [->|Hne0]; simpl.
    + destruct (String.eqb_spec k k'); [congruence | done].
    + destruct (String.eqb_spec k0 k'); [done | exact IH].
Qed.

Lemma set_keys_list k v d :
  (Dict.set k v d).*1 = if decide (k ∈ d.*1) then d.*1 else d.*1 ++ [k].
Proof.
  induction d as [|[k0 v0] d IH].
  - match goal with |- context [decide ?P] => destruct (decide P) as [Hin|_] end;
      [by apply elem_of_nil in Hin | done].
  - cbn [Dict.set]. rewrite fmap_cons. cbn [fst].
    destruct (String.eqb_spec k0 k) as [->|Hne]; rewrite fmap_cons; cbn [fst].
    + match goal with |- context [decide ?P] => destruct (decide P) as [_|Hn] end;
        [done|]. exfalso. apply Hn. left.
    + rewrite IH.
      destruct (decide (k ∈ d.*1)) as [Hin|Hnin];
        match goal with |- context [decide ?P] => destruct (decide P) as [Hin'|Hnin'] end;
        try done.
      * exfalso. apply Hnin'. by right.
      * apply elem_of_cons in Hin' as [?|?]; congruence.
Qed.

Lemma set_NoDup k v d : NoDup d.*1 -> NoDup (Dict.set k v d).*1.
Proof.
  intros Hnd. rewrite set_keys_list. destruct (decide (k ∈ d.*1)); [done|].
  apply NoDup_app. split; [done|]. split; [|apply NoDup_singleton].
  intros x Hx Hx'. apply list_elem_of_singleton in Hx'. by subst.
Qed.

Lemma merge_snoc l r k v :
  Dict.merge l (r ++ [(k, v)]) = Dict.set k v (Dict.merge l r).
Proof. unfold Dict.merge. by rewrite fold_left_app. Qed.

Lemma merge_NoDup l r : NoDup l.*1 -> NoDup (Dict.merge l r).*1.
Proof.
  intros Hl. induction r as [|[k v] r IH] using rev_ind; [done|].
  rewrite merge_snoc. by apply set_NoDup.
Qed.

Lemma get_app_None k d1 d2 :
  Dict.get k d1 = None -> Dict.get k (d1 ++ d2) = Dict.get k d2.
Proof.
  induction d1 as [|[k0 v0] d1 IH]; simpl; [done|].
  destruct (String.eqb_spec k0 k); [done | exact IH].
Qed.

Lemma get_app_Some k v d1 d2 :
  Dict.get k d1 = Some v -> Dict.get k (d1 ++ d2) = Some v.
Proof.
  induction d1 as [|[k0 v0] d1 IH]; simpl; [done|].
  destruct (String.eqb_spec k0 k); [done | exact IH].
Qed.

(** X1.  [{**l, **r}]: under every key the merged dictionary holds the
    value of [r] when [r] has the key, and the value of [l] otherwise;
    its keys are those of [l] and [r]; it is a dictionary when [l] is. *)
Theorem merge_right_overwrites l r k :
  NoDup r.*1 ->
  Dict.get k (Dict.merge l r)
  = match Dict.get k r with Some v => Some v | None => Dict.get k l end /\
  (k ∈ (Dict.merge l r).*1 <-> k ∈ l.*1 \/ k ∈ r.*1) /\
  (NoDup l.*1 -> NoDup (Dict.merge l r).*1).
Proof.
  intros Hr. split; [|split; [|apply merge_NoDup]].
  - induction r as [|[k0 v0] r IH] using rev_ind; [done|].
    rewrite fmap_app in Hr. apply NoDup_app in Hr as (Hr & Hdisj & _).
    rewrite merge_snoc. destruct (decide (k = k0)) as [->|Hne].
    + rewrite get_set_eq.
      assert (Hno : Dict.get k0 r = None).
      { apply get_None_iff. intros Hin. apply (Hdisj k0 Hin). left. }
      rewrite (get_app_None _ _ _ Hno). simpl. by rewrite String.eqb_refl.
    + rewrite get_set_ne by done. rewrite (IH Hr).
      destruct (Dict.get k r) as [v|] eqn:Hg.
      * by rewrite (get_app_Some _ _ _ _ Hg).
      * rewrite (get_app_None _ _ _ Hg). simpl.
        destruct (String.eqb_spec k0 k); [congruence | done].
  - clear Hr. induction r as [|[k0 v0] r IH] using rev_ind.
    + simpl. split; [by left | intros [?|H]; [done | by apply elem_of_nil in H]].
    + rewrite merge_snoc, set_keys, IH, fmap_app, elem_of_app. simpl.
      rewrite list_elem_of_singleton. tauto.
Qed.

End DictLaws.

Lemma merge_right_overwrites_witness :
  Dict.get "id" (Dict.merge [("id", 1); ("name", 2)] [("id", 10); ("pid", 1)])
  = Some 10.
Proof.
  assert (Hnd : NoDup [("id", 10); ("pid", 1)].*1) by by_compute.
  destruct (merge_right_overwrites [("id", 1); ("name", 2)] _ "id" Hnd)
    as (Hget & _).
  exact Hget.
Defined.

(** ** The join job: records without a key *)

Section JoinKeys.
Import Eval Ra2mr.

(** X2.  A record on which no equality of the condition finds a value
    gets no key and takes no part in the join.  In particular a join
    whose condition has no top-level equality between two attributes
    writes nothing, whatever its input and whatever the condition says. *)
Theorem JoinTask_job_without_key (left right : node) (cond : valexpr)
    (lines : list record) :
  (collect_eq_pairs cond = [] \/
   forall line, line ∈ lines -> mapper_key cond line.2 = None) ->
  JoinTask_job left right cond lines = Ok [].
Proof.
  intros Hnone.
  assert (Hkeys : forall line, line ∈ lines -> mapper_key cond line.2 = None).
  { destruct Hnone as [Hnil|H]; [|done]. intros line _.
    unfold mapper_key, join_vals. by rewrite Hnil. }
  unfold JoinTask_job.
  rewrite (concat_mapM_nil (JoinTask_mapper cond) lines).
  - reflexivity.
  - intros [rel tup] Hin. unfold JoinTask_mapper.
    specialize (Hkeys (rel, tup) Hin). simpl in Hkeys. by rewrite Hkeys.
Qed.

Definition person_older : valexpr :=
  ValExprBinaryOp (AttrRef (AttrRefOf (Some "Person") "id")) LT
                  (AttrRef (AttrRefOf (Some "Dept") "pid")).

Lemma JoinTask_job_without_key_witness :
  JoinTask_job (RelRef "Person") (RelRef "Dept") person_older
               (person_rows ++ dept_rows) = Ok [].
Proof.
  apply (JoinTask_job_without_key (RelRef "Person") (RelRef "Dept") person_older
           (person_rows ++ dept_rows)).
  left. reflexivity.
Defined.

End JoinKeys.

(** witnesses of the general lemmas on the join job *)

Section JoinWitnesses.
Import Eval Ra2mr.

Definition dept_pid_is_person_id : valexpr :=
  ValExprBinaryOp (AttrRef (AttrRefOf (Some "Dept") "pid")) EQ
                  (AttrRef (AttrRefOf (Some "Person") "id")).

Definition ana_in_dept_10 : tuple :=
  [("Dept.id", VInt 10); ("Dept.pid", VInt 1);
   ("Person.id", VInt 1); ("Person.name", VStr "Ana")].

Definition bob_in_dept_20 : tuple :=
  [("Dept.id", VInt 20); ("Dept.pid", VInt 2);
   ("Person.id", VInt 2); ("Person.name", VStr "Bob")].

Lemma person_dept_job :
  JoinTask_job (RelRef "Person") (RelRef "Dept") dept_pid_is_person_id
               (person_rows ++ dept_rows)
  = Ok [("Person", ana_in_dept_10); ("Person", bob_in_dept_20)].
Proof. vm_compute. reflexivity. Qed.

Lemma JoinTask_job_output_witness :
  label_of (rels (RelRef "Person")) "Person" /\
  exists k ll l rl r,
    (ll, l) ∈ person_rows ++ dept_rows /\ (rl, r) ∈ person_rows ++ dept_rows /\
    mapper_text dept_pid_is_person_id l = Some k /\
    mapper_text dept_pid_is_person_id r = Some k /\
    holds dept_pid_is_person_id (Dict.merge l r) = Ok true /\
    ana_in_dept_10 = Dict.sort_keys (Dict.merge l r).
Proof.
  destruct (proj1 (JoinTask_job_output (RelRef "Person") (RelRef "Dept")
                     dept_pid_is_person_id _ _ person_dept_job)
                  "Person" ana_in_dept_10)
    as (Hlabel & k & ll & l & rl & r & H1 & H2 & H3 & H4 & _ & _ & H5 & H6).
  - left.
  - split; [done|]. by exists k, ll, l, rl, r.
Defined.

(** Two records that meet through the text of their keys: the one value
    of the first is the JSON text of the two values of the second.  The
    shuffle puts them in one group, and the reducer evaluates [1 < "b"]
    on their merge. *)
Definition x_y_z_w_q_r : valexpr :=
  ValExprBinaryOp
    (ValExprBinaryOp
       (ValExprBinaryOp (AttrRef (AttrRefOf (Some "A") "x")) EQ
                        (AttrRef (AttrRefOf (Some "B") "y")))
       AND
       (ValExprBinaryOp (AttrRef (AttrRefOf (Some "A") "z")) EQ
                        (AttrRef (AttrRefOf (Some "B") "w"))))
    AND
    (ValExprBinaryOp (AttrRef (AttrRefOf (Some "A") "q")) LT
                     (AttrRef (AttrRefOf (Some "B") "r"))).

Lemma JoinTask_job_groups_by_key_text :
  let a : record :=
    ("A", [("A.x", VStr (json_dumps_strings ["1"; "k"]));
           ("A.q", VInt 1); ("A.r", VInt 2)]) in
  let b : record :=
    ("B", [("B.x", VInt 1); ("B.y", VStr (json_dumps_strings ["1"; "k"]));
           ("B.z", VStr "k"); ("B.w", VStr "k");
           ("B.q", VStr "a"); ("B.r", VStr "b")]) in
  mapper_key x_y_z_w_q_r a.2 = Some (KeyOne (json_dumps_strings ["1"; "k"])) /\
  mapper_key x_y_z_w_q_r b.2 = Some (KeyMany ["1"; "k"]) /\
  mapper_text x_y_z_w_q_r a.2 = mapper_text x_y_z_w_q_r b.2 /\
  JoinTask_job (RelRef "A") (RelRef "B") x_y_z_w_q_r [a; b] = Raise TypeError.
Proof. repeat split; vm_compute; reflexivity. Qed.

Lemma JoinTask_job_ok_witness :
  exists out,
    JoinTask_job (RelRef "Person") (RelRef "Dept") dept_pid_is_person_id
                 (person_rows ++ dept_rows) = Ok out.
Proof.
  apply (JoinTask_job_ok (RelRef "Person") (RelRef "Dept") dept_pid_is_person_id
           (person_rows ++ dept_rows)).
  intros k ll l rl r Hl Hr _ _.
  assert (Hall : Forall (fun x : record => Forall (fun y : record =>
            exists b, holds dept_pid_is_person_id (Dict.merge x.2 y.2) = Ok b)
            (person_rows ++ dept_rows)) (person_rows ++ dept_rows)).
  { repeat constructor; by eexists. }
  exact (proj1 (Forall_forall _ _)
           (proj1 (Forall_forall _ _) Hall (ll, l) Hl) (rl, r) Hr).
Defined.

Lemma JoinTask_reducer_NoDup_witness :
  NoDup [("Person", ana_in_dept_10)].
Proof.
  apply (JoinTask_reducer_NoDup (RelRef "Person") (RelRef "Dept")
           dept_pid_is_person_id "1"
           [("Person", [("Person.id", VInt 1); ("Person.name", VStr "Ana")]);
            ("Person", [("Person.id", VInt 1); ("Person.name", VStr "Ana")]);
            ("Dept", [("Dept.id", VInt 10); ("Dept.pid", VInt 1)])]).
  vm_compute. reflexivity.
Defined.

Lemma JoinTask_job_empty_side_witness :
  JoinTask_job (RelRef "Person") (RelRef "Dept") dept_pid_is_person_id person_rows
  = Ok [].
Proof.
  apply (JoinTask_job_empty_side (RelRef "Person") (RelRef "Dept")
           dept_pid_is_person_id person_rows).
  right. intros line Hline.
  assert (Hall : Forall (fun line =>
            (classify (rels (RelRef "Person")) (rels (RelRef "Dept")) line).2 = [])
            person_rows) by (repeat constructor).
  exact (proj1 (Forall_forall _ _) Hall line Hline).
Defined.

End JoinWitnesses.

(** ** What the jobs write *)

Section JobOutputs.
Import Eval Ra2mr.

Lemma concat_mapM_NoDup {A B T} (f : A -> result (list B))
    (tag_in : A -> T) (tag_out : B -> T) xs out :
  concat_mapM f xs = Ok out ->
  NoDup (map tag_in xs) ->
  (forall x ys, x ∈ xs -> f x = Ok ys -> NoDup ys) ->
  (forall x ys y, x ∈ xs -> f x = Ok ys -> y ∈ ys -> tag_out y = tag_in x) ->
  NoDup out.
Proof.
  revert out. induction xs as [|x xs IH]; simpl; intros out Hout Hnd Heach Htag.
  - inversion Hout; subst. constructor.
  - destruct (f x) as [ys| |] eqn:Hfx; simpl in Hout; try done.
    destruct (concat_mapM f xs) as [zs| |] eqn:Hzs; simpl in Hout; try done.
    inversion Hout; subst. apply NoDup_cons in Hnd as [Hx Hnd].
    apply NoDup_app. split; [|split].
    + apply (Heach x); [left | done].
    + intros y Hy Hy'.
      apply (concat_mapM_elem _ _ _ _ Hzs) in Hy' as (x' & ys' & Hx' & Hfx' & Hy').
      apply Hx. apply list_elem_of_fmap. exists x'. split; [|done].
      rewrite <- (Htag x ys y); [|left|done|done].
      apply (Htag x' ys' y); [by right | done | done].
    + apply (IH zs eq_refl Hnd).
      * intros x' ys' Hx'. apply Heach. by right.
      * intros x' ys' y Hx'. apply Htag. by right.
Qed.

Lemma shuffle_keys_NoDup {K V} `{EqDecision K} (kvs : list (K * V)) :
  NoDup (map fst (Runner.shuffle kvs)).
Proof. apply (shuffle_grouped kvs). Qed.

Lemma dedup_NoDup {A} `{EqDecision A} (seen values : list A) :
  NoDup (dedup seen values).
Proof.
  revert seen. induction values as [|x values IH]; intros seen; simpl.
  - constructor.
  - destruct (decide (x ∈ seen)); [apply IH|].
    apply NoDup_cons. split; [|apply IH].
    intros Hin. apply dedup_elem in Hin as [_ Hn]. apply Hn. left.
Qed.

Lemma map_phase_survivors_ok ops lines touched kvs :
  ChainedTask_map_phase ops touched lines = Ok kvs ->
  exists surv, concat_mapM (survivors ops) lines = Ok surv.
Proof.
  revert touched kvs. induction lines as [|line lines IH]; simpl; intros touched kvs Hk.
  - by eexists.
  - unfold survivors at 1.
    destruct (apply_operations ops line) as [r| |]; simpl in *; try done.
    destruct (ChainedTask_map_phase ops true lines) as [zs| |] eqn:Hzs;
      simpl in Hk; try done.
    destruct (IH _ _ Hzs) as (surv & ->). simpl. by eexists.
Qed.

Lemma survivors_elem ops lines surv cur :
  concat_mapM (survivors ops) lines = Ok surv ->
  cur ∈ surv <-> exists line, line ∈ lines /\ apply_operations ops line = Ok (Some cur).
Proof.
  intros Hs. rewrite (concat_mapM_elem _ _ _ _ Hs). unfold survivors. split.
  - intros (line & ys & Hl & Hf & Hy). exists line. split; [done|].
    destruct (apply_operations ops line) as [[c|]| |]; simpl in Hf; inversion Hf; subst.
    + apply list_elem_of_singleton in Hy. by subst.
    + by apply elem_of_nil in Hy.
  - intros (line & Hl & Ha). exists line, [cur]. split; [done|].
    rewrite Ha. split; [done | left].
Qed.

(** X3.  The job of a ChainedTask, for any operations.
    - It ends without error exactly when the operations can be applied
      to every input record without error.
    - It then writes, once each, the records of the input that survive
      the operations, under their final label, with the tuple as sorted
      JSON text, and nothing else: no touch record, and no placeholder
      (a record with the label of the touch key is swallowed). *)
Theorem ChainedTask_job_output ops (lines : list record) :
  ((exists out, ChainedTask_job ops lines = Ok out) <->
   forall line, line ∈ lines -> exists r, apply_operations ops line = Ok r) /\
  forall out,
    ChainedTask_job ops lines = Ok out ->
    NoDup out /\
    forall k v,
      (k, v) ∈ out <->
      k <> touch_key /\
      exists line tup,
        line ∈ lines /\ apply_operations ops line = Ok (Some (k, tup)) /\
        v = Some (Dict.sort_keys tup).
Proof.
  assert (Hreduce : forall kvs : list (string * option tuple),
    exists fused,
      Runner.reduce_phase ChainedTask_reducer kvs = Ok fused /\
      NoDup fused /\
      forall k v, (k, v) ∈ fused <-> k <> touch_key /\ (k, v) ∈ kvs).
  { intros kvs. unfold Runner.reduce_phase.
    destruct (concat_mapM_ok (fun g : string * list (option tuple) =>
                ChainedTask_reducer g.1 g.2) (Runner.shuffle kvs)) as (fused & Hfused).
    { intros [k vs] Hg. apply shuffle_elem in Hg as [_ Hne].
      destruct (ChainedTask_reducer_elem k vs k None Hne) as (o & Ho & _). by exists o. }
    exists fused. split; [done|]. split.
    - apply (concat_mapM_NoDup _ fst fst _ _ Hfused).
      + apply shuffle_keys_NoDup.
      + intros [k vs] ys Hg Hred. simpl in Hred. unfold ChainedTask_reducer in Hred.
        destruct (String.eqb k touch_key); inversion Hred; subst; [constructor|].
        apply shuffle_elem in Hg as [_ Hne].
        assert (Hd : dedup [] vs <> []).
        { destruct vs as [|x vs]; [done|]. simpl.
          destruct (decide (x ∈ [])) as [H|_]; [by apply elem_of_nil in H | done]. }
        destruct (dedup [] vs) as [|d ds] eqn:E; [done|].
        rewrite app_nil_r, <- E. apply NoDup_fmap_2; [|apply dedup_NoDup].
        by intros ? ? [= ->].
      + intros [k vs] ys [k' v'] Hg Hred Hin. simpl in *.
        apply shuffle_elem in Hg as [_ Hne].
        destruct (ChainedTask_reducer_elem k vs k' v' Hne) as (o & Ho & Hiff).
        rewrite Ho in Hred. inversion Hred; subst o.
        by apply Hiff in Hin as (_ & -> & _).
    - intros k v. rewrite (concat_mapM_elem _ _ _ _ Hfused). split.
      + intros ([k' vs] & ys & Hg & Hred & Hin). simpl in Hred.
        apply shuffle_elem in Hg as [-> Hne].
        destruct (ChainedTask_reducer_elem k' (values_for k' kvs) k v Hne)
          as (o & Ho & Hiff).
        rewrite Ho in Hred. inversion Hred; subst o.
        apply Hiff in Hin as (Hk & -> & Hin). split; [done|].
        by apply values_for_elem.
      + intros [Hk Hin].
        assert (Hv : v ∈ values_for k kvs) by (by apply values_for_elem).
        assert (Hne : values_for k kvs <> []).
        { intros Hnil. rewrite Hnil in Hv. by apply elem_of_nil in Hv. }
        destruct (ChainedTask_reducer_elem k (values_for k kvs) k v Hne)
          as (o & Ho & Hiff).
        exists (k, values_for k kvs), o. split; [by apply shuffle_elem|].
        split; [done|]. by apply Hiff. }
  split.
  - unfold ChainedTask_job. split.
    + intros (out & Hout) line Hline.
      destruct (ChainedTask_map_phase ops false lines) as [kvs| |] eqn:Hk;
        simpl in Hout; try done.
      destruct (map_phase_survivors_ok _ _ _ _ Hk) as (surv & Hs).
      destruct (concat_mapM_each _ _ _ _ Hs Hline) as (ys & Hys).
      unfold survivors in Hys.
      destruct (apply_operations ops line) as [r| |]; simpl in Hys; try done.
      by exists r.
    + intros Hall.
      destruct (concat_mapM_ok (survivors ops) lines) as (surv & Hs).
      { intros line Hline. destruct (Hall line Hline) as (r & Hr).
        unfold survivors. rewrite Hr. simpl. by eexists. }
      rewrite (map_phase_survivors _ _ _ false Hs).
      cbn [mbind result_bind Py.bind].
      destruct (Hreduce ((match lines with [] => [] | _ :: _ => [(touch_key, None)] end)
                         ++ map emitted surv)) as (fused & Hf & _).
      by exists fused.
  - intros out Hout. unfold ChainedTask_job in Hout.
    destruct (ChainedTask_map_phase ops false lines) as [kvs| |] eqn:Hk;
      simpl in Hout; try done.
    destruct (map_phase_survivors_ok _ _ _ _ Hk) as (surv & Hs).
    rewrite (map_phase_survivors _ _ _ false Hs) in Hk. inversion Hk; subst kvs.
    destruct (Hreduce ((match lines with [] => [] | _ :: _ => [(touch_key, None)] end)
                       ++ map emitted surv)) as (fused & Hf & Hnd & Helem).
    rewrite Hf in Hout. inversion Hout; subst fused.
    split; [done|]. intros k v. rewrite Helem. split.
    + intros [Hne Hin]. split; [done|].
      apply elem_of_app in Hin as [Hin|Hin].
      * destruct lines; [by apply elem_of_nil in Hin|].
        apply list_elem_of_singleton in Hin. by inversion Hin.
      * apply list_elem_of_fmap in Hin as ([k' tup] & [= -> ->] & Hin).
        apply (survivors_elem _ _ _ _ Hs) in Hin as (line & Hl & Ha).
        by exists line, tup.
    + intros (Hne & line & tup & Hl & Ha & ->). split; [done|].
      apply elem_of_app. right. apply list_elem_of_fmap. exists (k, tup).
      split; [done|]. apply (survivors_elem _ _ _ _ Hs). by exists line.
Qed.

Definition select_id_1_project_name : list operation :=
  [OpSelect id_is_1; OpProject [AttrRefOf None "name"]].

Lemma ChainedTask_job_output_witness :
  NoDup [("Person", Some [("Person.name", VStr "Ana")])] /\
  exists line tup,
    line ∈ person_rows /\
    apply_operations select_id_1_project_name line = Ok (Some ("Person", tup)) /\
    Some [("Person.name", VStr "Ana")] = Some (Dict.sort_keys tup).
Proof.
  destruct (ChainedTask_job_output select_id_1_project_name person_rows)
    as (_ & Hout).
  destruct (Hout [("Person", Some [("Person.name", VStr "Ana")])]) as (Hnd & Helem).
  - vm_compute. reflexivity.
  - split; [exact Hnd|].
    destruct (proj1 (Helem "Person" (Some [("Person.name", VStr "Ana")])))
      as (_ & line & tup & H); [left|]. by exists line, tup.
Defined.

(** the label the reducer of ProjectTask gives to a projected tuple *)
Definition project_label (key : tuple) : string :=
  match Dict.find_key Str.has_dot key with
  | Some (k, _) => Str.before_dot k
  | None => "result"
  end.

(** X4.  The job of a ProjectTask never fails.  It writes one record for
    every distinct projected tuple of its input (as sorted JSON text),
    so no tuple twice; the label of the input records is dropped, and
    the record is labelled with the qualifier of the first qualified key
    of the projected tuple, or [result] when it has none. *)
Theorem ProjectTask_job_output attrs (lines : list record) :
  exists out,
    ProjectTask_job attrs lines = Ok out /\
    NoDup out.*2 /\
    forall rel t,
      (rel, t) ∈ out <->
      rel = project_label t /\
      exists line, line ∈ lines /\
                   t = Dict.sort_keys (ProjectTask_project attrs line.2).
Proof.
  unfold ProjectTask_job.
  destruct (concat_mapM_ok (ProjectTask_mapper attrs) lines) as (kvs & Hkvs).
  { intros [rel tup] _. by eexists. }
  rewrite Hkvs. cbn [mbind result_bind Py.bind]. unfold Runner.reduce_phase.
  destruct (concat_mapM_ok (fun g : tuple * list unit =>
              ProjectTask_reducer g.1 g.2) (Runner.shuffle kvs)) as (out & Hout).
  { intros [k vs] _. by eexists. }
  exists out. split; [done|].
  assert (Hk : forall t u, (t, u) ∈ kvs <->
            exists line, line ∈ lines /\
                         t = Dict.sort_keys (ProjectTask_project attrs line.2)).
  { intros t u. rewrite (concat_mapM_elem _ _ _ _ Hkvs). split.
    - intros ([rel tup] & ys & Hl & Hf & Hy). inversion Hf; subst.
      apply list_elem_of_singleton in Hy. inversion Hy; subst.
      by exists (rel, tup).
    - intros ([rel tup] & Hl & ->). exists (rel, tup). eexists.
      split; [done|]. split; [reflexivity|]. destruct u. left. }
  assert (Helem : forall rel t, (rel, t) ∈ out <->
            rel = project_label t /\ exists vs, (t, vs) ∈ Runner.shuffle kvs).
  { intros rel t. rewrite (concat_mapM_elem _ _ _ _ Hout). split.
    - intros ([k vs] & ys & Hg & Hred & Hin). inversion Hred; subst.
      apply list_elem_of_singleton in Hin. inversion Hin; subst.
      split; [done|]. by exists vs.
    - intros (-> & vs & Hg). exists (t, vs). eexists.
      split; [done|]. split; [reflexivity|]. left. }
  split.
  - assert (Hfst : out.*2 = (Runner.shuffle kvs).*1).
    { clear -Hout. revert out Hout.
      induction (Runner.shuffle kvs) as [|[k vs] gs IH]; intros out Hout.
      - by inversion Hout.
      - simpl in Hout.
        destruct (concat_mapM _ gs) as [zs| |]; simpl in Hout; try done.
        inversion Hout; subst. rewrite !fmap_cons. cbn [fst snd].
        f_equal. by apply IH. }
    rewrite Hfst. apply shuffle_keys_NoDup.
  - intros rel t. rewrite Helem. split.
    + intros (-> & vs & Hg). split; [done|].
      apply shuffle_elem in Hg as [-> Hne].
      destruct (values_for t kvs) as [|u us] eqn:E; [done|].
      assert (Hu : u ∈ values_for t kvs) by (rewrite E; left).
      apply values_for_elem in Hu. by apply (Hk t u).
    + intros (-> & line & Hl & ->). split; [done|].
      exists (values_for (Dict.sort_keys (ProjectTask_project attrs line.2)) kvs).
      apply shuffle_elem. split; [done|].
      assert (Hu : tt ∈ values_for
                (Dict.sort_keys (ProjectTask_project attrs line.2)) kvs).
      { apply values_for_elem, Hk. by exists line. }
      intros Hnil. rewrite Hnil in Hu. by apply elem_of_nil in Hu.
Qed.

(** X5.  The job of a SelectTask ends without error exactly when the
    condition can be evaluated on every input record; it then writes the
    records on which the condition is truthy, unchanged and in the order
    of the input. *)
Theorem SelectTask_job_filter cond (lines : list record) :
  ((exists out, SelectTask_job cond lines = Ok out) <->
   forall line, line ∈ lines -> exists b, holds cond line.2 = Ok b) /\
  forall out,
    SelectTask_job cond lines = Ok out ->
    out = filter (fun line => holds cond line.2 = Ok true) lines.
Proof.
  unfold SelectTask_job. split; [split|].
  - intros (out & Hout) [rel tup] Hl.
    destruct (concat_mapM_each _ _ _ _ Hout Hl) as (ys & Hys). simpl in *.
    destruct (holds cond tup) as [b| |]; simpl in Hys; try done. by exists b.
  - intros Hall. apply concat_mapM_ok. intros [rel tup] Hl.
    destruct (Hall _ Hl) as (b & Hb). simpl in *. rewrite Hb. by eexists.
  - induction lines as [|[rel tup] lines IH]; simpl; intros out Hout.
    + by inversion Hout.
    + destruct (holds cond tup) as [b| |] eqn:Hb; simpl in Hout; try done.
      destruct (concat_mapM (SelectTask_mapper cond) lines) as [zs| |];
        simpl in Hout; try done.
      inversion Hout; subst. rewrite (IH zs eq_refl).
      rewrite filter_cons. simpl. rewrite Hb.
      destruct b; [by rewrite decide_True | by rewrite decide_False].
Qed.

Lemma SelectTask_job_filter_witness :
  [("Person", [("Person.id", VInt 1); ("Person.name", VStr "Ana")])]
  = filter (fun line : record => holds id_is_1 line.2 = Ok true) person_rows.
Proof.
  destruct (SelectTask_job_filter id_is_1 person_rows) as (_ & Hout).
  apply Hout. vm_compute. reflexivity.
Defined.

End JobOutputs.

(** ** The scalar evaluator *)

Section Evaluator.
Import Eval.

(** X6.  A null or missing attribute in a comparison.  When an attribute
    resolves to nothing (it is absent from the tuple, or holds null), an
    ordering comparison with it raises a [TypeError], on either side,
    whatever the other operand; an equality test with it does not fail:
    it is true only if the other operand is [None] as well. *)
Theorem comparison_with_unresolved_attribute
    (a : attrref) (c : valexpr) (tup : tuple) (v : value) (op : sym) :
  lookup a tup = VNone ->
  eval_cond c tup = Ok v ->
  (op ∈ [LT; LE; GT; GE] ->
   eval_cond (ValExprBinaryOp (AttrRef a) op c) tup = Raise TypeError /\
   eval_cond (ValExprBinaryOp c op (AttrRef a)) tup = Raise TypeError) /\
  holds (ValExprBinaryOp (AttrRef a) EQ c) tup = Ok (bool_decide (v = VNone)) /\
  holds (ValExprBinaryOp c EQ (AttrRef a)) tup = Ok (bool_decide (v = VNone)) /\
  holds (ValExprBinaryOp (AttrRef a) NE c) tup = Ok (negb (bool_decide (v = VNone))).
Proof.
  intros Ha Hc. split; [|split; [|split]].
  - intros Hop. simpl. rewrite Ha, Hc. simpl.
    repeat (apply elem_of_cons in Hop as [->|Hop]);
      try (by apply elem_of_nil in Hop); by destruct v as [|[]|z|s].
  - unfold holds. simpl. rewrite Ha, Hc. simpl. by destruct v as [|[]|z|s].
  - unfold holds. simpl. rewrite Ha, Hc. simpl. by destruct v as [|[]|z|s].
  - unfold holds. simpl. rewrite Ha, Hc. simpl. by destruct v as [|[]|z|s].
Qed.

Lemma comparison_with_unresolved_attribute_witness :
  eval_cond (ValExprBinaryOp (AttrRef (AttrRefOf None "age")) LT (RANumber "5"))
            [("name", VStr "Ana")] = Raise TypeError /\
  eval_cond (ValExprBinaryOp (RANumber "5") LT (AttrRef (AttrRefOf None "age")))
            [("name", VStr "Ana")] = Raise TypeError.
Proof.
  apply (comparison_with_unresolved_attribute
           (AttrRefOf None "age") (RANumber "5") [("name", VStr "Ana")] (VInt 5) LT);
    [reflexivity | reflexivity | by_compute].
Defined.

Lemma holds_or l r tup :
  holds (ValExprBinaryOp l OR r) tup
  = (b ← holds l tup; bs ← holds r tup; Ok (b || bs)).
Proof.
  unfold holds. simpl.
  destruct (eval_cond l tup) as [vl| |]; simpl; try done.
  destruct (eval_cond r tup) as [vr| |]; simpl; try done.
  destruct (truthy vl) eqn:E; simpl; by rewrite ?E.
Qed.

(** X7.  [AND] and [OR] evaluate both operands, always.  The truth value
    of the result is the conjunction (disjunction) of the truth values of
    the operands; an error in the right operand is raised even when the
    left operand alone decides the result; and when the evaluation
    succeeds, exchanging the operands gives the same truth value. *)
Theorem and_or_evaluate_both_operands (l r : valexpr) (tup : tuple) :
  holds (ValExprBinaryOp l AND r) tup
  = (b ← holds l tup; bs ← holds r tup; Ok (b && bs)) /\
  holds (ValExprBinaryOp l OR r) tup
  = (b ← holds l tup; bs ← holds r tup; Ok (b || bs)) /\
  (forall b e, holds l tup = Ok b -> eval_cond r tup = Raise e ->
     eval_cond (ValExprBinaryOp l AND r) tup = Raise e /\
     eval_cond (ValExprBinaryOp l OR r) tup = Raise e) /\
  (forall b, holds (ValExprBinaryOp l AND r) tup = Ok b ->
     holds (ValExprBinaryOp r AND l) tup = Ok b) /\
  (forall b, holds (ValExprBinaryOp l OR r) tup = Ok b ->
     holds (ValExprBinaryOp r OR l) tup = Ok b).
Proof.
  split; [apply holds_and|]. split; [apply holds_or|]. split; [|split].
  - intros b e Hl Hr. unfold holds in Hl. simpl.
    destruct (eval_cond l tup) as [vl| |]; simpl in *; try done.
    by rewrite Hr.
  - intros b. rewrite !holds_and.
    destruct (holds l tup) as [bl| |]; simpl; try done;
      destruct (holds r tup) as [br| |]; simpl; try done.
    by rewrite andb_comm.
  - intros b. rewrite !holds_or.
    destruct (holds l tup) as [bl| |]; simpl; try done;
      destruct (holds r tup) as [br| |]; simpl; try done.
    by rewrite orb_comm.
Qed.

Lemma and_or_evaluate_both_operands_witness :
  eval_cond
    (ValExprBinaryOp
       (ValExprBinaryOp (AttrRef (AttrRefOf None "name")) EQ (RAString "'Bob'"))
       AND
       (ValExprBinaryOp (AttrRef (AttrRefOf None "age")) LT (RANumber "5")))
    [("name", VStr "Ana")] = Raise TypeError.
Proof.
  destruct (and_or_evaluate_both_operands
              (ValExprBinaryOp (AttrRef (AttrRefOf None "name")) EQ (RAString "'Bob'"))
              (ValExprBinaryOp (AttrRef (AttrRefOf None "age")) LT (RANumber "5"))
              [("name", VStr "Ana")]) as (_ & _ & Hraise & _).
  apply (Hraise false TypeError); reflexivity.
Defined.

Lemma last_char_snoc s q : Str.last_char (s +:+ String q "") = Some q.
Proof.
  induction s as [|c s IH]; simpl; [done|].
  rewrite IH. by destruct s.
Qed.

Lemma drop_last_snoc s q : Str.drop_last (s +:+ String q "") = s.
Proof.
  induction s as [|c s IH]; simpl; [done|].
  rewrite IH. by destruct s.
Qed.

Lemma string_of_uint_head d :
  d <> Decimal.Nil ->
  exists c s, NilEmpty.string_of_uint d = String c s /\
              c ∈ ["0"; "1"; "2"; "3"; "4"; "5"; "6"; "7"; "8"; "9"]%char.
Proof.
  destruct d; [done|..]; intros _; simpl; eexists _, _;
    (split; [reflexivity|]); by_compute.
Qed.

Lemma string_of_uint_no_dot d : Str.has_dot (NilEmpty.string_of_uint d) = false.
Proof. induction d; simpl; done. Qed.

Lemma nat_of_digits_pos p :
  Str.nat_of_digits (NilEmpty.string_of_uint (Pos.to_uint p)) = Some (Z.pos p).
Proof.
  unfold Str.nat_of_digits.
  destruct (string_of_uint_head (Pos.to_uint p) (Unsigned.to_uint_nonnil p))
    as (c & s & Hs & _).
  rewrite NilEmpty.usu. rewrite Hs. simpl.
  unfold Z.of_uint. by rewrite Unsigned.of_to.
Qed.

Lemma digit_head_facts c s :
  c ∈ ["0"; "1"; "2"; "3"; "4"; "5"; "6"; "7"; "8"; "9"]%char ->
  Str.quoted_by squote (String c s) = false /\
  Str.quoted_by dquote (String c s) = false /\
  Str.int_of_digits (String c s) = Str.nat_of_digits (String c s).
Proof.
  intros Hc.
  repeat (apply elem_of_cons in Hc as [->|Hc]);
    [..|by apply elem_of_nil in Hc]; by destruct s.
Qed.

Lemma py_str_pos_facts p :
  let s := NilEmpty.string_of_uint (Pos.to_uint p) in
  NilZero.string_of_uint (Pos.to_uint p) = s /\
  Str.quoted_by squote s = false /\ Str.quoted_by dquote s = false /\
  Str.has_dot s = false /\ Str.int_of_digits s = Some (Z.pos p).
Proof.
  intros s. subst s.
  pose proof (Unsigned.to_uint_nonnil p) as Hnn.
  destruct (string_of_uint_head _ Hnn) as (c & s & Hs & Hc).
  destruct (digit_head_facts c s Hc) as (Hq1 & Hq2 & Hi).
  split; [by destruct (Pos.to_uint p)|].
  pose proof (string_of_uint_no_dot (Pos.to_uint p)) as Hdot.
  pose proof (nat_of_digits_pos p) as Hd.
  rewrite Hs in *. rewrite Hi. done.
Qed.

Lemma literal_value_int z : literal_value true (py_str (VInt z)) = Ok (VInt z).
Proof.
  unfold literal_value. destruct z as [|p|p]; [done| |].
  - destruct (py_str_pos_facts p) as (Hs & Hq1 & Hq2 & Hdot & Hi).
    change (py_str (VInt (Z.pos p))) with (NilZero.string_of_uint (Pos.to_uint p)).
    rewrite Hs, Hq1, Hq2, Hdot, Hi. done.
  - destruct (py_str_pos_facts p) as (Hs & Hq1 & Hq2 & Hdot & Hi).
    change (py_str (VInt (Z.neg p)))
      with (String "-" (NilZero.string_of_uint (Pos.to_uint p))).
    rewrite Hs.
    assert (Hq : Str.quoted_by squote
                   (String "-" (NilEmpty.string_of_uint (Pos.to_uint p)))
                 || Str.quoted_by dquote
                      (String "-" (NilEmpty.string_of_uint (Pos.to_uint p))) = false).
    { by destruct (NilEmpty.string_of_uint (Pos.to_uint p)). }
    rewrite Hq.
    change (Str.has_dot (String "-" ?s)) with (Str.has_dot s). rewrite Hdot.
    assert (Hneg : Str.int_of_digits
                     (String "-" (NilEmpty.string_of_uint (Pos.to_uint p)))
                   = Some (Z.neg p)).
    { unfold Str.int_of_digits. simpl Ascii.eqb. cbv iota.
      pose proof (nat_of_digits_pos p) as Hd. rewrite Hd. done. }
    by rewrite Hneg.
Qed.

(** X8.  Literals.  A text between two single or two double quotes
    denotes the text between the quotes.  The decimal text of an integer,
    as [str] writes it, denotes that integer when it is read as a number
    literal; so two integers with the same text, as the join mapper uses
    it for its key, are equal. *)
Theorem literal_values :
  (forall number s q,
     q = squote \/ q = dquote ->
     literal_value number (String q (s +:+ String q "")) = Ok (VStr s)) /\
  (forall z, literal_value true (py_str (VInt z)) = Ok (VInt z)) /\
  (forall x y, py_str (VInt x) = py_str (VInt y) -> x = y).
Proof.
  split; [|split; [exact literal_value_int|]].
  - intros number s q Hq. unfold literal_value.
    assert (Hquoted : Str.quoted_by q (String q (s +:+ String q "")) = true).
    { unfold Str.quoted_by.
      destruct (s +:+ String q "") as [|c s'] eqn:E; [by destruct s|].
      rewrite <- E, last_char_snoc, Ascii.eqb_refl. simpl.
      by rewrite bool_decide_eq_true_2. }
    assert (Hstrip : Str.strip_ends (String q (s +:+ String q "")) = s).
    { simpl. apply drop_last_snoc. }
    destruct Hq as [->| ->]; rewrite Hquoted, ?orb_true_r; simpl orb;
      cbv iota; by rewrite Hstrip.
  - intros x y Hxy. pose proof (literal_value_int x) as Hx.
    rewrite Hxy, literal_value_int in Hx. by inversion Hx.
Qed.

Lemma literal_values_witness :
  literal_value false "'mushroom'" = Ok (VStr "mushroom").
Proof.
  destruct literal_values as (Hq & _).
  apply (Hq false "mushroom" squote). by left.
Defined.

End Evaluator.

(** ** Rename *)

Section RenameLaws.
Import Ra2mr.

Lemma set_fresh {V} (k : string) (v : V) (d : Dict.dict V) :
  k ∉ d.*1 -> Dict.set k v d = d ++ [(k, v)].
Proof.
  induction d as [|[k0 v0] d IH]; simpl; intros Hk; [done|].
  apply not_elem_of_cons in Hk as [Hne Hk].
  destruct (String.eqb_spec k0 k); [congruence|]. by rewrite IH.
Qed.

Lemma append_inj_l (p s t : string) : p +:+ s = p +:+ t -> s = t.
Proof. induction p as [|c p IH]; simpl; [done|]. intros [= H]. by apply IH. Qed.

Lemma has_dot_app (a s : string) :
  Str.has_dot (a +:+ "." +:+ s) = true.
Proof. induction a as [|c a IH]; simpl; [done|]. by destruct (Ascii.eqb c Str.dot). Qed.

Lemma after_first_dot_app (a s : string) :
  Str.has_dot a = false -> Str.after_first_dot (a +:+ "." +:+ s) = s.
Proof.
  induction a as [|c a IH]; simpl; [done|].
  destruct (Ascii.eqb c Str.dot); [done | exact IH].
Qed.

(** the key a rename gives to [k] *)
Definition rekey (new_name k : string) : string :=
  new_name +:+ "." +:+ Str.split1_last k.

Lemma rekey_inj new_name k1 k2 :
  rekey new_name k1 = rekey new_name k2 -> Str.split1_last k1 = Str.split1_last k2.
Proof. intros H. apply append_inj_l in H. by apply (append_inj_l ".") in H. Qed.

Lemma split1_last_rekey a k :
  Str.has_dot a = false -> Str.split1_last (rekey a k) = Str.split1_last k.
Proof.
  intros Ha. unfold rekey. unfold Str.split1_last at 1.
  by rewrite has_dot_app, after_first_dot_app.
Qed.

Lemma rename_fold_distinct new_name (tup acc : tuple) :
  NoDup (acc.*1 ++ map (fun kv => rekey new_name kv.1) tup) ->
  fold_left (fun renamed kv => Dict.set (rekey new_name kv.1) kv.2 renamed) tup acc
  = acc ++ map (fun kv => (rekey new_name kv.1, kv.2)) tup.
Proof.
  revert acc. induction tup as [|[k v] tup IH]; intros acc Hnd; simpl.
  - by rewrite app_nil_r.
  - simpl in Hnd.
    assert (Hk : rekey new_name k ∉ acc.*1).
    { apply NoDup_app in Hnd as (_ & Hdisj & _). intros Hin.
      apply (Hdisj _ Hin). left. }
    rewrite (set_fresh _ _ _ Hk), IH.
    + by rewrite <- app_assoc.
    + rewrite fmap_app. simpl. by rewrite <- app_assoc.
Qed.

(** renaming the keys of a dict by a function that is injective on the
    keys present commutes with an assignment *)
Lemma set_map_keys {V} (f : string -> string) (k : string) (v : V)
    (d : Dict.dict V) :
  (forall k', k' ∈ d.*1 -> f k' = f k -> k' = k) ->
  map (fun kv => (f kv.1, kv.2)) (Dict.set k v d)
  = Dict.set (f k) v (map (fun kv => (f kv.1, kv.2)) d).
Proof.
  induction d as [|[k0 v0] d IH]; intros Hinj; simpl; [done|].
  destruct (String.eqb_spec k0 k) as [->|Hne].
  - by rewrite String.eqb_refl.
  - destruct (String.eqb_spec (f k0) (f k)) as [Heq|_].
    + exfalso. apply Hne, Hinj; [left | done].
    + simpl. rewrite IH; [done|]. intros k' Hin. apply Hinj. by right.
Qed.

Lemma rename_fold_rekey a b (tup acc : tuple) :
  Str.has_dot a = false ->
  (forall k, k ∈ acc.*1 -> exists k0, k = rekey a k0) ->
  map (fun kv => (rekey b kv.1, kv.2))
    (fold_left (fun renamed kv => Dict.set (rekey a kv.1) kv.2 renamed) tup acc)
  = fold_left (fun renamed kv => Dict.set (rekey b kv.1) kv.2 renamed) tup
      (map (fun kv => (rekey b kv.1, kv.2)) acc).
Proof.
  intros Ha. revert acc. induction tup as [|[k v] tup IH]; intros acc Hacc; simpl; [done|].
  rewrite IH.
  - f_equal. rewrite (set_map_keys (rekey b)).
    + cbn [fst snd].
      assert (rekey b (rekey a k) = rekey b k) as ->; [|done].
      unfold rekey at 1 3. by rewrite (split1_last_rekey a k Ha).
    + intros k' Hin Heq. destruct (Hacc _ Hin) as [k0 ->].
      apply rekey_inj in Heq. rewrite !split1_last_rekey in Heq by done.
      unfold rekey. by rewrite Heq.
  - intros k' Hin. apply set_keys in Hin as [->|Hin]; [by exists k | by apply Hacc].
Qed.

Lemma rename_keys_NoDup new_name (tup : tuple) :
  NoDup (rename_keys new_name tup).*1.
Proof.
  unfold rename_keys.
  assert (H : forall acc : tuple, NoDup acc.*1 ->
    NoDup (fold_left (fun renamed kv =>
             Dict.set (new_name +:+ "." +:+ Str.split1_last kv.1) kv.2 renamed)
             tup acc).*1).
  { induction tup as [|[k v] tup IH]; intros acc Hacc; simpl; [done|].
    apply IH. by apply set_NoDup. }
  apply H. constructor.
Qed.

(** X9. [RenameTask.mapper] with an alias: the output dict never has a
    key twice; when the attribute names after the first dot are pairwise
    different, every entry is kept, in order, under the key
    [alias.suffix]; and when two keys share that suffix the output is
    shorter than the input (a later entry overwrites the earlier one). *)
Theorem rename_keeps_distinct_suffixes (new_name : string) (tup : tuple) :
  NoDup (rename_keys new_name tup).*1 /\
  (NoDup (map (fun kv => Str.split1_last kv.1) tup) ->
   rename_keys new_name tup
   = map (fun kv => (new_name +:+ "." +:+ Str.split1_last kv.1, kv.2)) tup) /\
  (~ NoDup (map (fun kv => Str.split1_last kv.1) tup) ->
   (length (rename_keys new_name tup) < length tup)%nat).
Proof.
  split; [apply rename_keys_NoDup|]. split.
  - intros Hnd. unfold rename_keys.
    pose proof (rename_fold_distinct new_name tup []) as Hfold.
    unfold rekey in Hfold at 2 3. apply Hfold. simpl.
    clear -Hnd. induction tup as [|[k v] tup IH]; simpl in *; [constructor|].
    apply NoDup_cons in Hnd as [Hk Hnd]. apply NoDup_cons. split; [|by apply IH].
    rewrite list_elem_of_fmap in *. intros ([k' v'] & Heq & Hin). apply Hk.
    exists (k', v'). split; [|done]. simpl in *. by apply rekey_inj in Heq.
  - intros Hdup.
    assert (Hsub : (rename_keys new_name tup).*1
                   ⊆+ map (fun kv => rekey new_name kv.1) tup).
    { apply NoDup_submseteq; [apply rename_keys_NoDup|].
      intros k' Hin. unfold rename_keys in Hin.
      apply rename_keys_acc in Hin as [Hin|(k & Hk & ->)];
        [by apply elem_of_nil in Hin|].
      apply list_elem_of_fmap in Hk as ([k0 v0] & -> & Hk).
      apply list_elem_of_fmap. by exists (k0, v0). }
    pose proof (submseteq_length _ _ Hsub) as Hlen.
    rewrite !length_fmap in Hlen.
    destruct (decide (length (rename_keys new_name tup) = length tup)) as [Heq|]; [|lia].
    exfalso. apply Hdup.
    apply submseteq_length_Permutation in Hsub; [|rewrite !length_fmap; lia].
    assert (Hnd : NoDup (map (fun kv => rekey new_name kv.1) tup)).
    { rewrite <- Hsub. apply rename_keys_NoDup. }
    clear -Hnd. induction tup as [|[k v] tup IH]; simpl in *; [constructor|].
    apply NoDup_cons in Hnd as [Hk Hnd]. apply NoDup_cons. split; [|by apply IH].
    rewrite list_elem_of_fmap in *. intros ([k' v'] & Heq & Hin). apply Hk.
    exists (k', v'). split; [|done]. simpl in *. unfold rekey. by rewrite Heq.
Qed.

Lemma rename_keys_keys_rekey a (tup : tuple) k :
  k ∈ (rename_keys a tup).*1 -> exists k0, k = rekey a k0.
Proof.
  unfold rename_keys. intros Hin.
  apply rename_keys_acc in Hin as [Hin|(k0 & _ & ->)];
    [by apply elem_of_nil in Hin | by exists k0].
Qed.

(** X10. Two renames in a row: when the first alias has no dot, renaming
    to [a] and then to [b] gives the same dict as renaming to [b]
    directly, also when attribute names collide. *)
Theorem rename_twice (a b : string) (tup : tuple) :
  Str.has_dot a = false ->
  rename_keys b (rename_keys a tup) = rename_keys b tup.
Proof.
  intros Ha.
  transitivity (map (fun kv => (rekey b kv.1, kv.2)) (rename_keys a tup)).
  - apply rename_keeps_distinct_suffixes.
    pose proof (rename_keys_NoDup a tup) as Hnd.
    pose proof (rename_keys_keys_rekey a tup) as Hform.
    induction (rename_keys a tup) as [|[k v] d IH]; simpl in *; [constructor|].
    apply NoDup_cons in Hnd as [Hk Hnd]. apply NoDup_cons. split.
    + rewrite list_elem_of_fmap. intros ([k' v'] & Heq & Hin). apply Hk.
      simpl in Heq.
      assert (Hk0 : k ∈ k :: d.*1) by left.
      destruct (Hform k Hk0) as [k0 Hk0'].
      rewrite Hk0' in Heq |- *. clear Hk0.
      assert (Hk' : k' ∈ k :: d.*1).
      { right. apply list_elem_of_fmap. by exists (k', v'). }
      destruct (Hform k' Hk') as [k1 ->].
      rewrite !split1_last_rekey in Heq by done.
      apply list_elem_of_fmap. exists (rekey a k1, v'). split; [|done].
      simpl. unfold rekey. by rewrite Heq.
    + apply IH; [done|]. intros k' Hin. apply Hform. by right.
  - unfold rename_keys.
    apply (rename_fold_rekey a b tup [] Ha).
    intros k Hin. by apply elem_of_nil in Hin.
Qed.

End RenameLaws.

Lemma rename_twice_witness :
  Str.has_dot "P" = false /\
  Ra2mr.rename_keys "Q"
    (Ra2mr.rename_keys "P" [("A.id", Py.VInt 1); ("B.id", Py.VInt 2); ("name", Py.VStr "x")])
  = Ra2mr.rename_keys "Q" [("A.id", Py.VInt 1); ("B.id", Py.VInt 2); ("name", Py.VStr "x")].
Proof.
  split; [reflexivity|]. by apply rename_twice.
Defined.

(** ** Chain folding and the task compiler *)

Section Folding.
Import Ra2mr.







Lemma count_steps_pos q n : count_steps q = Ok n -> 1 <= n.
Proof.
  revert n. induction q; simpl; intros n H; try done;
    try (destruct (count_steps q) as [m| |]; simpl in H; try done;
         inversion H; subst; specialize (IHq m eq_refl); lia).
  - inversion H. lia.
  - destruct (count_steps q1) as [a| |]; simpl in H; try done.
    destruct (count_steps q2) as [b| |]; simpl in H; try done.
    inversion H; subst. specialize (IHq1 a eq_refl). specialize (IHq2 b eq_refl). lia.
Qed.

(** X12. [count_steps] fails exactly on the trees that hold a cross
    product (also one below a [ChainedOp]), always with its own
    [Exception]; otherwise it returns a positive number. *)
Theorem count_steps_cross (q : node) :
  (has_cross q = true -> count_steps q = Raise (Exception count_steps_error)) /\
  (has_cross q = false -> exists n, count_steps q = Ok n /\ 1 <= n).
Proof.
  assert (Hpos := count_steps_pos).
  induction q as [rel|c i IH|a i IH|rn an i IH|l _ r _|l IHl c r IHr|ops i IH]; simpl;
    try (destruct IH as [IH1 IH2]; split; intros H;
         [by rewrite (IH1 H)
         |destruct (IH2 H) as (n & -> & Hn); exists (1 + n); split; [done|lia]]).
  - split; [done|]. intros _. by exists 1.
  - split; [done|done].
  - destruct IHl as [L1 L2], IHr as [R1 R2]. split; intros H.
    + destruct (has_cross l) eqn:Hl.
      * by rewrite (L1 eq_refl).
      * destruct (L2 eq_refl) as (a & -> & _). simpl in H. by rewrite (R1 H).
    + apply orb_false_elim in H as [Hl Hr].
      destruct (L2 Hl) as (a & -> & Ha), (R2 Hr) as (b & -> & Hb).
      exists (1 + a + b). split; [done|lia].
Qed.

Lemma count_steps_radb_tree q :
  has_cross q = false -> radb_tree q = true ->
  count_steps q = Ok (Z.of_nat (query_size q)).
Proof.
  intros H1 H2. apply count_steps_plain. by rewrite plain_radb_tree, H1, H2.
Qed.

Lemma try_fold_chain_steps q :
  plain q = true ->
  exists m, count_steps (try_fold_chain q) = Ok m /\
            1 <= m <= Z.of_nat (query_size q) /\
            (m = Z.of_nat (query_size q) -> try_fold_chain q = q).
Proof.
  induction q as [rel|c i IH|a i IH|rn an i IH|l _ r _|l IHl c r IHr|ops i _];
    intros Hp; try done;
    rewrite try_fold_chain_eq;
    match goal with
    | |- context [collect_chain [] ?q] =>
        destruct (collect_chain_spec [] q) as (ops' & cur & Hc & Hq & Hun & Hsz & Hcur);
        rewrite Hc; specialize (Hcur Hp)
    end; simpl app; cbv beta iota;
    destruct (decide (2 <= length ops')%nat) as [Hlen|Hlen];
    try (cbn [count_steps]; rewrite (count_steps_plain cur Hcur);
         cbn [mbind result_bind Py.bind];
         exists (1 + Z.of_nat (query_size cur)); split; [done|]; split; lia);
    simpl in Hp.
  - exists 1. simpl. split; [done|]. split; [lia|done].
  - destruct (IH Hp) as (m & Hm & Hb & He). exists (1 + m). simpl. rewrite Hm.
    split; [done|]. split; [lia|]. intros H. rewrite He; [done|lia].
  - destruct (IH Hp) as (m & Hm & Hb & He). exists (1 + m). simpl. rewrite Hm.
    split; [done|]. split; [lia|]. intros H. rewrite He; [done|lia].
  - destruct (IH Hp) as (m & Hm & Hb & He). exists (1 + m). simpl. rewrite Hm.
    split; [done|]. split; [lia|]. intros H. rewrite He; [done|lia].
  - apply andb_prop in Hp as [Hl Hr].
    destruct (IHl Hl) as (a & Ha & Hba & Hea), (IHr Hr) as (b & Hb & Hbb & Heb).
    exists (1 + a + b). simpl. rewrite Ha, Hb. split; [done|]. split; [lia|].
    intros H. rewrite Hea, Heb; [done|lia|lia].
Qed.

(** X13. Folding never adds a stage: for a tree of [radb] nodes without
    cross product, [count_steps] of the folded tree is between 1 and
    [count_steps] of the tree, and the two are equal only when folding
    left the tree as it was. *)
Theorem try_fold_chain_saves_steps (q : node) :
  plain q = true ->
  exists n m,
    count_steps q = Ok n /\ count_steps (try_fold_chain q) = Ok m /\
    1 <= m <= n /\ (m = n <-> try_fold_chain q = q).
Proof.
  intros Hp. destruct (try_fold_chain_steps q Hp) as (m & Hm & Hb & He).
  exists (Z.of_nat (query_size q)), m.
  pose proof (count_steps_plain q Hp) as Hn.
  split; [done|]. split; [done|]. split; [done|]. split; [done|].
  intros Heq. rewrite Heq in Hm. congruence.
Qed.

Lemma try_fold_chain_saves_steps_witness :
  plain example_query = true /\
  exists n m,
    count_steps example_query = Ok n /\
    count_steps (try_fold_chain example_query) = Ok m /\
    1 <= m <= n /\ (m = n <-> try_fold_chain example_query = example_query).
Proof.
  split; [reflexivity|]. by apply try_fold_chain_saves_steps.
Defined.

(** the task compiler stops with one of its two exceptions *)
Definition rejected (m : result (list task)) : Prop :=
  m = Raise (Exception task_factory_error) \/
  m = Raise (Exception count_steps_error).

Section CrossInduction.
Variable optimize : bool.
Variable fuel : nat.
Hypothesis IH : forall q step,
  radb_tree q = true -> has_cross q = true -> read_back optimize q ->
  (query_size q < fuel)%nat ->
  rejected (t ← task_factory q step optimize; task_dag fuel t).

Lemma rejected_one (t : task) (step : Z) (i : node) :
  requires t = (t1 ← task_factory i (step + 1) optimize; Ok [t1]) ->
  radb_tree i = true -> has_cross i = true -> read_back optimize i ->
  (query_size i < fuel)%nat ->
  rejected (task_dag (S fuel) t).
Proof.
  intros Hreq Hp Hx Hrb Hsz. specialize (IH i (step + 1) Hp Hx Hrb Hsz).
  unfold rejected in *. cbn [task_dag]. rewrite Hreq.
  destruct (task_factory i (step + 1) optimize) as [t1|e|];
    cbn [mbind result_bind Py.bind] in *; [|done|done].
  cbn [concat_mapM Py.bind].
  destruct IH as [-> | ->]; [by left | by right].
Qed.

Lemma rejected_two (t : task) (step : Z) (l r : node) :
  requires t = (task1 ← task_factory l (step + 1) optimize;
                k ← count_steps l;
                task2 ← task_factory r (step + k + 1) optimize;
                Ok [task1; task2]) ->
  radb_tree l = true -> radb_tree r = true ->
  has_cross l || has_cross r = true ->
  read_back optimize l -> read_back optimize r ->
  (query_size l < fuel)%nat -> (query_size r < fuel)%nat ->
  rejected (task_dag (S fuel) t).
Proof.
  intros Hreq Hpl Hpr Hx Hrl Hrr Hsl Hsr.
  unfold rejected. cbn [task_dag]. rewrite Hreq.
  destruct (has_cross l) eqn:Hxl.
  - pose proof (IH l (step + 1) Hpl Hxl Hrl Hsl) as Hl. unfold rejected in Hl.
    destruct (count_steps_cross l) as [Hc _]. rewrite (Hc Hxl).
    destruct (task_factory l (step + 1) optimize) as [t1|e|];
      cbn [mbind result_bind Py.bind] in *; [by right | done | done].
  - simpl in Hx.
    assert (Hplain : plain l = true) by (by rewrite plain_radb_tree, Hpl, Hxl).
    destruct (task_dag_stage_indices optimize fuel l (step + 1) Hplain Hrl Hsl)
      as (t1 & Ht1 & tasks1 & Hd1 & _).
    rewrite Ht1, (count_steps_plain l Hplain). cbn [mbind result_bind Py.bind].
    pose proof (IH r (step + Z.of_nat (query_size l) + 1) Hpr Hx Hrr Hsr) as Hr.
    unfold rejected in Hr.
    destruct (task_factory r (step + Z.of_nat (query_size l) + 1) optimize)
      as [t2|e|]; cbn [mbind result_bind Py.bind] in *; [|done|done].
    cbn [concat_mapM Py.bind]. rewrite Hd1.
    destruct Hr as [-> | ->]; [by left | by right].
Qed.

End CrossInduction.

Lemma task_dag_rejects_cross (optimize : bool) (fuel : nat) :
  forall q step,
    radb_tree q = true -> has_cross q = true -> read_back optimize q ->
    (query_size q < fuel)%nat ->
    rejected (t ← task_factory q step optimize; task_dag fuel t).
Proof.
  induction fuel as [|fuel IH]; intros q step Hp Hx Hrb Hsz; [lia|].
  destruct optimize.
  - specialize (Hrb eq_refl).
    assert (Hany : forall x, chains_on_relations x = true -> read_back true x)
      by (by intros x Hx' _).
    unfold task_factory.
    pose proof (reparse_fold q Hp Hrb) as Hre.
    pose proof (try_fold_chain_eq q) as Heq.
    pose proof (long_run q) as Hlong.
    pose proof (short_run q) as Hshort.
    pose proof (collect_chain_has_cross [] q) as Hcurx.
    destruct (collect_chain_spec [] q) as (ops & cur & Hcc & Hq & Hun & Hsize & _).
    rewrite Hcc in Heq. simpl in Heq.
    specialize (Hlong _ _ Hrb Hcc). specialize (Hshort _ _ Hcc).
    specialize (Hcurx _ _ Hcc).
    destruct (decide (2 <= length ops)%nat) as [Hlen|Hlen].
    { destruct (Hlong Hlen) as (rel & Hrel & _). rewrite Hrel in Hcurx.
      simpl in Hcurx. congruence. }
    specialize (Hshort Hlen).
    rewrite Heq in Hre. rewrite Heq. clear Heq.
    destruct q as [rel|c i|a i|rn an i|l r|l c r|ops' i]; simpl in Hp, Hx; try done.
    + cbn [mbind result_bind Py.bind].
      apply (rejected_one true fuel IH _ step i);
        [|done|done| |simpl in Hsz; lia].
      * cbn [requires]. rewrite Hre. done.
      * by apply Hany, (chains_on_relations_input (Select c i)).
    + cbn [mbind result_bind Py.bind].
      apply (rejected_one true fuel IH _ step i);
        [|done|done| |simpl in Hsz; lia].
      * cbn [requires]. rewrite Hre. done.
      * by apply Hany, (chains_on_relations_input (Project a i)).
    + cbn [mbind result_bind Py.bind].
      apply (rejected_one true fuel IH _ step i);
        [|done|done| |simpl in Hsz; lia].
      * cbn [requires]. rewrite Hre. done.
      * by apply Hany, (chains_on_relations_input (Rename rn an i)).
    + by left.
    + apply andb_prop in Hp as [Hpl Hpr]. simpl in Hrb.
      apply andb_prop in Hrb as [Hcl Hcr]. cbn [mbind result_bind Py.bind].
      apply (rejected_two true fuel IH _ step l r);
        [|done|done|done|by apply Hany|by apply Hany
        |simpl in Hsz; lia|simpl in Hsz; lia].
      cbn [requires]. rewrite Hre. done.
  - assert (Hany : forall x, read_back false x) by (by intros x ?).
    unfold task_factory.
    destruct q as [rel|c i|a i|rn an i|l r|l c r|ops' i]; simpl in Hp, Hx; try done.
    + cbn [mbind result_bind Py.bind].
      apply (rejected_one false fuel IH _ step i);
        [|done|done|done|simpl in Hsz; lia].
      cbn [requires]. by rewrite (reparse_radb_tree (Select c i) Hp).
    + cbn [mbind result_bind Py.bind].
      apply (rejected_one false fuel IH _ step i);
        [|done|done|done|simpl in Hsz; lia].
      cbn [requires]. by rewrite (reparse_radb_tree (Project a i) Hp).
    + cbn [mbind result_bind Py.bind].
      apply (rejected_one false fuel IH _ step i);
        [|done|done|done|simpl in Hsz; lia].
      cbn [requires]. by rewrite (reparse_radb_tree (Rename rn an i) Hp).
    + by left.
    + pose proof Hp as Hp'. apply andb_prop in Hp as [Hpl Hpr].
      cbn [mbind result_bind Py.bind].
      apply (rejected_two false fuel IH _ step l r);
        [|done|done|done|done|done|simpl in Hsz; lia|simpl in Hsz; lia].
      cbn [requires]. by rewrite (reparse_radb_tree (Join l c r) Hp').
Qed.

(** X14. A cross product anywhere in a tree of [radb] nodes stops the
    task compiler: building the task graph raises the [Exception] of
    [task_factory] or of [count_steps], whatever the depth of the cross
    product.  This holds without chain folding for every tree, and with
    chain folding for the trees whose runs of two or more unary operators
    are selections and projections over a relation (a run over a cross
    product is stored as a text of [ChainedOp.__str__] in which the cross
    product is not parenthesised, and is outside this statement). *)
Theorem task_graph_rejects_cross (q : node) (step : Z) (optimize : bool) :
  radb_tree q = true -> has_cross q = true ->
  (optimize = true -> chains_on_relations q = true) ->
  task_graph q step optimize = Raise (Exception task_factory_error) \/
  task_graph q step optimize = Raise (Exception count_steps_error).
Proof.
  intros Hp Hx Hrb. unfold task_graph.
  apply (task_dag_rejects_cross optimize (S (query_size q)) q step Hp Hx Hrb). lia.
Qed.

(** [\select_{id = 1} (\project_{name} (Person \cross Dept) \join Dept)] *)
Definition cross_below_join : node :=
  Select id_is_1
    (Join (Project [AttrRefOf None "name"] (Cross (RelRef "Person") (RelRef "Dept")))
          person_id_is_dept_pid (RelRef "Dept")).

Lemma task_graph_rejects_cross_witness :
  radb_tree cross_below_join = true /\ has_cross cross_below_join = true /\
  chains_on_relations cross_below_join = true /\
  task_graph cross_below_join 1 true = Raise (Exception count_steps_error).
Proof.
  split; [reflexivity|]. split; [reflexivity|]. split; [reflexivity|].
  destruct (task_graph_rejects_cross cross_below_join 1 true eq_refl eq_refl)
    as [H|H]; [reflexivity | | exact H].
  vm_compute in H. discriminate H.
Defined.

End Folding.

(** ** The optimizer rules *)

Section RuleLaws.
Import Raopt.

(** induction over a tree that takes a vertical run of selections in one
    step *)
Lemma node_run_ind (P : node -> Prop) :
  (forall rel, P (RelRef rel)) ->
  (forall attrs i, P i -> P (Project attrs i)) ->
  (forall relname attrnames i, P i -> P (Rename relname attrnames i)) ->
  (forall l r, P l -> P r -> P (Cross l r)) ->
  (forall l c r, P l -> P r -> P (Join l c r)) ->
  (forall ops i, P (ChainedOp ops i)) ->
  (forall c cs base, is_select base = false -> P base ->
                     P (selects (c :: cs) base)) ->
  forall e, P e.
Proof.
  intros Hrel Hproj Hren Hcross Hjoin Hchain Hrun e.
  assert (H : P e /\ P (run_base e)); [|by destruct H].
  induction e as [rel|c i IH|a i IH|rn an i IH|l IHl r IHr|l IHl c r IHr|ops i _];
    simpl; try (split; auto; fail).
  - destruct IH as [_ IH]. split; [|done].
    rewrite (run_selects i). apply (Hrun c); [apply run_base_not_select | done].
  - destruct IH as [IH _]. split; by apply Hproj.
  - destruct IH as [IH _]. split; by apply Hren.
  - destruct IHl as [IHl _], IHr as [IHr _]. split; by apply Hcross.
  - destruct IHl as [IHl _], IHr as [IHr _]. split; by apply Hjoin.
Qed.

Lemma conjuncts_and_chain c cs :
  conjuncts (and_chain c cs) = conjuncts c ++ concat (map conjuncts cs).
Proof.
  revert c. induction cs as [|d cs IH]; intros c; simpl.
  - by rewrite app_nil_r.
  - unfold and_chain in *. simpl. rewrite IH. simpl. by rewrite <- app_assoc.
Qed.

Lemma broken_up_run_selects cs base :
  broken_up (selects cs base) = selects (concat (map conjuncts cs)) (broken_up base).
Proof.
  induction cs as [|c cs IH]; simpl; [done|]. by rewrite selects_app, IH.
Qed.

Lemma broken_up_merge e : broken_up (rule_merge_selections e) = broken_up e.
Proof.
  induction e using node_run_ind; try (simpl; congruence).
  rewrite rule_merge_selections_run by done.
  rewrite broken_up_run_selects. simpl.
  by rewrite conjuncts_and_chain, IHe.
Qed.

(** a tree in which no selection sits directly on a selection *)
Fixpoint no_stacked_select (e : node) : Prop :=
  match e with
  | Select _ i => is_select i = false /\ no_stacked_select i
  | Project _ i | Rename _ _ i => no_stacked_select i
  | Cross l r | Join l _ r => no_stacked_select l /\ no_stacked_select r
  | _ => True
  end.

Lemma no_stacked_select_merge e : no_stacked_select (rule_merge_selections e).
Proof.
  induction e using node_run_ind; try (simpl; auto; fail).
  rewrite rule_merge_selections_run by done. simpl.
  split; [by apply rule_merge_selections_not_select | done].
Qed.

Lemma merge_fixed e : no_stacked_select e -> rule_merge_selections e = e.
Proof.
  induction e as [rel|c i IH|a i IH|rn an i IH|l IHl r IHr|l IHl c r IHr|ops i _];
    simpl; intros H; try done; try (by rewrite IH);
    try (destruct H as [H1 H2]; by rewrite IHl, IHr).
  destruct H as [Hi H].
  change (Select c i) with (selects [c] i) at 1.
  destruct i; try done; simpl in *; by rewrite ?IH.
Qed.

(** X15. [rule_break_up_selections] always returns; its result is a
    fixed point of the rule; and merging the selections of a tree first
    does not change what the rule returns. *)
Theorem rule_break_up_selections_normal_form (e : node) :
  exists D,
    rule_break_up_selections e = Ok D /\
    rule_break_up_selections D = Ok D /\
    rule_break_up_selections (rule_merge_selections e) = Ok D.
Proof.
  exists (broken_up e). rewrite !rule_break_up_selections_total.
  by rewrite broken_up_idempotent, broken_up_merge.
Qed.

(** X16. [rule_merge_selections] leaves no selection directly on a
    selection, changes nothing in a tree that has none, and so returns a
    fixed point of itself. *)
Theorem rule_merge_selections_normal_form (e : node) :
  no_stacked_select (rule_merge_selections e) /\
  (no_stacked_select e -> rule_merge_selections e = e) /\
  rule_merge_selections (rule_merge_selections e) = rule_merge_selections e.
Proof.
  split; [apply no_stacked_select_merge|]. split; [apply merge_fixed|].
  apply merge_fixed, no_stacked_select_merge.
Qed.

(** *** Introducing joins *)

(** every join written back as the selection over the cross product it
    stands for *)
Fixpoint unjoin (e : node) : node :=
  match e with
  | Select c i => Select c (unjoin i)
  | Project attrs i => Project attrs (unjoin i)
  | Rename relname attrnames i => Rename relname attrnames (unjoin i)
  | Cross l r => Cross (unjoin l) (unjoin r)
  | Join l c r => Select c (Cross (unjoin l) (unjoin r))
  | _ => e
  end.

(** the test of [rule_introduce_joins] on a selection over a cross *)
Definition joins (cond : valexpr) (lhs rhs : node) : bool :=
  bool_decide (extract_condition_prefixes cond ∩ extract_relations lhs ≠ ∅) &&
  bool_decide (extract_condition_prefixes cond ∩ extract_relations rhs ≠ ∅).

(** no selection over a cross product passes the test *)
Fixpoint no_join_left (e : node) : Prop :=
  match e with
  | Select c i =>
      match i with Cross l r => joins c l r = false | _ => True end /\
      no_join_left i
  | Project _ i | Rename _ _ i => no_join_left i
  | Cross l r | Join l _ r => no_join_left l /\ no_join_left r
  | _ => True
  end.

Lemma rule_introduce_joins_select c i :
  rule_introduce_joins (Select c i)
  = match rule_introduce_joins i with
    | Cross lhs rhs =>
        if joins c lhs rhs then Join lhs c rhs
        else Select c (Cross lhs rhs)
    | r => Select c r
    end.
Proof. simpl. by destruct (rule_introduce_joins i). Qed.

Lemma unjoin_select c i : unjoin (Select c i) = Select c (unjoin i).
Proof. reflexivity. Qed.

Lemma relations_select c i :
  extract_relations (Select c i) = extract_relations i.
Proof. reflexivity. Qed.

Lemma rule_introduce_joins_facts e :
  unjoin (rule_introduce_joins e) = unjoin e /\
  extract_relations (rule_introduce_joins e) = extract_relations e /\
  no_join_left (rule_introduce_joins e) /\
  rule_introduce_joins (rule_introduce_joins e) = rule_introduce_joins e.
Proof.
  induction e as [rel|c i IH|a i IH|rn an i IH|l IHl r IHr|l IHl c r IHr|ops i _];
    try done.
  - destruct IH as (Hu & Hr & Hn & Hi).
    rewrite rule_introduce_joins_select.
    destruct (rule_introduce_joins i) as [rel'|c' i'|a' i'|rn' an' i'|l' r'|l' c' r'|ops' i']
      eqn:Hrule;
      try (split; [by rewrite !(unjoin_select c), Hu|];
           split; [by rewrite !(relations_select c), Hr|];
           split; [simpl; split; [done | exact Hn]|];
           by rewrite rule_introduce_joins_select, Hi).
    destruct (joins c l' r') eqn:Hj.
    + split; [by rewrite unjoin_select, <- Hu|].
      split; [by rewrite relations_select, <- Hr|].
      split; [exact Hn|].
      simpl in Hi. simpl. congruence.
    + split; [by rewrite !(unjoin_select c), Hu|].
      split; [by rewrite !(relations_select c), Hr|].
      split; [simpl; split; [done | exact Hn]|].
      by rewrite rule_introduce_joins_select, Hi, Hj.
  - destruct IH as (Hu & Hr & Hn & Hi). simpl. by rewrite Hu, Hi.
  - destruct IH as (Hu & Hr & Hn & Hi). simpl. by rewrite Hu, Hi.
  - destruct IHl as (Hu1 & Hr1 & Hn1 & Hi1), IHr as (Hu2 & Hr2 & Hn2 & Hi2).
    simpl. by rewrite Hu1, Hu2, Hr1, Hr2, Hi1, Hi2.
  - destruct IHl as (Hu1 & Hr1 & Hn1 & Hi1), IHr as (Hu2 & Hr2 & Hn2 & Hi2).
    simpl. by rewrite Hu1, Hu2, Hr1, Hr2, Hi1, Hi2.
Qed.

(** X17. [rule_introduce_joins] only ever replaces a selection over a
    cross product by the join with the same condition and the same
    inputs: writing the joins of the result back as selections over
    cross products gives the same tree as doing so in the argument.  It
    keeps the relation names of the tree, it leaves no selection over a
    cross product whose condition names a relation of both inputs, and
    applying it twice gives what applying it once gives. *)
Theorem rule_introduce_joins_only_joins (e : node) :
  unjoin (rule_introduce_joins e) = unjoin e /\
  extract_relations (rule_introduce_joins e) = extract_relations e /\
  no_join_left (rule_introduce_joins e) /\
  rule_introduce_joins (rule_introduce_joins e) = rule_introduce_joins e.
Proof. apply rule_introduce_joins_facts. Qed.

(** *** What the rules keep *)

Lemma attrs_selects dd cs base :
  extract_expr_attrs (selects cs base) dd = extract_expr_attrs base dd.
Proof. induction cs; simpl; done. Qed.

Lemma relations_selects cs base :
  extract_relations (selects cs base) = extract_relations base.
Proof. induction cs; simpl; done. Qed.

Lemma broken_up_keeps dd e :
  extract_expr_attrs (broken_up e) dd = extract_expr_attrs e dd /\
  extract_relations (broken_up e) = extract_relations e.
Proof.
  induction e as [rel|c i IH|a i IH|rn an i IH|l IHl r IHr|l IHl c r IHr|ops i _];
    simpl; try done;
    try (destruct IH as [IH1 IH2]; by rewrite ?attrs_selects, ?relations_selects, ?IH1);
    destruct IHl as [L1 L2], IHr as [R1 R2]; by rewrite L1, L2, R1, R2.
Qed.

Lemma merge_keeps dd e :
  extract_expr_attrs (rule_merge_selections e) dd = extract_expr_attrs e dd /\
  extract_relations (rule_merge_selections e) = extract_relations e.
Proof.
  induction e as [rel|a i [H1 H2]|rn an i [H1 H2]|l r [L1 L2] [R1 R2]
                 |l c r [L1 L2] [R1 R2]|ops i|c cs base Hb [H1 H2]]
    using node_run_ind.
  - done.
  - simpl. by rewrite H1.
  - simpl. by rewrite H1.
  - simpl. by rewrite L1, L2, R1, R2.
  - simpl. by rewrite L1, L2, R1, R2.
  - done.
  - rewrite rule_merge_selections_run by done.
    rewrite attrs_selects, relations_selects. simpl. by rewrite H1, H2.
Qed.

Lemma introduce_joins_keeps dd e :
  extract_expr_attrs (rule_introduce_joins e) dd = extract_expr_attrs e dd.
Proof.
  induction e as [rel|c i IH|a i IH|rn an i IH|l IHl r IHr|l IHl c r IHr|ops i _];
    try done; try (simpl; by rewrite ?IH, ?IHl, ?IHr).
  rewrite rule_introduce_joins_select.
  destruct (rule_introduce_joins i); try (simpl in *; congruence).
  destruct (joins c _ _); simpl in *; congruence.
Qed.

(** X18. The three rules that need no schema keep what the other rules
    and the task compiler read off a tree: the attribute names
    [extract_expr_attrs] derives for it (or its failure) and the relation
    names [extract_relations] finds in it. *)
Theorem rules_keep_attributes (dd : schema) (e : node) :
  (exists D, rule_break_up_selections e = Ok D /\
             extract_expr_attrs D dd = extract_expr_attrs e dd /\
             extract_relations D = extract_relations e) /\
  extract_expr_attrs (rule_merge_selections e) dd = extract_expr_attrs e dd /\
  extract_relations (rule_merge_selections e) = extract_relations e /\
  extract_expr_attrs (rule_introduce_joins e) dd = extract_expr_attrs e dd /\
  extract_relations (rule_introduce_joins e) = extract_relations e.
Proof.
  split.
  { exists (broken_up e). split; [apply rule_break_up_selections_total|].
    apply broken_up_keeps. }
  split; [apply merge_keeps|]. split; [apply (merge_keeps dd)|].
  split; [apply introduce_joins_keeps|]. apply rule_introduce_joins_facts.
Qed.

(** *** Pushing selections down *)

(** the tree without its selections *)
Fixpoint strip_selects (e : node) : node :=
  match e with
  | Select _ i => strip_selects i
  | Project attrs i => Project attrs (strip_selects i)
  | Rename relname attrnames i => Rename relname attrnames (strip_selects i)
  | Cross l r => Cross (strip_selects l) (strip_selects r)
  | Join l c r => Join (strip_selects l) c (strip_selects r)
  | _ => e
  end.

(** the conditions of the selections of a tree, top down and left to
    right *)
Fixpoint conditions (e : node) : list valexpr :=
  match e with
  | Select c i => c :: conditions i
  | Project _ i | Rename _ _ i => conditions i
  | Cross l r | Join l _ r => conditions l ++ conditions r
  | _ => []
  end.

(** [e'] is [e] with its selections at other places *)
Definition moved (e' e : node) : Prop :=
  strip_selects e' = strip_selects e /\ conditions e' ≡ₚ conditions e.

Lemma moved_refl e : moved e e.
Proof. by split. Qed.

Lemma moved_select c e' e : moved e' e -> moved (Select c e') (Select c e).
Proof. intros [H1 H2]. split; simpl; [done | by rewrite H2]. Qed.

Lemma moved_trans e1 e2 e3 : moved e1 e2 -> moved e2 e3 -> moved e1 e3.
Proof. intros [H1 H2] [H3 H4]. split; [congruence | by rewrite H2]. Qed.

Lemma push_select_moved dd (rule : node -> result node) c child e' :
  (forall x x', rule x = Ok x' -> moved x' x) ->
  push_select dd rule c child = Ok e' ->
  moved e' (Select c child).
Proof.
  intros Hrule. unfold push_select.
  assert (Hl : forall lhs rhs l', rule (Select c lhs) = Ok l' ->
            moved (Cross l' rhs) (Select c (Cross lhs rhs))).
  { intros lhs rhs l' H. apply Hrule in H as [H1 H2]. split; simpl in *.
    - by rewrite H1.
    - by rewrite H2. }
  assert (Hr : forall lhs rhs r', rule (Select c rhs) = Ok r' ->
            moved (Cross lhs r') (Select c (Cross lhs rhs))).
  { intros lhs rhs r' H. apply Hrule in H as [H1 H2]. split; simpl in *.
    - by rewrite H1.
    - rewrite H2. by rewrite Permutation_middle. }
  assert (Hswap : forall d x y, moved x (Select c y) ->
            moved (Select d x) (Select c (Select d y))).
  { intros d x y [H1 H2]. split; simpl in *; [done|].
    rewrite H2. apply perm_swap. }
  destruct child as [rel|d i|a i|rn an i|lhs rhs|l d r|ops i];
    try (intros [= <-]; apply moved_refl).
  - destruct i as [rel|d' i|a i|rn an i|lhs rhs|l d' r|ops i];
      try (intros [= <-]; apply moved_refl).
    destruct (extract_expr_attrs lhs dd) as [la| |]; simpl; try done.
    destruct (extract_expr_attrs rhs dd) as [ra| |]; simpl; try done.
    destruct (negb _ && _); [|intros [= <-]; apply moved_refl].
    destruct (bool_decide _).
    { destruct (rule (Select c lhs)) as [l'| |] eqn:Hx; simpl; try done.
      intros [= <-]. by apply Hswap, Hl. }
    destruct (bool_decide _); [|intros [= <-]; apply moved_refl].
    destruct (rule (Select c rhs)) as [r'| |] eqn:Hx; simpl; try done.
    intros [= <-]. by apply Hswap, Hr.
  - destruct (extract_expr_attrs lhs dd) as [la| |]; simpl; try done.
    destruct (extract_expr_attrs rhs dd) as [ra| |]; simpl; try done.
    destruct (is_join_condition _ _ _); [intros [= <-]; apply moved_refl|].
    destruct (bool_decide _).
    { destruct (rule (Select c lhs)) as [l'| |] eqn:Hx; simpl; try done.
      intros [= <-]. by apply Hl. }
    destruct (bool_decide _); [|intros [= <-]; apply moved_refl].
    destruct (rule (Select c rhs)) as [r'| |] eqn:Hx; simpl; try done.
    intros [= <-]. by apply Hr.
Qed.

Lemma rule_push_down_selections_rec_moved dd fuel :
  forall e e', rule_push_down_selections_rec fuel e dd = Ok e' -> moved e' e.
Proof.
  induction fuel as [|fuel IH]; intros e e' H; [done|].
  destruct e as [rel|c i|a i|rn an i|l r|l c r|ops i].
  - simpl in H. inversion H. apply moved_refl.
  - rewrite rule_push_down_selections_rec_select in H.
    destruct (rule_push_down_selections_rec fuel i dd) as [child| |] eqn:Hc;
      simpl in H; try done.
    apply IH in Hc. apply push_select_moved in H; [|exact IH].
    eapply moved_trans; [exact H|]. by apply moved_select.
  - simpl in H.
    destruct (rule_push_down_selections_rec fuel i dd) as [i'| |] eqn:Hc;
      simpl in H; try done.
    inversion H; subst. apply IH in Hc as [H1 H2]. split; simpl; [by rewrite H1|done].
  - simpl in H.
    destruct (rule_push_down_selections_rec fuel i dd) as [i'| |] eqn:Hc;
      simpl in H; try done.
    inversion H; subst. apply IH in Hc as [H1 H2]. split; simpl; [by rewrite H1|done].
  - simpl in H.
    destruct (rule_push_down_selections_rec fuel l dd) as [l'| |] eqn:Hl;
      simpl in H; try done.
    destruct (rule_push_down_selections_rec fuel r dd) as [r'| |] eqn:Hr;
      simpl in H; try done.
    inversion H; subst. apply IH in Hl as [H1 H2]. apply IH in Hr as [H3 H4].
    split; simpl; [by rewrite H1, H3 | by rewrite H2, H4].
  - simpl in H.
    destruct (rule_push_down_selections_rec fuel l dd) as [l'| |] eqn:Hl;
      simpl in H; try done.
    destruct (rule_push_down_selections_rec fuel r dd) as [r'| |] eqn:Hr;
      simpl in H; try done.
    inversion H; subst. apply IH in Hl as [H1 H2]. apply IH in Hr as [H3 H4].
    split; simpl; [by rewrite H1, H3 | by rewrite H2, H4].
  - simpl in H. inversion H. apply moved_refl.
Qed.

(** X19. [rule_push_down_selections] only moves selections.  When the
    attributes of the tree can be derived, the rule returns a tree; and
    whenever it returns a tree, that tree without its selections is the
    argument without its selections (no operator is added, dropped or
    reordered, no join appears) and its selections carry the same
    conditions, each as many times as before. *)
Theorem rule_push_down_selections_moves_selections (dd : schema) (e : node) :
  (is_ok (extract_expr_attrs e dd) = true ->
   exists e', rule_push_down_selections e dd = Ok e' /\
              node_count e' = node_count e /\
              extract_expr_attrs e' dd = extract_expr_attrs e dd) /\
  (forall e', rule_push_down_selections e dd = Ok e' ->
              strip_selects e' = strip_selects e /\
              conditions e' ≡ₚ conditions e).
Proof.
  split.
  - intros Hok.
    destruct (rule_push_down_selections_total dd e Hok) as (e' & (_ & H1 & H2) & H).
    by exists e'.
  - intros e' H. by apply rule_push_down_selections_rec_moved in H.
Qed.

(** X20. The side a selection is pushed to is never a matter of the
    order of the tests: a condition that names an attribute and whose
    attributes are found among those of the left input and among those
    of the right input is a join condition, so it stays above the cross
    product.  Only a condition without attributes passes both
    [can_push_down] tests without being a join condition. *)
Theorem pushable_to_both_sides_is_join (cond : valexpr) (la ra : gset string) :
  extract_condition_attrs cond ≠ ∅ ->
  extract_condition_attrs cond ⊆ la ->
  extract_condition_attrs cond ⊆ ra ->
  is_join_condition cond la ra = true.
Proof.
  intros Hne Hl Hr. unfold is_join_condition, meets, prefixes_of.
  destruct (decide (filter (fun a => Str.has_dot a = true)
                      (extract_condition_attrs cond) = ∅)) as [_|Hq].
  - apply andb_true_intro. split; apply bool_decide_eq_true_2; set_solver.
  - apply set_choose_L in Hq as [y Hy].
    apply elem_of_filter in Hy as [Hdot Hy].
    apply andb_true_intro. split; apply bool_decide_eq_true_2;
      apply (non_empty_inhabited_L (Str.before_dot y));
      apply elem_of_intersection; split; apply elem_of_map;
      exists y; (split; [done|]); apply elem_of_filter; auto.
Qed.

Lemma pushable_to_both_sides_is_join_witness :
  is_join_condition id_is_1 {[ "id"; "Person.id" ]} {[ "id"; "Dept.id" ]} = true.
Proof.
  apply pushable_to_both_sides_is_join; by_compute.
Defined.

End RuleLaws.

(** ** The JSON text of a tuple *)

Section SortKeys.
Context {V : Type}.
Implicit Types d : Dict.dict V.

Lemma string_leb_trans (a b c : string) :
  String.leb a b = true -> String.leb b c = true -> String.leb a c = true.
Proof.
  unfold String.leb.
  change (String.compare a b) with (OrdersEx.String_as_OT.compare a b).
  change (String.compare b c) with (OrdersEx.String_as_OT.compare b c).
  change (String.compare a c) with (OrdersEx.String_as_OT.compare a c).
  destruct (OrdersEx.String_as_OT.compare_spec a b) as [Hab|Hab|Hab];
    try discriminate; intros _.
  - unfold OrdersEx.String_as_OT.eq in Hab. by subst.
  - destruct (OrdersEx.String_as_OT.compare_spec b c) as [Hbc|Hbc|Hbc];
      try discriminate; intros _.
    + unfold OrdersEx.String_as_OT.eq in Hbc. rewrite <- Hbc.
      unfold OrdersEx.String_as_OT.lt in Hab. by rewrite Hab.
    + pose proof (@RelationClasses.StrictOrder_Transitive _ _
                    OrdersEx.String_as_OT.lt_strorder _ _ _ Hab Hbc) as H.
      unfold OrdersEx.String_as_OT.lt in H. by rewrite H.
Qed.

(** the keys ascend *)
Definition key_le (x y : string * V) : Prop := String.leb x.1 y.1 = true.

Lemma insert_sorted_perm kv d : Dict.insert_sorted kv d ≡ₚ kv :: d.
Proof.
  induction d as [|kv' d IH]; simpl; [done|].
  destruct (String.leb kv.1 kv'.1); [done|].
  rewrite IH. apply perm_swap.
Qed.

Lemma sort_keys_perm d : Dict.sort_keys d ≡ₚ d.
Proof.
  induction d as [|kv d IH]; simpl; [done|].
  unfold Dict.sort_keys in *. simpl. by rewrite insert_sorted_perm, IH.
Qed.

Lemma insert_sorted_sorted kv d :
  Sorted.StronglySorted key_le d -> Sorted.StronglySorted key_le (Dict.insert_sorted kv d).
Proof.
  induction 1 as [|kv' d Hs IH Hall]; simpl; [by repeat constructor|].
  destruct (String.leb kv.1 kv'.1) eqn:Hle.
  - constructor; [by constructor|]. constructor; [done|].
    eapply Forall_impl; [exact Hall|]. intros x Hx. unfold key_le in *.
    by eapply string_leb_trans.
  - constructor; [done|].
    rewrite insert_sorted_perm. constructor; [|done].
    unfold key_le. destruct (String.leb_total kv.1 kv'.1); [congruence|done].
Qed.

Lemma sort_keys_sorted d : Sorted.StronglySorted key_le (Dict.sort_keys d).
Proof.
  induction d as [|kv d IH]; [constructor|]. by apply insert_sorted_sorted.
Qed.

Lemma sorted_unique d1 d2 :
  Sorted.StronglySorted key_le d1 -> Sorted.StronglySorted key_le d2 ->
  NoDup d1.*1 -> d1 ≡ₚ d2 -> d1 = d2.
Proof.
  intros Hs1. revert d2. induction Hs1 as [|a d1 Hs1 IH Ha]; intros d2 Hs2 Hnd Hp.
  - by apply Permutation_nil_l in Hp.
  - destruct Hs2 as [|b d2 Hs2 Hb].
    { by apply Permutation_nil_r in Hp. }
    assert (Hab : a = b).
    { assert (Hin1 : a ∈ b :: d2) by (rewrite <- Hp; left).
      assert (Hin2 : b ∈ a :: d1) by (rewrite Hp; left).
      apply elem_of_cons in Hin1 as [?|Hin1]; [done|].
      apply elem_of_cons in Hin2 as [?|Hin2]; [done|].
      rewrite Forall_forall in Ha, Hb.
      pose proof (Ha _ Hin2) as H1. pose proof (Hb _ Hin1) as H2.
      pose proof (String.leb_antisym _ _ H1 H2) as Hk.
      exfalso. apply NoDup_cons in Hnd as [Hnotin _]. apply Hnotin.
      rewrite Hk. apply list_elem_of_fmap. by exists b. }
    subst b. f_equal. apply IH; [done | by apply NoDup_cons in Hnd as [_ ?] |].
    by apply Permutation_cons_inv in Hp.
Qed.

(** X21. The text [json.dumps(d, sort_keys=True)] does not depend on the
    order in which a dict holds its entries: the sorted items are the
    items of the dict, in ascending order of the keys, and two dicts with
    the same entries in any order give the same sorted items.  Tuples
    that differ only in the order of their attributes are therefore one
    tuple for the reducers that remove duplicates. *)
Theorem sort_keys_canonical d1 d2 :
  NoDup d1.*1 -> d1 ≡ₚ d2 ->
  Dict.sort_keys d1 = Dict.sort_keys d2 /\
  Dict.sort_keys d1 ≡ₚ d1 /\
  Sorted.StronglySorted key_le (Dict.sort_keys d1) /\
  Dict.sort_keys (Dict.sort_keys d1) = Dict.sort_keys d1.
Proof.
  intros Hnd Hp.
  assert (Hnd' : NoDup (Dict.sort_keys d1).*1).
  { by rewrite sort_keys_perm. }
  split; [|split; [apply sort_keys_perm | split; [apply sort_keys_sorted|]]].
  - apply sorted_unique; try apply sort_keys_sorted; [done|].
    by rewrite !sort_keys_perm.
  - apply sorted_unique; try apply sort_keys_sorted.
    + by rewrite sort_keys_perm.
    + apply sort_keys_perm.
Qed.

End SortKeys.

Lemma sort_keys_canonical_witness :
  Dict.sort_keys [("name", Py.VStr "Ana"); ("id", Py.VInt 1)]
  = Dict.sort_keys [("id", Py.VInt 1); ("name", Py.VStr "Ana")].
Proof.
  apply sort_keys_canonical.
  - by_compute.
  - apply perm_swap.
Defined.

(** ** Projections pushed below joins: what the rule leaves alone *)

Section ProjectionFrame.
Import Raopt RaoptHeap.

(** the objects reachable from [l] are the nodes of [t] *)
Fixpoint represents (h : heap) (l : loc) (t : node) : Prop :=
  match t with
  | RelRef rel => h !! l = Some (Obj (SRelRef rel) [])
  | Select cond i =>
      exists li, h !! l = Some (Obj (SSelect cond) [li]) /\ represents h li i
  | Project attrs i =>
      exists li, h !! l = Some (Obj (SProject attrs) [li]) /\ represents h li i
  | Rename relname attrnames i =>
      exists li, h !! l = Some (Obj (SRename relname attrnames) [li]) /\
                 represents h li i
  | Cross lt rt =>
      exists ll lr, h !! l = Some (Obj SCross [ll; lr]) /\
                    represents h ll lt /\ represents h lr rt
  | Join lt cond rt =>
      exists ll lr, h !! l = Some (Obj (SJoin cond) [ll; lr]) /\
                    represents h ll lt /\ represents h lr rt
  | ChainedOp operations i =>
      exists li, h !! l = Some (Obj (SChainedOp operations) [li]) /\
                 represents h li i
  end.

Definition is_join (t : node) : bool :=
  match t with Join _ _ _ => true | _ => false end.

(** no projection has a join as its input *)
Fixpoint no_project_over_join (t : node) : Prop :=
  match t with
  | RelRef _ => True
  | Project _ i => is_join i = false /\ no_project_over_join i
  | Select _ i | Rename _ _ i | ChainedOp _ i => no_project_over_join i
  | Cross l r | Join l _ r => no_project_over_join l /\ no_project_over_join r
  end.

Lemma heap_lookup_app (h ext : heap) (l : loc) (o : obj) :
  h !! l = Some o -> (h ++ ext) !! l = Some o.
Proof. apply lookup_app_l_Some. Qed.

Lemma represents_app h ext l t : represents h l t -> represents (h ++ ext) l t.
Proof.
  revert l. induction t; simpl; intros l H;
    repeat match goal with
           | H : exists _, _ |- _ => destruct H
           | H : _ /\ _ |- _ => destruct H
           end;
    eauto 10 using heap_lookup_app.
Qed.

Lemma alloc_lookup (o : obj) (h : heap) : (h ++ [o]) !! length h = Some o.
Proof. by rewrite lookup_app_r, Nat.sub_diag by lia. Qed.

Lemma store_tree_represents t h0 l h :
  store_tree t h0 = (l, h) -> represents h l t /\ exists ext, h = h0 ++ ext.
Proof.
  revert h0 l h.
  induction t as [rel|c i IH|a i IH|rn an i IH|lt IHl rt IHr|lt IHl c rt IHr|ops i IH];
    intros h0 l h; simpl.
  - intros [= <- <-]. split; [apply alloc_lookup | by eexists].
  - destruct (store_tree i h0) as [li h1] eqn:Hi. intros [= <- <-].
    destruct (IH _ _ _ Hi) as (Hr & ext & ->).
    split; [|exists (ext ++ [Obj (SSelect c) [li]]); by rewrite app_assoc].
    exists li. split; [apply alloc_lookup | by apply represents_app].
  - destruct (store_tree i h0) as [li h1] eqn:Hi. intros [= <- <-].
    destruct (IH _ _ _ Hi) as (Hr & ext & ->).
    split; [|exists (ext ++ [Obj (SProject a) [li]]); by rewrite app_assoc].
    exists li. split; [apply alloc_lookup | by apply represents_app].
  - destruct (store_tree i h0) as [li h1] eqn:Hi. intros [= <- <-].
    destruct (IH _ _ _ Hi) as (Hr & ext & ->).
    split; [|exists (ext ++ [Obj (SRename rn an) [li]]); by rewrite app_assoc].
    exists li. split; [apply alloc_lookup | by apply represents_app].
  - destruct (store_tree lt h0) as [ll h1] eqn:Hl.
    destruct (store_tree rt h1) as [lr h2] eqn:Hr. intros [= <- <-].
    destruct (IHl _ _ _ Hl) as (Hrl & ext1 & ->).
    destruct (IHr _ _ _ Hr) as (Hrr & ext2 & ->).
    split; [|exists (ext1 ++ ext2 ++ [Obj SCross [ll; lr]]); by rewrite !app_assoc].
    exists ll, lr. split; [apply alloc_lookup|].
    split; [by apply represents_app, represents_app | by apply represents_app].
  - destruct (store_tree lt h0) as [ll h1] eqn:Hl.
    destruct (store_tree rt h1) as [lr h2] eqn:Hr. intros [= <- <-].
    destruct (IHl _ _ _ Hl) as (Hrl & ext1 & ->).
    destruct (IHr _ _ _ Hr) as (Hrr & ext2 & ->).
    split; [|exists (ext1 ++ ext2 ++ [Obj (SJoin c) [ll; lr]]); by rewrite !app_assoc].
    exists ll, lr. split; [apply alloc_lookup|].
    split; [by apply represents_app, represents_app | by apply represents_app].
  - destruct (store_tree i h0) as [li h1] eqn:Hi. intros [= <- <-].
    destruct (IH _ _ _ Hi) as (Hr & ext & ->).
    split; [|exists (ext ++ [Obj (SChainedOp ops) [li]]); by rewrite app_assoc].
    exists li. split; [apply alloc_lookup | by apply represents_app].
Qed.

(** nodes of a tree, a [ChainedOp] with its input *)
Fixpoint tree_size (t : node) : nat :=
  match t with
  | RelRef _ => 1
  | Select _ i | Project _ i | Rename _ _ i | ChainedOp _ i => S (tree_size i)
  | Cross l r | Join l _ r => S (tree_size l + tree_size r)
  end.

Lemma read_tree_represents fuel :
  forall h l t, represents h l t -> (tree_size t <= fuel)%nat ->
                read_tree fuel h l = Ok t.
Proof.
  induction fuel as [|fuel IH]; intros h l t Hrep Hsz.
  { destruct t; simpl in Hsz; lia. }
  destruct t; simpl in Hrep, Hsz;
    repeat match goal with
           | H : exists _, _ |- _ => destruct H
           | H : _ /\ _ |- _ => destruct H
           end;
    simpl; unfold deref;
    match goal with H : h !! l = Some _ |- _ => rewrite H end; simpl;
    try done;
    repeat match goal with
           | H : represents h ?li ?i |- _ =>
               rewrite (IH h li i H) by lia; clear H
           end; done.
Qed.

Lemma represents_shape h l t :
  represents h l t ->
  exists o, h !! l = Some o /\ (is_join t = false -> forall c, shape_of o <> SJoin c).
Proof.
  destruct t; simpl; intros H;
    repeat match goal with
           | H : exists _, _ |- _ => destruct H
           | H : _ /\ _ |- _ => destruct H
           end;
    eexists; (split; [eassumption|]); simpl; done.
Qed.

Lemma rule_push_down_projections_unchanged dd fuel :
  forall h l t,
    represents h l t -> no_project_over_join t -> (tree_size t <= fuel)%nat ->
    rule_push_down_projections fuel l dd h = Ok (l, h).
Proof.
  induction fuel as [|fuel IH]; intros h l t Hrep Hno Hsz.
  { destruct t; simpl in Hsz; lia. }
  assert (Hone : forall li i o,
            h !! l = Some o -> inputs o = [li] ->
            represents h li i -> no_project_over_join i -> (tree_size i <= fuel)%nat ->
            (forall attrs, shape_of o = SProject attrs -> is_join i = false) ->
            rule_push_down_projections (S fuel) l dd h = Ok (l, h)).
  { intros li i o Hl Hin Hri Hni Hsi Hproj. cbn [rule_push_down_projections].
    unfold deref. rewrite Hl. cbn [mbind result_bind Py.bind]. rewrite Hin.
    cbn [map_heap]. rewrite (IH h li i Hri Hni Hsi).
    cbn [mbind result_bind Py.bind fst snd shape_of].
    assert (Ho : Obj (shape_of o) [li] = o) by (destruct o; simpl in *; congruence).
    rewrite Ho. unfold heap, loc in *. rewrite (list_insert_id h l o Hl).
    destruct (shape_of o) eqn:Hs; try done.
    specialize (Hproj _ eq_refl).
    unfold nth_input. rewrite Hin. change ([li] !! 0%nat) with (Some li).
    cbn [mbind result_bind Py.bind].
    destruct (represents_shape h li i Hri) as (child & Hc & Hnj).
    unfold deref. unfold heap, loc in *. rewrite Hc. cbn [mbind result_bind Py.bind].
    specialize (Hnj Hproj). by destruct (shape_of child) eqn:Hsc; try done; destruct (Hnj cond). }
  assert (Htwo : forall ll lr lt rt o,
            h !! l = Some o -> inputs o = [ll; lr] ->
            (forall attrs, shape_of o <> SProject attrs) ->
            represents h ll lt -> represents h lr rt ->
            no_project_over_join lt -> no_project_over_join rt ->
            (tree_size lt <= fuel)%nat -> (tree_size rt <= fuel)%nat ->
            rule_push_down_projections (S fuel) l dd h = Ok (l, h)).
  { intros ll lr lt rt o Hl Hin Hnp Hrl Hrr Hnl Hnr Hsl Hsr.
    cbn [rule_push_down_projections].
    unfold deref. rewrite Hl. cbn [mbind result_bind Py.bind]. rewrite Hin.
    cbn [map_heap]. rewrite (IH h ll lt Hrl Hnl Hsl).
    cbn [mbind result_bind Py.bind fst snd]. rewrite (IH h lr rt Hrr Hnr Hsr).
    cbn [mbind result_bind Py.bind fst snd shape_of].
    assert (Ho : Obj (shape_of o) [ll; lr] = o) by (destruct o; simpl in *; congruence).
    rewrite Ho. unfold heap, loc in *. rewrite (list_insert_id h l o Hl).
    destruct (shape_of o) eqn:Hs; try done. by destruct (Hnp attrs). }
  destruct t as [rel|c i|a i|rn an i|lt rt|lt c rt|ops i]; simpl in Hrep, Hno, Hsz.
  - cbn [rule_push_down_projections]. unfold deref. rewrite Hrep.
    cbn [mbind result_bind Py.bind inputs map_heap fst snd shape_of].
    unfold heap, loc in *. by rewrite (list_insert_id h l _ Hrep).
  - destruct Hrep as (li & Hl & Hri).
    apply (Hone li i _ Hl eq_refl Hri Hno); [lia | done].
  - destruct Hrep as (li & Hl & Hri). destruct Hno as [Hj Hno].
    apply (Hone li i _ Hl eq_refl Hri Hno); [lia | done].
  - destruct Hrep as (li & Hl & Hri).
    apply (Hone li i _ Hl eq_refl Hri Hno); [lia | done].
  - destruct Hrep as (ll & lr & Hl & Hrl & Hrr). destruct Hno as [Hnl Hnr].
    apply (Htwo ll lr lt rt _ Hl eq_refl); try done; lia.
  - destruct Hrep as (ll & lr & Hl & Hrl & Hrr). destruct Hno as [Hnl Hnr].
    apply (Htwo ll lr lt rt _ Hl eq_refl); try done; lia.
  - destruct Hrep as (li & Hl & Hri).
    apply (Hone li i _ Hl eq_refl Hri Hno); [lia | done].
Qed.

(** X22. [rule_push_down_projections] touches a tree only where a
    projection has a join as its input.  On the objects of a tree with no
    such projection the rule returns the address it was given and leaves
    every object as it was, so the tree read back is the tree that was
    stored. *)
Theorem rule_push_down_projections_leaves_other_trees
    (dd : schema) (t : node) (h0 : heap) (l : loc) (h : heap) :
  no_project_over_join t ->
  store_tree t h0 = (l, h) ->
  rule_push_down_projections (tree_size t) l dd h = Ok (l, h) /\
  read_tree (tree_size t) h l = Ok t.
Proof.
  intros Hno Hst. destruct (store_tree_represents _ _ _ _ Hst) as [Hrep _].
  split.
  - by apply (rule_push_down_projections_unchanged dd _ h l t).
  - by apply read_tree_represents.
Qed.

Lemma rule_push_down_projections_leaves_other_trees_witness :
  let t := Project [AttrRefOf None "x"]
             (Select a_x_is_b_y (Join (RelRef "A") a_x_is_b_y (RelRef "B"))) in
  let '(l, h) := store_tree t [] in
  rule_push_down_projections (tree_size t) l ab_schema h = Ok (l, h) /\
  read_tree (tree_size t) h l = Ok t.
Proof.
  apply (rule_push_down_projections_leaves_other_trees ab_schema _ []).
  - simpl. done.
  - reflexivity.
Defined.

End ProjectionFrame.

(** ** Instances *)

Section Instances.
Import Ra2mr.


Lemma ProjectTask_project_precedence_witness :
  NoDup [("Person.id", VInt 1); ("id", VInt 7)].*1 /\
  ProjectTask_project [AttrRefOf None "id"] [("Person.id", VInt 1); ("id", VInt 7)]
  = [("id", VInt 7)] /\
  chain_project [AttrRefOf None "id"] [("Person.id", VInt 1); ("id", VInt 7)]
  = [("Person.id", VInt 1)].
Proof.
  assert (Hnd : NoDup [("Person.id", VInt 1); ("id", VInt 7)].*1) by by_compute.
  split; [exact Hnd|].
  destruct (ProjectTask_project_precedence (AttrRefOf None "id")
              [("Person.id", VInt 1); ("id", VInt 7)] Hnd) as (Hexact & _ & _ & Hchain).
  split.
  - apply Hexact. by_compute.
  - apply (Hchain [] "Person.id" (VInt 1) [("id", VInt 7)]);
      [reflexivity | reflexivity | constructor].
Defined.

End Instances.
